(** * Beam search (universal_ml_utils/decoding/beam.py)

    A shallow embedding of [beam_search] and of its three closures
    [too_long], [filter_beams] and [get_outputs].

    Python objects are kept in an explicit store: a [Beam] is a cell of the
    store and the engine's lists hold references, so that in-place mutation
    ([beam.stop_reason = ...], [beam.cache = i], [candidate.add(...)] on the
    un-cloned beam when [beam_width == 1], [finished.extend(...)] on the
    engine's own list) is visible exactly where Python makes it visible.
    Scores and log-probabilities are binary64 floats, compared the way
    Python's [<], [>=], [min] and [max] compare them. *)

From Stdlib Require Import ZArith List String Bool Floats Lia.
From stdpp Require Import base option list.
Import ListNotations.
Local Open Scope Z_scope.

(** ** Python helpers *)

Module Py.

(** [l[:n]] for a possibly negative stop [n]. *)
Definition slice_to {A} (n : Z) (l : list A) : list A :=
  if 0 <=? n then take (Z.to_nat n) l
  else take (length l - Z.to_nat (- n))%nat l.

(** [min(xs, default=d)]: the first item is the running minimum, a later
    item replaces it when [item < current]. *)
Definition min_default (d : float) (xs : list float) : float :=
  match xs with
  | [] => d
  | x :: xs' => fold_left (fun cur it => if PrimFloat.ltb it cur then it else cur) xs' x
  end.

(** [max(xs)]: [None] is the ValueError on an empty iterable; a later item
    replaces the running maximum when [item > current]. *)
Definition max_opt (xs : list float) : option float :=
  match xs with
  | [] => None
  | x :: xs' => Some (fold_left (fun cur it => if PrimFloat.ltb cur it then it else cur) xs' x)
  end.

(** [a >= b] on floats. *)
Definition ge (a b : float) : bool := PrimFloat.leb b a.

Definition is_neginf (x : float) : bool :=
  match PrimFloat.classify x with
  | NInf => true
  | _ => false
  end.

(** Insertion of [x], which comes before every element of [l] in the
    input, into [l] sorted by decreasing key: [x] goes behind the elements
    with a strictly greater key and in front of those with an equal one. *)
Fixpoint insert_desc {A} (key : A -> float) (x : A) (l : list A) : list A :=
  match l with
  | [] => [x]
  | y :: l' =>
      if PrimFloat.ltb (key x) (key y) then y :: insert_desc key x l'
      else x :: l
  end.

(** [sorted(l, key=key, reverse=True)]: stable, decreasing keys (the result
    Python gives for keys that [<] orders totally). *)
Definition sorted_desc {A} (key : A -> float) (l : list A) : list A :=
  fold_right (insert_desc key) [] l.

(** [t[i]] on a sequence of length [n], with Python's negative indices;
    [None] is the IndexError. *)
Definition index {A} (l : list A) (i : Z) : option A :=
  let n := Z.of_nat (length l) in
  if (0 <=? i) && (i <? n) then l !! Z.to_nat i
  else if (- n <=? i) && (i <? 0) then l !! Z.to_nat (i + n)
  else None.

(** [x or y] for an [int | None] left operand. *)
Definition or_int (x : option Z) (y : Z) : Z :=
  match x with
  | Some v => if v =? 0 then y else v
  | None => y
  end.

(** [row[mask]] for a boolean mask of the row's shape; [None] is the
    IndexError of a mask of another shape. *)
Fixpoint masked {A} (row : list A) (mask : list bool) : option (list A) :=
  match row, mask with
  | [], [] => Some []
  | x :: row', m :: mask' =>
      match masked row' mask' with
      | Some r => Some (if m then x :: r else r)
      | None => None
      end
  | _, _ => None
  end.

End Py.

(** ** The data model *)

(** A reference to a Python object: the cell's position in the store. *)
Abbreviation ref := nat (only parsing).

(** Modelled from the spec: the class [Beam] of decoding/utils.py, of which
    beam.py uses [len(beam)], [bool(beam)] (Python's default, [len(beam) != 0]),
    [token_ids], [initial_length], [decoded_length], [last_token_id], [cache],
    [stop_reason], [clone()] and [add(token_id, log_prob)]. *)
Record Beam := mkBeam {
  token_ids : list Z;
  log_probs : list float;
  initial_length : Z;
  cache : option nat;
  stop_reason : option string
}.

Definition beam_len (b : Beam) : Z := Z.of_nat (length (token_ids b)).
Definition decoded_length (b : Beam) : Z := beam_len b - initial_length b.
Definition truthy (b : Beam) : bool := negb (beam_len b =? 0).
Definition last_token_id (b : Beam) : option Z := Py.index (token_ids b) (-1).

(** [Beam(init)] *)
Definition new_beam (init : list Z) : Beam :=
  mkBeam init [] (Z.of_nat (length init)) None None.

(** [beam.add(token_id, log_prob)] *)
Definition add (b : Beam) (token_id : Z) (log_prob : float) : Beam :=
  mkBeam (token_ids b ++ [token_id]) (log_probs b ++ [log_prob])
         (initial_length b) (cache b) (stop_reason b).

Definition set_cache (b : Beam) (i : nat) : Beam :=
  mkBeam (token_ids b) (log_probs b) (initial_length b) (Some i) (stop_reason b).

Definition set_stop_reason (b : Beam) (s : string) : Beam :=
  mkBeam (token_ids b) (log_probs b) (initial_length b) (cache b) (Some s).

#[global] Instance Beam_inhabited : Inhabited Beam := populate (new_beam []).

(** The object store. [clone()] is [alloc] of the same contents: a copy with
    a fresh identity. *)
Abbreviation Store := (list Beam) (only parsing).

Definition deref (h : Store) (r : ref) : Beam := h !!! r.
Definition assign (h : Store) (r : ref) (b : Beam) : Store := <[r := b]> h.
Definition alloc (h : Store) (b : Beam) : Store * ref := (h ++ [b], length h).

(** The keyword arguments of [beam_search] that are plain data. [device] only
    places tensors and is left out. *)
Record Config := mkConfig {
  pad_token_id : Z;
  max_length : Z;
  beam_width : Z;
  stop_condition : string;
  max_new_tokens : option Z;
  yield_intermediate : bool;
  return_unfinished : bool
}.

(** A tensor of shape [rows, columns]. *)
Abbreviation Tensor A := (list (list A)) (only parsing).

(** The callbacks of [beam_search], over the type [Cache] of the decoder's
    opaque cache, and [torch.log_softmax(_, dim=-1)]. [update_fn] gives back
    the candidate it was handed, as it is afterwards, or [None]. *)
Record Callbacks (Cache : Type) := mkCallbacks {
  decode_fn : Tensor Z -> Tensor Z -> Tensor bool -> option Cache
              -> Tensor float * option Cache;
  stop_fn : Beam -> bool;
  sample_fn : Tensor float -> Z -> Tensor Z * Tensor float;
  update_fn : Beam -> option Beam;
  score_fn : Beam -> option Z -> float;
  logit_fns : option (list (Tensor float -> list Beam -> Tensor float));
  cache_fn : option (Cache -> list nat -> list Z -> Cache);
  log_softmax : Tensor float -> Tensor float
}.
Arguments decode_fn {Cache}.
Arguments stop_fn {Cache}.
Arguments sample_fn {Cache}.
Arguments update_fn {Cache}.
Arguments score_fn {Cache}.
Arguments logit_fns {Cache}.
Arguments cache_fn {Cache}.
Arguments log_softmax {Cache}.
Arguments mkCallbacks {Cache}.

Inductive error :=
| AssertionError (msg : string)
| ValueError
| IndexError
| RuntimeError.

Inductive result (A : Type) :=
| Ok (a : A)
| Raise (e : error).
Arguments Ok {A}.
Arguments Raise {A}.

#[global] Instance result_ret : MRet result := fun A a => Ok a.
#[global] Instance result_bind : MBind result := fun A B k m =>
  match m with
  | Ok a => k a
  | Raise e => Raise e
  end.

Definition of_option {A} (e : error) (o : option A) : result A :=
  match o with
  | Some a => Ok a
  | None => Raise e
  end.

(** A loop [for x in xs: st = body(st, x)] whose body may raise. *)
Fixpoint for_each {A S} (body : S -> A -> result S) (xs : list A) (st : S) : result S :=
  match xs with
  | [] => Ok st
  | x :: xs' =>
      match body st x with
      | Ok st' => for_each body xs' st'
      | Raise e => Raise e
      end
  end.

(** The three lists of the engine, one entry per batch element, and the
    store their references point into. *)
Record State := mkState {
  store : Store;
  current_beams : list (list ref);
  finished_beams : list (list ref);
  too_long_beams : list (list ref)
}.

Definition with_store (st : State) (h : Store) : State :=
  mkState h (current_beams st) (finished_beams st) (too_long_beams st).
Definition with_current (st : State) (l : list (list ref)) : State :=
  mkState (store st) l (finished_beams st) (too_long_beams st).
Definition with_finished (st : State) (l : list (list ref)) : State :=
  mkState (store st) (current_beams st) l (too_long_beams st).
Definition with_too_long (st : State) (l : list (list ref)) : State :=
  mkState (store st) (current_beams st) (finished_beams st) l.

(** [xs[idx].append(r)] *)
Definition append_at (idx : nat) (r : ref) (xs : list (list ref)) : list (list ref) :=
  alter (fun l => l ++ [r]) idx xs.

Definition len {A} (l : list A) : Z := Z.of_nat (length l).

(** ** The closures of [beam_search] *)

Section Engine.

Context {Cache : Type}.
Variable cfg : Config.
Variable fns : Callbacks Cache.
(** [batch_size = len(initial)] *)
Variable batch_size : nat.

(** [score_fn(b)] of the object behind [r], the key of every [sorted]. *)
Definition score (h : Store) (r : ref) : float := score_fn fns (deref h r) None.

Definition too_long (beam : Beam) : bool :=
  if max_length cfg <=? beam_len beam then true
  else match max_new_tokens cfg with
       | None => false
       | Some n => n <=? decoded_length beam
       end.

(** One pass of [for beam in current_beams[idx]]; the accumulator carries
    the engine state and [new_beams]. *)
Definition classify_beam (idx : nat) (acc : State * list ref) (r : ref)
  : State * list ref :=
  let '(st, new_beams) := acc in
  let beam := deref (store st) r in
  if stop_fn fns beam then
    let st1 := with_store st (assign (store st) r (set_stop_reason beam "done")) in
    (with_finished st1 (append_at idx r (finished_beams st1)), new_beams)
  else if too_long beam then
    let st1 := with_store st (assign (store st) r (set_stop_reason beam "length")) in
    (with_too_long st1 (append_at idx r (too_long_beams st1)), new_beams)
  else (st, new_beams ++ [r]).

Definition classify (idx : nat) (st : State) : State * list ref :=
  fold_left (classify_beam idx) (current_beams st !!! idx) (st, []).

(** The length at which ["max_score"] projects the alive beams. *)
Definition projected_length (current : Beam) : Z :=
  let max_decoded_length := max_length cfg - initial_length current in
  Z.min max_decoded_length (Py.or_int (max_new_tokens cfg) max_decoded_length).

Definition worst_finished (st : State) (idx : nat) : float :=
  Py.min_default neg_infinity (map (score (store st)) (finished_beams st !!! idx)).

(** [best_current] of either branch; [ValueError] is [max] of nothing. *)
Definition best_current (st : State) (idx : nat) : result float :=
  let cur := current_beams st !!! idx in
  if String.eqb (stop_condition cfg) "estimated_score" then
    of_option ValueError (Py.max_opt (map (score (store st)) cur))
  else
    match cur with
    | [] => Raise RuntimeError (* [next] of nothing; [cur] is never empty here *)
    | r0 :: _ =>
        let length := projected_length (deref (store st) r0) in
        of_option ValueError
          (Py.max_opt
             (map (fun r => score_fn fns (deref (store st) r) (Some length))
                  (filter (fun r => truthy (deref (store st) r) = true) cur)))
    end.

(** The body of [for idx in range(batch_size)] in [filter_beams]. *)
Definition filter_element (st : State) (idx : nat) : result State :=
  let '(st1, new_beams) := classify idx st in
  let st2 := with_current st1 (<[idx := new_beams]> (current_beams st1)) in
  let cleared := with_current st2 (<[idx := []]> (current_beams st2)) in
  match new_beams with
  | [] => Ok st2
  | _ :: _ =>
      if len (finished_beams st2 !!! idx) <? beam_width cfg then Ok st2
      else if String.eqb (stop_condition cfg) "max_outputs" then Ok cleared
      else
        best ← best_current st2 idx;
        if Py.ge (worst_finished st2 idx) best then Ok cleared else Ok st2
  end.

(** The second loop of [filter_beams]: the alive beams of all elements in
    one list, and the element each one belongs to. *)
Definition flatten (st : State) : list ref * list nat :=
  fold_left
    (fun acc idx =>
       let cur := current_beams st !!! idx in
       (acc.1 ++ cur, acc.2 ++ replicate (length cur) idx))
    (seq 0 batch_size) ([], []).

Definition filter_beams (st : State) : result (State * (list ref * list nat)) :=
  st' ← for_each filter_element (seq 0 batch_size) st;
  Ok (st', flatten st').

(** The body of [for batch_idx in range(batch_size)] in [get_outputs].
    [finished] is the engine's own list, so [finished.extend] writes to
    [finished_beams[batch_idx]]; the later [sorted] makes a new list. *)
Definition get_outputs_element (acc : State * list (list ref)) (batch_idx : nat)
  : State * list (list ref) :=
  let '(st, outputs) := acc in
  let finished := finished_beams st !!! batch_idx in
  let st1 :=
    if return_unfinished cfg && (len finished <? beam_width cfg) then
      let too_long := Py.sorted_desc (score (store st)) (too_long_beams st !!! batch_idx) in
      with_finished st
        (<[batch_idx := finished ++ Py.slice_to (beam_width cfg - len finished) too_long]>
           (finished_beams st))
    else st in
  let finished1 := Py.sorted_desc (score (store st1)) (finished_beams st1 !!! batch_idx) in
  (st1, outputs ++ [Py.slice_to (beam_width cfg) finished1]).

Definition get_outputs (st : State) : State * list (list ref) :=
  fold_left get_outputs_element (seq 0 batch_size) (st, []).

(** *** One round of the [while beams] loop *)

Definition list_max (xs : list Z) : result Z :=
  match xs with
  | [] => Raise ValueError
  | x :: xs' => Ok (fold_left Z.max xs' x)
  end.

(** [cache_mask]: [Some] exactly when [all(beam.cache is not None ...)]. *)
Definition cache_mask (h : Store) (beams : list ref) : option (list nat) :=
  mapM (fun r => cache (deref h r)) beams.

Definition cache_lengths (h : Store) (beams : list ref) : list Z :=
  map (fun r => beam_len (deref h r) - 1) beams.

(** The tensors of the branch that decodes from the cache: the last token
    of each beam, its position, and the mask over the cached prefix. *)
Definition incremental_inputs (h : Store) (beams : list ref)
  : result (Tensor Z * Tensor Z * Tensor bool) :=
  lasts ← for_each
    (fun acc r => t ← of_option IndexError (last_token_id (deref h r)); Ok (acc ++ [[t]]))
    beams [];
  let position_ids := map (fun l => [l]) (cache_lengths h beams) in
  m ← list_max (cache_lengths h beams);
  let max_cache_length := m + 1 in
  let pad_mask :=
    map (fun r =>
           let n := beam_len (deref h r) in
           replicate (Z.to_nat (max_cache_length - n)) false
           ++ replicate (Z.to_nat n) true) beams in
  Ok (lasts, position_ids, pad_mask).

(** [torch.cumsum(pad_mask, -1) - 1] on one row, then [0] where the mask
    is off. *)
Fixpoint positions (count : Z) (mask : list bool) : list Z :=
  match mask with
  | [] => []
  | m :: mask' =>
      let count' := if m then count + 1 else count in
      (if m then count' - 1 else 0) :: positions count' mask'
  end.

(** The tensors of the branch that decodes the whole context, padded on
    the left. *)
Definition full_inputs (h : Store) (beams : list ref)
  : Tensor Z * Tensor Z * Tensor bool :=
  let seqs := map (fun r => token_ids (deref h r)) beams in
  let width := fold_left Nat.max (map (@length Z) seqs) 0%nat in
  let input_ids :=
    map (fun s => replicate (width - length s)%nat (pad_token_id cfg) ++ s) seqs in
  let pad_mask := map (map (fun t => negb (t =? pad_token_id cfg))) input_ids in
  (input_ids, map (positions 0) pad_mask, pad_mask).

(** [for token_id in selected_ids[i, valid_ids[i]]] *)
Definition expand_token (single : bool) (lps : Tensor float) (i batch_idx : nat)
    (r : ref) (acc : Store * list (list ref)) (token_id : Z)
  : result (Store * list (list ref)) :=
  let '(h, batch_candidates) := acc in
  let '(h1, candidate) := if single then (h, r) else alloc h (deref h r) in
  row ← of_option IndexError (lps !! i);
  lp ← of_option IndexError (Py.index row token_id);
  Ok (assign h1 candidate (add (deref h1 candidate) token_id lp),
      append_at batch_idx candidate batch_candidates).

(** [for i, batch_idx in enumerate(indices)] *)
Definition expand_beam (single : bool) (selected_ids : Tensor Z)
    (valid_ids : Tensor bool) (lps : Tensor float) (beams : list ref)
    (acc : Store * list (list ref)) (it : nat * nat)
  : result (Store * list (list ref)) :=
  let '(i, batch_idx) := it in
  let '(h, batch_candidates) := acc in
  r ← of_option IndexError (beams !! i);
  let h1 := assign h r (set_cache (deref h r) i) in
  ids ← of_option IndexError (selected_ids !! i);
  valid ← of_option IndexError (valid_ids !! i);
  tokens ← of_option IndexError (Py.masked ids valid);
  for_each (expand_token single lps i batch_idx r) tokens (h1, batch_candidates).

Definition enumerate {A} (l : list A) : list (nat * A) := imap pair l.

(** The logits the sampler sees: [for logit_fn in logit_fns or []]. *)
Definition apply_logit_fns (logits : Tensor float) (beams : list Beam) : Tensor float :=
  fold_left (fun lg logit_fn => logit_fn lg beams) (default [] (logit_fns fns)) logits.

(** From the decoder's logits to [batch_candidates]. *)
Definition expand (h : Store) (beams : list ref) (indices : list nat)
    (logits : Tensor float) : result (Store * list (list ref)) :=
  let lps := log_softmax fns logits in
  let logits1 := apply_logit_fns logits (map (deref h) beams) in
  let '(selected_ids, selected_logits) := sample_fn fns logits1 (beam_width cfg) in
  let valid_ids := map (map (fun x => negb (Py.is_neginf x))) selected_logits in
  for_each (expand_beam (beam_width cfg =? 1) selected_ids valid_ids lps beams)
           (enumerate indices) (h, replicate batch_size []).

(** [for candidate in candidates] of the pruning loop, with its [continue]
    and [break]; the third component lists the candidates handed to
    [update_fn], in order. *)
Fixpoint keep_best (h : Store) (kept : list ref) (candidates : list ref)
  : Store * list ref * list ref :=
  match candidates with
  | [] => (h, kept, [])
  | c :: rest =>
      match update_fn fns (deref h c) with
      | None =>
          let '(h', kept', calls) := keep_best h kept rest in
          (h', kept', c :: calls)
      | Some b =>
          let h1 := assign h c b in
          let kept1 := kept ++ [c] in
          if beam_width cfg <=? len kept1 then (h1, kept1, [c])
          else
            let '(h', kept', calls) := keep_best h1 kept1 rest in
            (h', kept', c :: calls)
      end
  end.

(** The body of [for batch_idx, candidates in enumerate(batch_candidates)]. *)
Definition prune_element (acc : State * list ref) (it : nat * list ref)
  : State * list ref :=
  let '(st, calls) := acc in
  let '(batch_idx, candidates) := it in
  let sorted := Py.sorted_desc (score (store st)) candidates in
  let '(h, kept, calls1) := keep_best (store st) [] sorted in
  (with_current (with_store st h) (<[batch_idx := kept]> (current_beams st)),
   calls ++ calls1).

Definition prune (st : State) (batch_candidates : list (list ref)) : State * list ref :=
  fold_left prune_element (enumerate batch_candidates) (st, []).

End Engine.

(** ** The generator *)

(** What a run does to the outside, in order: calls of [cache_fn] and of
    [decode_fn] with their arguments, [torch.cuda.empty_cache()], calls of
    [update_fn] with the candidate, and the values it yields. *)
Inductive event (Cache : Type) :=
| CacheFn (c : Cache) (mask : list nat) (lengths : list Z)
| EmptyCache
| Decode (input_ids position_ids : Tensor Z) (pad_mask : Tensor bool) (c : option Cache)
| Update (candidate : ref)
| Yield (outputs : list (list ref)).
Arguments CacheFn {Cache}.
Arguments EmptyCache {Cache}.
Arguments Decode {Cache}.
Arguments Update {Cache}.
Arguments Yield {Cache}.

(** The local variables of the [while] loop. *)
Record Loop (Cache : Type) := mkLoop {
  engine : State;
  beams : list ref;
  indices : list nat;
  cache_handle : option Cache
}.
Arguments mkLoop {Cache}.
Arguments engine {Cache}.
Arguments beams {Cache}.
Arguments indices {Cache}.
Arguments cache_handle {Cache}.

Inductive outcome :=
| Returned (st : State) (outputs : list (list ref))
| Raised (e : error)
| OutOfFuel.

Section Generator.

Context {Cache : Type}.
Variable cfg : Config.
Variable fns : Callbacks Cache.
Variable batch_size : nat.

(** The first part of the loop body: the inputs of [decode_fn] and the
    cache it is given, with the calls made on the way. *)
Definition prepare (lp : Loop Cache)
  : list (event Cache) * result (Tensor Z * Tensor Z * Tensor bool * option Cache) :=
  let h := store (engine lp) in
  match cache_handle lp, cache_mask h (beams lp) with
  | Some c, Some mask =>
      match cache_fn fns with
      | None => ([], Raise (AssertionError "cache_fn must be provided if cache is used"))
      | Some f =>
          let lengths := cache_lengths h (beams lp) in
          ([CacheFn c mask lengths],
           inputs ← incremental_inputs h (beams lp);
           Ok (inputs, Some (f c mask lengths)))
      end
  | Some c, None => ([EmptyCache], Ok (full_inputs cfg h (beams lp), None))
  | None, _ => ([], Ok (full_inputs cfg h (beams lp), None))
  end.

(** The rest of the loop body, from the call of [decode_fn] on. *)
Definition step (lp : Loop Cache)
    (inputs : Tensor Z * Tensor Z * Tensor bool * option Cache)
  : list (event Cache) * result (Loop Cache) :=
  let '(input_ids, position_ids, pad_mask, c) := inputs in
  let '(logits, c') := decode_fn fns input_ids position_ids pad_mask c in
  let decode := Decode input_ids position_ids pad_mask c in
  match expand cfg fns batch_size (store (engine lp)) (beams lp) (indices lp) logits with
  | Raise e => ([decode], Raise e)
  | Ok (h, batch_candidates) =>
      let '(st1, calls) := prune cfg fns (with_store (engine lp) h) batch_candidates in
      let updates := map Update calls in
      match filter_beams cfg fns batch_size st1 with
      | Raise e => (decode :: updates, Raise e)
      | Ok (st2, (beams', indices')) =>
          if yield_intermediate cfg then
            let '(st3, outputs) := get_outputs cfg fns batch_size st2 in
            (decode :: updates ++ [Yield outputs], Ok (mkLoop st3 beams' indices' c'))
          else (decode :: updates, Ok (mkLoop st2 beams' indices' c'))
      end
  end.

Definition round (lp : Loop Cache) : list (event Cache) * result (Loop Cache) :=
  match prepare lp with
  | (evs, Raise e) => (evs, Raise e)
  | (evs, Ok inputs) => let '(evs', r) := step lp inputs in (evs ++ evs', r)
  end.

(** [while beams: ...] followed by [return get_outputs()]; [fuel] bounds
    the number of rounds. *)
Fixpoint run_loop (fuel : nat) (lp : Loop Cache) : list (event Cache) * outcome :=
  match beams lp with
  | [] => let '(st, outputs) := get_outputs cfg fns batch_size (engine lp) in
          ([], Returned st outputs)
  | _ :: _ =>
      match fuel with
      | O => ([], OutOfFuel)
      | S fuel' =>
          match round lp with
          | (evs, Raise e) => (evs, Raised e)
          | (evs, Ok lp') => let '(evs', o) := run_loop fuel' lp' in (evs ++ evs', o)
          end
      end
  end.

End Generator.

(** An entry of [initial]: token ids, or a [Beam] object of the caller's. *)
Inductive Init :=
| TokenIds (ids : list Z)
| BeamObject (r : ref).

Section BeamSearch.

Context {Cache : Type}.
Variable cfg : Config.
Variable fns : Callbacks Cache.

(** The body of [for init in initial]. *)
Definition init_element (st : State) (init : Init) : result State :=
  let n := match init with
           | TokenIds ids => len ids
           | BeamObject r => beam_len (deref (store st) r)
           end in
  if 0 <? n then
    let '(h, r) := match init with
                   | TokenIds ids => alloc (store st) (new_beam ids)
                   | BeamObject r => (store st, r)
                   end in
    Ok (mkState h (current_beams st ++ [[r]]) (finished_beams st ++ [[]])
                (too_long_beams st ++ [[]]))
  else Raise (AssertionError "initial beam or token ids cannot be empty").

Definition valid_stop_condition (s : string) : bool :=
  String.eqb s "max_score" || String.eqb s "estimated_score" || String.eqb s "max_outputs".

(** The statements of [beam_search] before the loop; [h] holds the [Beam]
    objects the caller passes in. *)
Definition setup (h : Store) (initial : list Init) : result (Loop Cache) :=
  if negb (match max_new_tokens cfg with None => true | Some n => 0 <? n end) then
    Raise (AssertionError "max_new_tokens must be None or positive")
  else if negb (valid_stop_condition (stop_condition cfg)) then
    Raise (AssertionError
             "stop condition must be 'max_score', 'estimated_score' or 'max_outputs'")
  else if negb (1 <=? beam_width cfg) then
    Raise (AssertionError "beam width must be greater than or equal to 1")
  else
    st ← for_each init_element initial (mkState h [] [] []);
    '(st', (beams, indices)) ← filter_beams cfg fns (length initial) st;
    Ok (mkLoop st' beams indices None).

Definition beam_search (fuel : nat) (h : Store) (initial : list Init)
  : list (event Cache) * outcome :=
  match setup h initial with
  | Raise e => ([], Raised e)
  | Ok lp => run_loop cfg fns (length initial) fuel lp
  end.

End BeamSearch.

(** ** Concrete callbacks

    A decoder over a vocabulary of [width] tokens that gives every beam
    the same row of log-probabilities (so that [log_softmax] leaves it as
    it is), a sampler that proposes the first [beam_width] tokens of the
    vocabulary, and the sum of the log-probabilities as score. *)

Module Demo.

Definition sum_score (b : Beam) (length : option Z) : float :=
  fold_left PrimFloat.add (log_probs b) 0%float.

Definition first_k (logits : Tensor float) (k : Z) : Tensor Z * Tensor float :=
  (map (fun row => map Z.of_nat (seq 0 (Nat.min (Z.to_nat k) (length row)))) logits,
   map (fun row => take (Z.to_nat k) row) logits).

Definition constant_decoder (row : list float)
  : Tensor Z -> Tensor Z -> Tensor bool -> option nat -> Tensor float * option nat :=
  fun input_ids _ _ _ => (map (fun _ => row) input_ids, Some (length input_ids)).

Definition ends_with (t : Z) (b : Beam) : bool :=
  match last_token_id b with
  | Some t' => t' =? t
  | None => false
  end.

Definition callbacks (row : list float) (stop : Beam -> bool) : Callbacks nat :=
  mkCallbacks (constant_decoder row) stop first_k (fun b => Some b) sum_score None
              (Some (fun c _ _ => c)) (fun logits => logits).

(** One token in the vocabulary, no beam ever done. *)
Definition never_done : Callbacks nat := callbacks [(-1)%float] (fun _ => false).

(** Three tokens, a beam is done when it ends with token 1. *)
Definition done_on_1 : Callbacks nat :=
  callbacks [(-1)%float; (-2)%float; (-3)%float] (ends_with 1).

End Demo.

(** ** Vocabulary of the statements *)

(** An entry of [initial] that has no token. *)
Definition empty_init (h : Store) (init : Init) : Prop :=
  match init with
  | TokenIds ids => ids = []
  | BeamObject r => (r < length h)%nat /\ token_ids (deref h r) = []
  end.

(** The configurations [beam_search] asserts against. *)
Definition rejected (cfg : Config) (h : Store) (initial : list Init) : Prop :=
  (exists n, max_new_tokens cfg = Some n /\ n <= 0)
  \/ valid_stop_condition (stop_condition cfg) = false
  \/ beam_width cfg < 1
  \/ Exists (empty_init h) initial.

Section Vocabulary.

Context {Cache : Type}.
Variable cfg : Config.
Variable fns : Callbacks Cache.

(** What classification decides for a beam: the stop predicate is asked
    first. *)
Definition is_done (h : Store) (r : ref) : bool := stop_fn fns (deref h r).
Definition is_long (h : Store) (r : ref) : bool :=
  negb (stop_fn fns (deref h r)) && too_long cfg (deref h r).
Definition is_alive (h : Store) (r : ref) : bool :=
  negb (stop_fn fns (deref h r)) && negb (too_long cfg (deref h r)).

(** The beam as classification leaves it. *)
Definition mark (b : Beam) : Beam :=
  if stop_fn fns b then set_stop_reason b "done"
  else if too_long cfg b then set_stop_reason b "length"
  else b.


End Vocabulary.

(** A state in which the only alive beam is both done and too long. *)
Definition cfg10 : Config := mkConfig 0 2 2 "estimated_score" None false false.

Definition st10 : State :=
  mkState [mkBeam [5; 1] [(-2)%float] 1 None None] [[0%nat]] [[]] [[]].

Definition st10' : State :=
  mkState [mkBeam [5; 1] [(-2)%float] 1 None (Some "done"%string)] [[]] [[0%nat]] [[]].

(** Two states of a beam that agree on its tokens and its seed length, and
    two that agree on its cache slot as well: what classification and a
    well-behaved [update_fn] leave alone. *)
Definition same_tokens (b b' : Beam) : Prop :=
  token_ids b' = token_ids b /\ initial_length b' = initial_length b.

Definition keeps (b b' : Beam) : Prop :=
  same_tokens b b' /\ cache b' = cache b.

(** An element with two alive beams, of which the first ends with token 1,
    and the state classification turns it into under [Demo.done_on_1]. *)
Definition two_beams : State :=
  mkState [mkBeam [5; 1] [(-2)%float] 1 None None; mkBeam [5; 0] [(-1)%float] 1 None None]
          [[0%nat; 1%nat]] [[]] [[]].

Definition two_beams_classified : State :=
  mkState [mkBeam [5; 1] [(-2)%float] 1 None (Some "done"%string);
           mkBeam [5; 0] [(-1)%float] 1 None None]
          [[0%nat; 1%nat]] [[0%nat]] [[]].

Definition cfg_outputs (width : Z) : Config :=
  mkConfig 0 10 width "max_outputs" None false false.

(** One seed [[7]], room for one more token, two outputs asked for, both
    [yield_intermediate] and [return_unfinished] on. *)
Definition cfg_backfill : Config := mkConfig 0 2 2 "estimated_score" None true true.

(** The events of a round that may follow the call of [decode_fn]. *)
Definition after_decode {Cache : Type} (e : event Cache) : Prop :=
  match e with
  | Update _ | Yield _ => True
  | _ => False
  end.

(** The beam has at least one token. *)
Definition nonempty (h : Store) (r : ref) : Prop := token_ids (deref h r) <> [].

(** The sampler proposes at most as many tokens per beam as it is asked
    for. *)
Definition sampler_bounded {Cache : Type} (fns : Callbacks Cache) : Prop :=
  forall logits k,
    0 <= k -> Forall (fun ids : list Z => len ids <= k) (sample_fn fns logits k).1.

(** [update_fn] changes neither the tokens, nor the seed length, nor the
    cache slot of the candidate it accepts. *)
Definition update_keeps {Cache : Type} (fns : Callbacks Cache) : Prop :=
  forall b b', update_fn fns b = Some b' -> keeps b b'.

Section Expansion.

Variable sel : Tensor Z.
Variable valid : Tensor bool.
Variable lps : Tensor float.
Variable beams : list ref.
Variable indices : list nat.
Variable h0 : Store.
Variable single : bool.
Variable batch_size : nat.

(** Token [t] is among the valid tokens sampled for the beam at position [i]
    of the flattened list. *)
Definition proposed (i : nat) (t : Z) : Prop :=
  exists ids mask tokens,
    sel !! i = Some ids /\ valid !! i = Some mask
    /\ Py.masked ids mask = Some tokens /\ t ∈ tokens.

(** [p] is [lps[i, t]]. *)
Definition log_prob_at (i : nat) (t : Z) (p : float) : Prop :=
  exists row, lps !! i = Some row /\ Py.index row t = Some p.

(** Candidate [c] of element [idx] was made from one of the first [k] beams
    of the flattened list: it is that beam as the round found it, with the
    beam's position as cache slot and one token and its log-probability
    added; it is the beam itself when [beam_width == 1], a new object
    otherwise. *)
Definition child (k : nat) (h : Store) (idx : nat) (c : ref) : Prop :=
  exists i r t p,
    (i < k)%nat /\ beams !! i = Some r /\ indices !! i = Some idx
    /\ deref h c = add (set_cache (deref h0 r) i) t p
    /\ proposed i t /\ log_prob_at i t p
    /\ (if single then c = r else (length h0 <= c)%nat).

(** The store and [batch_candidates] after the first [k] beams of the
    flattened list were expanded. *)
Definition expanded (k : nat) (s : list Beam * list (list ref)) : Prop :=
  (length h0 <= length s.1)%nat
  /\ length s.2 = batch_size
  /\ (forall idx c, c ∈ s.2 !!! idx -> (c < length s.1)%nat /\ child k s.1 idx c)
  /\ (forall x, (x < length s.1)%nat ->
                (exists idx, x ∈ s.2 !!! idx)
                \/ ((x < length h0)%nat /\ same_tokens (deref h0 x) (deref s.1 x)))
  /\ NoDup (concat s.2)
  /\ (forall j r, (k <= j)%nat -> beams !! j = Some r ->
                  deref s.1 r = deref h0 r /\ r ∉ concat s.2).

End Expansion.

Section Wellformed.

Context {Cache : Type}.
Variable cfg : Config.
Variable n : nat.

(** What holds of the loop variables whenever the [while] condition is
    tested: one entry per batch element in each list, [beams] and [indices]
    the flattened alive lists, no beam alive twice, every alive beam short
    enough to take a token, and no dangling reference. *)
Definition wf (lp : Loop Cache) : Prop :=
  let st := engine lp in
  length (current_beams st) = n
  /\ length (finished_beams st) = n
  /\ length (too_long_beams st) = n
  /\ beams lp = (flatten n st).1
  /\ indices lp = (flatten n st).2
  /\ NoDup (beams lp)
  /\ (forall r, r ∈ beams lp -> (r < length (store st))%nat)
  /\ (forall r, r ∈ beams lp -> too_long cfg (deref (store st) r) = false)
  /\ (forall idx r, r ∈ finished_beams st !!! idx \/ r ∈ too_long_beams st !!! idx ->
                    (r < length (store st))%nat).

End Wellformed.

(** Object [x] of the store [s'] is one of [parents], as it was in [s], with
    one more token and with the parent's position as cache slot. *)
Definition grown (s s' : Store) (parents : list ref) (x : ref) : Prop :=
  exists i r t,
    parents !! i = Some r
    /\ token_ids (deref s' x) = token_ids (deref s r) ++ [t]
    /\ initial_length (deref s' x) = initial_length (deref s r)
    /\ cache (deref s' x) = Some i.

(** The [Beam] objects of the caller among the entries of [initial]. *)
Definition init_refs (initial : list Init) : list ref :=
  omap (fun init => match init with
                    | BeamObject r => Some r
                    | TokenIds _ => None
                    end) initial.

(** The caller passes existing objects, and none of them twice. *)
Definition initial_ok (h : Store) (initial : list Init) : Prop :=
  NoDup (init_refs initial) /\ Forall (fun r => (r < length h)%nat) (init_refs initial).

(** The two length limits, on a beam. *)
Definition within (cfg : Config) (b : Beam) : Prop :=
  beam_len b <= max_length cfg
  /\ (forall m, max_new_tokens cfg = Some m -> decoded_length b <= m).

(** An entry of [initial] within the limits. *)
Definition init_within (cfg : Config) (init : Init) : Prop :=
  match init with
  | TokenIds ids => len ids <= max_length cfg
  | BeamObject _ => True
  end.

(** The number of calls of [decode_fn] in a trace: the number of rounds
    that got as far as decoding. *)
Definition is_decode {Cache : Type} (e : event Cache) : bool :=
  match e with
  | Decode _ _ _ _ => true
  | _ => false
  end.

Definition decode_calls {Cache : Type} (evs : list (event Cache)) : nat :=
  length (List.filter is_decode evs).

(** Every object of the store is within the limits. *)
Definition all_within {Cache : Type} (cfg : Config) (lp : Loop Cache) : Prop :=
  forall x, (x < length (store (engine lp)))%nat -> within cfg (deref (store (engine lp)) x).

(** Every alive beam has at least [k] tokens. *)
Definition at_least {Cache : Type} (k : Z) (lp : Loop Cache) : Prop :=
  forall r, r ∈ beams lp -> k <= beam_len (deref (store (engine lp)) r).



(** Two outputs asked for, room for four tokens. *)
Definition cfg_wide : Config := mkConfig 0 4 2 "estimated_score" None false false.


(** The loop variables of a run of [Demo.done_on_1] on the seed [[5]] when
    the loop is entered, and after its first round. *)
Definition demo_lp0 : Loop nat :=
  Eval vm_compute in
    match setup cfg_wide Demo.done_on_1 [] [TokenIds [5]] with
    | Ok lp => lp
    | Raise _ => mkLoop (mkState [] [] [] []) [] [] None
    end.

Definition demo_lp1 : Loop nat :=
  Eval vm_compute in
    match round cfg_wide Demo.done_on_1 1 demo_lp0 with
    | (_, Ok lp) => lp
    | (_, Raise _) => demo_lp0
    end.

(** The whole run, its final state and the value it returns. *)
Definition demo_run : list (event nat) * outcome :=
  Eval vm_compute in beam_search cfg_wide Demo.done_on_1 4 [] [TokenIds [5]].

Definition demo_final : State :=
  Eval vm_compute in
    match demo_run.2 with
    | Returned st _ => st
    | _ => mkState [] [] [] []
    end.

Definition demo_outputs : list (list ref) :=
  Eval vm_compute in
    match demo_run.2 with
    | Returned _ outputs => outputs
    | _ => []
    end.

(** Room for two tokens only, too-long beams returned. *)
Definition cfg_short : Config := mkConfig 0 2 2 "estimated_score" None false true.

(** A seed of three tokens, put aside as too long by the first
    [filter_beams] and returned by [get_outputs]. *)
Definition long_seed : State :=
  mkState [mkBeam [7; 7; 7] [] 3 None (Some "length"%string)] [[]] [[0%nat]] [[0%nat]].

(** A vocabulary of two equally likely tokens, [log(1/2)] each, and a logit
    filter that forbids token 1. [log_softmax_2] is [log_softmax] on the
    rows that occur: it leaves the normalised row alone and gives
    [[0; -inf]] for a row whose second logit is [-inf]. *)
Definition log_half : float := (-0x1.62e42fefa39efp-1)%float.

Definition ban_token_1 (logits : Tensor float) (beams : list Beam) : Tensor float :=
  map (fun row => <[1%nat := neg_infinity]> row) logits.

Definition log_softmax_2 (logits : Tensor float) : Tensor float :=
  map (fun row => match row with
                  | [a; b] => if Py.is_neginf b then [0%float; neg_infinity] else row
                  | _ => row
                  end) logits.

Definition banning : Callbacks nat :=
  mkCallbacks (Demo.constant_decoder [log_half; log_half]) (fun _ => false) Demo.first_k
              (fun b => Some b) Demo.sum_score (Some [ban_token_1])
              (Some (fun c _ _ => c)) log_softmax_2.

(** The store and the candidates [expand] makes of the seed [[7]] under
    [banning]. *)
Definition banning_expanded : list Beam * list (list ref) :=
  ([mkBeam [7] [] 1 (Some 0%nat) None; mkBeam [7; 0] [log_half] 1 (Some 0%nat) None],
   [[1%nat]]).





(** A cache handle, and an alive beam that has no slot. *)
Definition stale_lp : Loop nat :=
  mkLoop (mkState [mkBeam [5] [] 1 None None] [[0%nat]] [[]] [[]]) [0%nat] [0%nat]
         (Some 7%nat).

(** ** Vocabulary of the further properties *)

(** What [beam_search] asks of its configuration, and of an entry of
    [initial]: a token, and for a [Beam] of the caller's that it exists. *)
Definition valid_config (cfg : Config) : Prop :=
  (forall n, max_new_tokens cfg = Some n -> 0 < n)
  /\ valid_stop_condition (stop_condition cfg) = true
  /\ 1 <= beam_width cfg.

Definition seed_ok (h : Store) (init : Init) : Prop :=
  match init with
  | TokenIds ids => ids <> []
  | BeamObject r => (r < length h)%nat /\ token_ids (deref h r) <> []
  end.

(** The finished list of element [idx] as [get_outputs] leaves it: with
    [return_unfinished], the best too-long beams fill it up to [beam_width]. *)
Definition backfilled {Cache : Type} (cfg : Config) (fns : Callbacks Cache) (st : State)
    (idx : nat) : list ref :=
  let finished := finished_beams st !!! idx in
  if return_unfinished cfg && (len finished <? beam_width cfg) then
    finished
    ++ Py.slice_to (beam_width cfg - len finished)
         (Py.sorted_desc (score fns (store st)) (too_long_beams st !!! idx))
  else finished.

(** A value [get_outputs] may give for [n] batch elements under [cfg]. *)
Definition output_shape (cfg : Config) (n : nat) (outputs : list (list ref)) : Prop :=
  length outputs = n /\ Forall (fun out => len out <= beam_width cfg) outputs.

(** A state with two finished beams and one alive beam. *)
Definition two_finished : State :=
  mkState [mkBeam [5; 1] [(-1)%float] 1 None (Some "done"%string);
           mkBeam [5; 2; 1] [(-1)%float; (-1)%float] 1 None (Some "done"%string);
           mkBeam [5; 2; 2] [(-1)%float; (-2)%float] 1 (Some 0%nat) None]
          [[2%nat]] [[0%nat; 1%nat]] [[]].

(** [W] is the number of tokens of the longest of [beams]. *)
Definition longest (h : Store) (beams : list ref) (W : nat) : Prop :=
  (forall r, r ∈ beams -> (length (token_ids (deref h r)) <= W)%nat)
  /\ exists r, r ∈ beams /\ length (token_ids (deref h r)) = W.

(** Two beams of different lengths. *)
Definition ragged : Store :=
  [mkBeam [5; 6; 7] [] 3 (Some 0%nat) None; mkBeam [8] [] 1 (Some 1%nat) None].

(** The number of values a trace yields. *)
Definition is_yield {Cache : Type} (e : event Cache) : bool :=
  match e with
  | Yield _ => true
  | _ => false
  end.

Definition yield_count {Cache : Type} (evs : list (event Cache)) : nat :=
  length (List.filter is_yield evs).

(** A call of [decode_fn] on a batch that is not empty, with as many rows
    of positions and of mask as of token ids. *)
Definition decode_batch {Cache : Type} (e : event Cache) : Prop :=
  match e with
  | Decode input_ids position_ids pad_mask _ =>
      input_ids <> [] /\ length position_ids = length input_ids
      /\ length pad_mask = length input_ids
  | _ => True
  end.

(** The callbacks of [Demo.never_done] without a [cache_fn]. *)
Definition uncached : Callbacks nat :=
  mkCallbacks (Demo.constant_decoder [(-1)%float]) (fun _ => false) Demo.first_k
              (fun b => Some b) Demo.sum_score None None (fun logits => logits).

(** The loop variables of a run of [uncached] on the seed [[5]] when the
    loop is entered, and after its first round. *)
Definition uncached_lp0 : Loop nat :=
  Eval vm_compute in
    match setup cfg_wide uncached [] [TokenIds [5]] with
    | Ok lp => lp
    | Raise _ => mkLoop (mkState [] [] [] []) [] [] None
    end.

Definition uncached_lp1 : Loop nat :=
  Eval vm_compute in
    match round cfg_wide uncached 1 uncached_lp0 with
    | (_, Ok lp) => lp
    | (_, Raise _) => uncached_lp0
    end.

(** A store that holds the beam of the seed [[7]] only. *)
Definition seed7 : Store := [new_beam [7]].

(** A sampler that proposes tokens 0 and 1 for every beam, and gives the
    second the logit [-inf]. *)
Definition second_invalid (logits : Tensor float) (k : Z) : Tensor Z * Tensor float :=
  (map (fun _ => take (Z.to_nat k) [0; 1]) logits,
   map (fun _ => take (Z.to_nat k) [0%float; neg_infinity]) logits).

Definition masking : Callbacks nat :=
  mkCallbacks (Demo.constant_decoder [(-1)%float; (-2)%float]) (fun _ => false)
              second_invalid (fun b => Some b) Demo.sum_score None
              (Some (fun c _ _ => c)) (fun logits => logits).

(** The store and the candidates [expand] makes of the seed [[7]] under
    [masking]. *)
Definition masking_expanded : list Beam * list (list ref) :=
  Eval vm_compute in
    match expand cfg_wide masking 1 seed7 [0%nat] [0%nat] [[(-1)%float; (-2)%float]] with
    | Ok s => s
    | Raise _ => ([], [])
    end.

(** One output asked for. *)
Definition cfg_single : Config := mkConfig 0 4 1 "estimated_score" None false false.

Definition single_expanded : list Beam * list (list ref) :=
  Eval vm_compute in
    match expand cfg_single Demo.never_done 1 seed7 [0%nat] [0%nat] [[(-1)%float]] with
    | Ok s => s
    | Raise _ => ([], [])
    end.

(** [st10] after classification under a stop predicate that never holds. *)
Definition st10_long : State :=
  mkState [mkBeam [5; 1] [(-2)%float] 1 None (Some "length"%string)] [[]] [[]] [[0%nat]].

(** [two_beams] after [filter_element] under [Demo.done_on_1]. *)
Definition two_beams_filtered : State :=
  mkState (store two_beams_classified) [[1%nat]] [[0%nat]] [[]].

(** Per batch element, the lists [l'] are the lists [l] with beams appended. *)
Definition extended (l l' : list (list ref)) : Prop :=
  length l' = length l /\ forall idx, l !!! idx `prefix_of` l' !!! idx.




(** [key] takes no NaN on [l], and [l] is in decreasing order of [key]:
    every item is [>=] every later one. *)
Definition no_nan {A} (key : A -> float) (l : list A) : Prop :=
  Forall (fun x => PrimFloat.is_nan (key x) = false) l.

Definition descending {A} (key : A -> float) (l : list A) : Prop :=
  forall i j a b, (i < j)%nat -> l !! i = Some a -> l !! j = Some b ->
                  Py.ge (key a) (key b) = true.

(** The sampler gives every token it proposes the logit [-inf]. *)
Definition all_invalid {Cache : Type} (fns : Callbacks Cache) : Prop :=
  forall logits k,
    Forall (Forall (fun x => Py.is_neginf x = true)) (sample_fn fns logits k).2.

(** A sampler that proposes the first [k] tokens, each with logit [-inf]. *)
Definition none_valid (logits : Tensor float) (k : Z) : Tensor Z * Tensor float :=
  ((Demo.first_k logits k).1,
   map (fun row => map (fun _ => neg_infinity) (seq 0 (Nat.min (Z.to_nat k) (length row))))
       logits).

Definition blocked : Callbacks nat :=
  mkCallbacks (Demo.constant_decoder [(-1)%float; (-2)%float]) (fun _ => false)
              none_valid (fun b => Some b) Demo.sum_score None
              (Some (fun c _ _ => c)) (fun logits => logits).

(** The loop variables of a run of [blocked] on the seed [[5]] when the
    loop is entered, and after its first round. *)
Definition blocked_lp0 : Loop nat :=
  Eval vm_compute in
    match setup cfg_wide blocked [] [TokenIds [5]] with
    | Ok lp => lp
    | Raise _ => mkLoop (mkState [] [] [] []) [] [] None
    end.

Definition blocked_lp1 : Loop nat :=
  Eval vm_compute in
    match round cfg_wide blocked 1 blocked_lp0 with
    | (_, Ok lp) => lp
    | (_, Raise _) => blocked_lp0
    end.

(** The loop variables of a run of [Demo.never_done] on the seed [[5]] with
    [beam_width == 1], and the state it returns. *)
Definition single_lp0 : Loop nat :=
  Eval vm_compute in
    match setup cfg_single Demo.never_done [] [TokenIds [5]] with
    | Ok lp => lp
    | Raise _ => mkLoop (mkState [] [] [] []) [] [] None
    end.

Definition single_final : State :=
  Eval vm_compute in
    match (run_loop cfg_single Demo.never_done 1 4 single_lp0).2 with
    | Returned st _ => st
    | _ => mkState [] [] [] []
    end.

(** The loop variables of the run of [Demo.done_on_1] after its second
    round. *)
Definition demo_lp2 : Loop nat :=
  Eval vm_compute in
    match round cfg_wide Demo.done_on_1 1 demo_lp1 with
    | (_, Ok lp) => lp
    | (_, Raise _) => demo_lp1
    end.

(** *** Scores per token, and a hook that shortens beams *)

(** The sum of the log-probabilities per token, over the length given or,
    without one, over the number of decoded tokens. *)
Definition per_token (b : Beam) (length : option Z) : float :=
  (Demo.sum_score b length
   / PrimFloat.of_uint63 (Uint63.of_Z (default (decoded_length b) length)))%float.

(** Three tokens, a beam is done when it ends with token 1, scored per
    token. *)
Definition scored : Callbacks nat :=
  mkCallbacks (Demo.constant_decoder [(-1)%float; (-2)%float; (-3)%float])
              (Demo.ends_with 1) Demo.first_k (fun b => Some b) per_token None
              (Some (fun c _ _ => c)) (fun logits => logits).

(** An element with four alive beams, of which the first two end with
    token 1, and the state classification turns it into under [scored]. *)
Definition four_beams : State :=
  mkState [mkBeam [5; 0; 1] [(-1)%float; (-2)%float] 1 None None;
           mkBeam [5; 1] [(-4)%float] 1 None None;
           mkBeam [5; 2; 0] [(-3)%float; (-1)%float] 1 None None;
           mkBeam [5; 0; 0] [(-1)%float; (-1)%float] 1 None None]
          [[0%nat; 1%nat; 2%nat; 3%nat]] [[]] [[]].

Definition four_classified : State :=
  mkState [mkBeam [5; 0; 1] [(-1)%float; (-2)%float] 1 None (Some "done"%string);
           mkBeam [5; 1] [(-4)%float] 1 None (Some "done"%string);
           mkBeam [5; 2; 0] [(-3)%float; (-1)%float] 1 None None;
           mkBeam [5; 0; 0] [(-1)%float; (-1)%float] 1 None None]
          [[0%nat; 1%nat; 2%nat; 3%nat]] [[0%nat; 1%nat]] [[]].


(** [m] is the greatest, respectively the least, of [xs], the way Python's
    [max] and [min] find it: it is one of the items, and when no item is NaN
    it is [>=], respectively [<=], every item. *)
Definition greatest (xs : list float) (m : float) : Prop :=
  m ∈ xs /\ (no_nan (fun x => x) xs -> forall x, x ∈ xs -> Py.ge m x = true).

Definition least (xs : list float) (m : float) : Prop :=
  m ∈ xs /\ (no_nan (fun x => x) xs -> forall x, x ∈ xs -> Py.ge x m = true).

(** A hook that cuts every candidate back to its first token. *)
Definition truncate (b : Beam) : option Beam :=
  Some (mkBeam (take 1 (token_ids b)) [] (initial_length b) (cache b) (stop_reason b)).

Definition truncating : Callbacks nat :=
  mkCallbacks (Demo.constant_decoder [(-1)%float]) (fun _ => false) Demo.first_k
              truncate Demo.sum_score None (Some (fun c _ _ => c)) (fun logits => logits).

(** The loop variables of a run of [truncating] on the seed [[5]] with
    [beam_width == 1], when the loop is entered and after its first round. *)
Definition truncating_lp0 : Loop nat :=
  Eval vm_compute in
    match setup cfg_single truncating [] [TokenIds [5]] with
    | Ok lp => lp
    | Raise _ => mkLoop (mkState [] [] [] []) [] [] None
    end.

Definition truncating_lp1 : Loop nat :=
  Eval vm_compute in
    match round cfg_single truncating 1 truncating_lp0 with
    | (_, Ok lp) => lp
    | (_, Raise _) => truncating_lp0
    end.

(** A configuration that is valid but for [max_length = 0]. *)
Definition cfg_zero : Config := mkConfig 0 0 2 "estimated_score" None false false.

(** * Properties *)

(** ** The order of floats *)

Lemma SFcompare_antisym (a b : spec_float) :
  SFcompare b a = option_map CompOpp (SFcompare a b).
Proof.
  destruct a as [sa|sa| |sa ma ea], b as [sb|sb| |sb mb eb]; simpl; try done;
    try (by destruct sa); try (by destruct sb); try (by destruct sa, sb).
  destruct sa, sb; simpl; try done.
  - rewrite (Z.compare_antisym ea eb). destruct (ea ?= eb); simpl; try done.
    f_equal. f_equal. apply (Pos.compare_antisym ma mb).
  - rewrite (Z.compare_antisym ea eb). destruct (ea ?= eb); simpl; try done.
    f_equal. apply (Pos.compare_antisym ma mb).
Qed.

Lemma SFleb_trans (a b c : spec_float) :
  SFleb a b = true -> SFleb b c = true -> SFleb a c = true.
Proof.
  unfold SFleb.
  destruct a as [sa|sa| |sa ma ea], b as [sb|sb| |sb mb eb], c as [sc|sc| |sc mc ec];
    simpl; try done;
    try (by destruct sa); try (by destruct sb); try (by destruct sc);
    try (by destruct sa, sb); try (by destruct sb, sc); try (by destruct sa, sc);
    try (by destruct sa, sb, sc).
  change (PosDef.Pos.compare_cont Eq) with Pos.compare.
  destruct sa, sb, sc; simpl; try done;
    destruct (Z.compare_spec ea eb), (Z.compare_spec eb ec), (Z.compare_spec ea ec);
    try lia; try done; subst;
    destruct (Pos.compare_spec ma mb), (Pos.compare_spec mb mc), (Pos.compare_spec ma mc);
    simpl; try done; try lia.
Qed.

Lemma Prim2SF_not_nan (x : float) : PrimFloat.is_nan x = false -> Prim2SF x <> S754_nan.
Proof.
  intros Hx. unfold Prim2SF. rewrite Hx.
  destruct (is_zero x); [done|]. destruct (is_infinity x); [done|].
  destruct (Z.frexp x) as [r e]. destruct (shr_fexp _ _ _ _ _) as [shr e'].
  by destruct (shr_m shr).
Qed.

(** On floats that are not NaN, [not (x < y)] is [y <= x]. *)
Lemma not_ltb_ge (x y : float) :
  PrimFloat.is_nan x = false -> PrimFloat.is_nan y = false ->
  PrimFloat.ltb x y = false -> Py.ge x y = true.
Proof.
  intros Hx Hy. unfold Py.ge. rewrite ltb_spec, leb_spec. unfold SFltb, SFleb.
  rewrite (SFcompare_antisym (Prim2SF x) (Prim2SF y)).
  apply Prim2SF_not_nan in Hx, Hy.
  destruct (Prim2SF x) as [sa|sa| |sa ma ea], (Prim2SF y) as [sb|sb| |sb mb eb];
    try done; destruct (SFcompare _ _) as [[]|] eqn:Hc; simpl; try done;
    simpl in Hc; try discriminate.
Qed.

Lemma ltb_ge (x y : float) : PrimFloat.ltb x y = true -> Py.ge y x = true.
Proof.
  unfold Py.ge. rewrite ltb_spec, leb_spec. unfold SFltb, SFleb.
  by destruct (SFcompare _ _) as [[]|].
Qed.

Lemma ge_trans (x y z : float) : Py.ge x y = true -> Py.ge y z = true -> Py.ge x z = true.
Proof.
  unfold Py.ge. rewrite !leb_spec. intros H1 H2. by eapply SFleb_trans.
Qed.

Lemma ge_refl (x : float) : PrimFloat.is_nan x = false -> Py.ge x x = true.
Proof.
  intros Hx. destruct (PrimFloat.ltb x x) eqn:Hlt.
  - by apply ltb_ge.
  - by apply not_ltb_ge.
Qed.

(** The loops of [max] and of [min]: the result is the start value or one
    of the items, and when none of them is NaN it is [>=], respectively
    [<=], all of them. *)
Lemma fold_max_spec (xs : list float) :
  forall cur : float,
  let m := fold_left (fun cur it => if PrimFloat.ltb cur it then it else cur) xs cur in
  (m = cur \/ m ∈ xs)
  /\ (PrimFloat.is_nan cur = false -> no_nan (fun x => x) xs ->
      Py.ge m cur = true /\ forall x, x ∈ xs -> Py.ge m x = true).
Proof.
  induction xs as [|x xs IH]; intros cur; cbn [fold_left].
  - split; [by left|]. intros Hc _. split; [by apply ge_refl|].
    intros x Hx. by apply elem_of_nil in Hx.
  - destruct (IH (if PrimFloat.ltb cur x then x else cur)) as [Hin Hge]. split.
    + destruct Hin as [Hin|Hin]; [|right; by right].
      rewrite Hin. destruct (PrimFloat.ltb cur x); [right; by left|by left].
    + intros Hc Hxs. apply Forall_cons in Hxs as [Hx Hxs].
      destruct (PrimFloat.ltb cur x) eqn:Hlt.
      * destruct (Hge Hx Hxs) as [G1 G2]. split.
        -- eapply ge_trans; [exact G1|by apply ltb_ge].
        -- intros y Hy. apply elem_of_cons in Hy as [->|Hy]; [done|by apply G2].
      * destruct (Hge Hc Hxs) as [G1 G2]. split; [done|].
        intros y Hy. apply elem_of_cons in Hy as [->|Hy]; [|by apply G2].
        eapply ge_trans; [exact G1|by apply not_ltb_ge].
Qed.

Lemma fold_min_spec (xs : list float) :
  forall cur : float,
  let m := fold_left (fun cur it => if PrimFloat.ltb it cur then it else cur) xs cur in
  (m = cur \/ m ∈ xs)
  /\ (PrimFloat.is_nan cur = false -> no_nan (fun x => x) xs ->
      Py.ge cur m = true /\ forall x, x ∈ xs -> Py.ge x m = true).
Proof.
  induction xs as [|x xs IH]; intros cur; cbn [fold_left].
  - split; [by left|]. intros Hc _. split; [by apply ge_refl|].
    intros x Hx. by apply elem_of_nil in Hx.
  - destruct (IH (if PrimFloat.ltb x cur then x else cur)) as [Hin Hge]. split.
    + destruct Hin as [Hin|Hin]; [|right; by right].
      rewrite Hin. destruct (PrimFloat.ltb x cur); [right; by left|by left].
    + intros Hc Hxs. apply Forall_cons in Hxs as [Hx Hxs].
      destruct (PrimFloat.ltb x cur) eqn:Hlt.
      * destruct (Hge Hx Hxs) as [G1 G2]. split.
        -- eapply ge_trans; [|exact G1]. by apply ltb_ge.
        -- intros y Hy. apply elem_of_cons in Hy as [->|Hy]; [done|by apply G2].
      * destruct (Hge Hc Hxs) as [G1 G2]. split; [done|].
        intros y Hy. apply elem_of_cons in Hy as [->|Hy]; [|by apply G2].
        eapply ge_trans; [|exact G1]. by apply not_ltb_ge.
Qed.

(** Python's [max] gives the greatest item, [min] the least. *)
Lemma max_opt_greatest (xs : list float) (m : float) :
  Py.max_opt xs = Some m -> greatest xs m.
Proof.
  destruct xs as [|x xs]; [discriminate|]. intros [= <-].
  destruct (fold_max_spec xs x) as [Hin Hge]. split.
  - destruct Hin as [->|Hin]; [by left|by right].
  - intros Hall y Hy. apply Forall_cons in Hall as [Hx Hxs].
    destruct (Hge Hx Hxs) as [G1 G2].
    apply elem_of_cons in Hy as [->|Hy]; [done|by apply G2].
Qed.

Lemma min_default_least (d : float) (xs : list float) :
  xs <> [] -> least xs (Py.min_default d xs).
Proof.
  destruct xs as [|x xs]; [done|]. intros _.
  destruct (fold_min_spec xs x) as [Hin Hge]. unfold Py.min_default. split.
  - destruct Hin as [Hin|Hin]; [rewrite Hin; by left|by right].
  - intros Hall y Hy. apply Forall_cons in Hall as [Hx Hxs].
    destruct (Hge Hx Hxs) as [G1 G2].
    apply elem_of_cons in Hy as [->|Hy]; [done|by apply G2].
Qed.

(** When no score is NaN, the least of one list is [>=] the greatest of
    another exactly when every item of the first is [>=] every item of the
    second. *)
Lemma least_ge_greatest (xs ys : list float) (worst best : float) :
  least xs worst -> greatest ys best ->
  no_nan (fun x => x) ys -> no_nan (fun x => x) xs ->
  Py.ge worst best = true <-> forall f a, f ∈ xs -> a ∈ ys -> Py.ge f a = true.
Proof.
  intros [Hwo Hwge] [Hb Hbge] Hny Hnx. split.
  - intros Hge f a Hf Ha.
    eapply ge_trans; [apply (Hwge Hnx f Hf)|].
    eapply ge_trans; [exact Hge|apply (Hbge Hny a Ha)].
  - intros Hall. by apply Hall.
Qed.

(** ** The store *)

Lemma deref_assign_eq (h : Store) (r : ref) (b : Beam) :
  (r < length h)%nat -> deref (assign h r b) r = b.
Proof.
  intros Hr. unfold deref, assign.
  apply list_lookup_total_correct. by apply list_lookup_insert_eq.
Qed.

Lemma deref_assign_ne (h : Store) (r r' : ref) (b : Beam) :
  r <> r' -> deref (assign h r b) r' = deref h r'.
Proof.
  intros Hne. unfold deref, assign.
  rewrite !list_lookup_total_alt. by rewrite list_lookup_insert_ne.
Qed.

Lemma length_assign (h : Store) (r : ref) (b : Beam) : length (assign h r b) = length h.
Proof. apply length_insert. Qed.

Lemma deref_app_l (h h' : Store) (r : ref) :
  (r < length h)%nat -> deref (h ++ h') r = deref h r.
Proof.
  intros Hr. unfold deref. rewrite !list_lookup_total_alt.
  by rewrite lookup_app_l.
Qed.

Lemma deref_alloc_new (h : Store) (b : Beam) : deref (alloc h b).1 (alloc h b).2 = b.
Proof.
  unfold deref, alloc. simpl. apply list_lookup_total_correct.
  rewrite lookup_app_r by lia. by rewrite Nat.sub_diag.
Qed.

(** ** Validation: what the assertions reject *)

Section Validation.

Context {Cache : Type}.
Variable cfg : Config.
Variable fns : Callbacks Cache.

Lemma init_element_store (st st' : State) (init : Init) :
  init_element st init = Ok st' -> exists extra, store st' = store st ++ extra.
Proof.
  unfold init_element. destruct (0 <? _); [|discriminate].
  destruct init as [ids|r]; simpl; intros [= <-]; simpl.
  - by exists [new_beam ids].
  - exists []. by rewrite app_nil_r.
Qed.

Lemma init_element_empty (h extra : Store) (st : State) (init : Init) :
  store st = h ++ extra -> empty_init h init ->
  exists msg, init_element st init = Raise (AssertionError msg).
Proof.
  intros Hst Hem. unfold init_element.
  destruct init as [ids|r]; simpl in Hem.
  - subst ids. simpl. eauto.
  - destruct Hem as [Hr Hem]. rewrite Hst, deref_app_l by done.
    unfold beam_len. rewrite Hem. simpl. eauto.
Qed.

Lemma init_raises (h : Store) (initial : list Init) :
  Exists (empty_init h) initial ->
  forall extra st, store st = h ++ extra ->
  exists msg, for_each init_element initial st = Raise (AssertionError msg).
Proof.
  induction 1 as [init initial Hem|init initial _ IH]; intros extra st Hst; simpl.
  - destruct (init_element_empty h extra st init Hst Hem) as [msg ->]. eauto.
  - destruct (init_element st init) as [st'|e] eqn:Hel.
    + destruct (init_element_store _ _ _ Hel) as [extra' Hst'].
      apply (IH (extra ++ extra')). by rewrite Hst', Hst, app_assoc.
    + unfold init_element in Hel. destruct (0 <? _); [|injection Hel as <-; eauto].
      by destruct init.
Qed.

Lemma setup_rejects (h : Store) (initial : list Init) :
  rejected cfg h initial -> exists msg, setup cfg fns h initial = Raise (AssertionError msg).
Proof.
  intros Hrej. unfold setup.
  destruct (negb match max_new_tokens cfg with
                 | Some n => 0 <? n
                 | None => true
                 end) eqn:Hmnt; [eauto|].
  destruct (negb (valid_stop_condition (stop_condition cfg))) eqn:Hsc; [eauto|].
  destruct (negb (1 <=? beam_width cfg)) eqn:Hbw; [eauto|].
  destruct Hrej as [(n & Hn & Hle)|[Hv|[Hw|Hex]]].
  - rewrite Hn in Hmnt. apply negb_false_iff, Z.ltb_lt in Hmnt. lia.
  - rewrite Hv in Hsc. discriminate.
  - apply negb_false_iff, Z.leb_le in Hbw. lia.
  - destruct (init_raises h initial Hex [] (mkState h [] [] [])) as [msg Hmsg].
    { simpl. by rewrite app_nil_r. }
    rewrite Hmsg. simpl. eauto.
Qed.

End Validation.

(** ** Classification *)
Section Classify.

Context {Cache : Type}.
Variable cfg : Config.
Variable fns : Callbacks Cache.

Lemma classify_beam_spec (idx : nat) (st : State) (new_beams : list ref) (r : ref) :
  classify_beam cfg fns idx (st, new_beams) r =
    (mkState (if is_alive cfg fns (store st) r then store st
              else assign (store st) r (mark cfg fns (deref (store st) r)))
             (current_beams st)
             (if is_done fns (store st) r then append_at idx r (finished_beams st)
              else finished_beams st)
             (if is_long cfg fns (store st) r then append_at idx r (too_long_beams st)
              else too_long_beams st),
     if is_alive cfg fns (store st) r then new_beams ++ [r] else new_beams).
Proof.
  unfold classify_beam, is_done, is_long, is_alive, mark.
  destruct (stop_fn fns _) eqn:Hs; [|destruct (too_long cfg _) eqn:Hl]; simpl; try done.
  by destruct st.
Qed.

Lemma deref_mark_other (h : Store) (r x : ref) :
  x <> r ->
  deref (if is_alive cfg fns h r then h else assign h r (mark cfg fns (deref h r))) x = deref h x.
Proof.
  intros Hne. destruct (is_alive cfg fns h r); [done|]. by apply deref_assign_ne.
Qed.

Lemma filter_ext_in {A} (P Q : A -> Prop) `{!forall x, Decision (P x)}
    `{!forall x, Decision (Q x)} (l : list A) :
  (forall x, x ∈ l -> P x <-> Q x) -> filter P l = filter Q l.
Proof.
  induction l as [|a l IH]; intros Hext; [done|].
  rewrite !filter_cons.
  rewrite IH by (intros x Hx; apply Hext; by right).
  destruct (decide (P a)) as [Hp|Hp], (decide (Q a)) as [Hq|Hq]; try done;
    exfalso; apply (Hext a) in Hp || apply (Hext a) in Hq; try done; by left.
Qed.

(** The classification loop over a list without repetition: who goes
    where is decided on the store as it is when the loop starts. *)
Lemma classify_fold_spec (idx : nat) (l : list ref) :
  NoDup l ->
  forall (st : State) (new_beams : list ref),
  exists h',
    fold_left (classify_beam cfg fns idx) l (st, new_beams)
    = (mkState h' (current_beams st)
         (alter (fun x => x ++ filter (fun r => is_done fns (store st) r = true) l) idx
                (finished_beams st))
         (alter (fun x => x ++ filter (fun r => is_long cfg fns (store st) r = true) l) idx
                (too_long_beams st)),
       new_beams ++ filter (fun r => is_alive cfg fns (store st) r = true) l)
    /\ length h' = length (store st)
    /\ (forall r, r ∈ l -> (r < length (store st))%nat ->
                  deref h' r = mark cfg fns (deref (store st) r))
    /\ (forall r, r ∉ l -> deref h' r = deref (store st) r).
Proof.
  induction 1 as [|r l Hnotin Hnd IH]; intros st new_beams.
  - exists (store st). simpl. rewrite app_nil_r.
    rewrite !list_alter_id by (intros; by rewrite app_nil_r).
    split; [by destruct st|]. split; [done|]. split; [|done].
    intros r Hr. by apply elem_of_nil in Hr.
  - cbn [fold_left]. rewrite classify_beam_spec.
    set (h1 := if is_alive cfg fns (store st) r then store st
               else assign (store st) r (mark cfg fns (deref (store st) r))).
    match goal with |- context [fold_left _ l (?s, ?n)] =>
      destruct (IH s n) as (h' & Heq & Hlen & Hin & Hout) end.
    simpl in *. fold h1 in Heq, Hlen, Hin, Hout.
    assert (Hsame : forall x, x ∈ l -> deref h1 x = deref (store st) x).
    { intros x Hx. apply deref_mark_other. intros ->. done. }
    assert (Hlen1 : length h1 = length (store st)).
    { unfold h1. destruct (is_alive _ _); [done|]. apply length_assign. }
    exists h'. rewrite Heq. split; [|split; [lia|split]].
    + f_equal.
      * f_equal.
        -- rewrite filter_cons.
           rewrite (filter_ext_in (fun x => is_done fns h1 x = true)
                      (fun x => is_done fns (store st) x = true) l)
             by (intros x Hx; unfold is_done; by rewrite Hsame).
           destruct (is_done fns (store st) r) eqn:Hd.
           ++ rewrite decide_True by done. unfold append_at.
              rewrite list_alter_alter_eq. apply list_alter_ext; [|done].
              intros x _. simpl. by rewrite <- app_assoc.
           ++ by rewrite decide_False by done.
        -- rewrite filter_cons.
           rewrite (filter_ext_in (fun x => is_long cfg fns h1 x = true)
                      (fun x => is_long cfg fns (store st) x = true) l)
             by (intros x Hx; unfold is_long; by rewrite Hsame).
           destruct (is_long cfg fns (store st) r) eqn:Hd.
           ++ rewrite decide_True by done. unfold append_at.
              rewrite list_alter_alter_eq. apply list_alter_ext; [|done].
              intros x _. simpl. by rewrite <- app_assoc.
           ++ by rewrite decide_False by done.
      * rewrite filter_cons.
        rewrite (filter_ext_in (fun x => is_alive cfg fns h1 x = true)
                   (fun x => is_alive cfg fns (store st) x = true) l)
          by (intros x Hx; unfold is_alive; by rewrite Hsame).
        destruct (is_alive cfg fns (store st) r) eqn:Hd.
        -- rewrite decide_True by done. by rewrite <- app_assoc.
        -- by rewrite decide_False by done.
    + intros x Hx Hlt. apply elem_of_cons in Hx as [->|Hx].
      * rewrite (Hout r Hnotin). unfold h1, mark, is_alive.
        destruct (stop_fn fns (deref (store st) r)) eqn:Hs; simpl.
        { by rewrite deref_assign_eq by done. }
        destruct (too_long cfg (deref (store st) r)) eqn:Hl; simpl; [|done].
        by rewrite deref_assign_eq by done.
      * rewrite Hin by (done || lia). by rewrite Hsame.
    + intros x Hx. apply not_elem_of_cons in Hx as [Hne Hx].
      rewrite Hout by done. apply deref_mark_other. done.
Qed.

Lemma classify_spec (idx : nat) (st : State) :
  NoDup (current_beams st !!! idx) ->
  exists h',
    classify cfg fns idx st
    = (mkState h' (current_beams st)
         (alter (fun x => x ++ filter (fun r => is_done fns (store st) r = true)
                                      (current_beams st !!! idx)) idx (finished_beams st))
         (alter (fun x => x ++ filter (fun r => is_long cfg fns (store st) r = true)
                                      (current_beams st !!! idx)) idx (too_long_beams st)),
       filter (fun r => is_alive cfg fns (store st) r = true) (current_beams st !!! idx))
    /\ length h' = length (store st)
    /\ (forall r, r ∈ current_beams st !!! idx -> (r < length (store st))%nat ->
                  deref h' r = mark cfg fns (deref (store st) r))
    /\ (forall r, r ∉ current_beams st !!! idx -> deref h' r = deref (store st) r).
Proof.
  intros Hnd. unfold classify.
  destruct (classify_fold_spec idx _ Hnd st []) as (h' & Heq & Hrest).
  exists h'. by rewrite Heq.
Qed.

(** After classification [filter_element] only decides between keeping and
    clearing the alive list of the element. *)
Lemma filter_element_frame (idx : nat) (st st' : State) :
  filter_element cfg fns st idx = Ok st' ->
  let st1 := (classify cfg fns idx st).1 in
  let new_beams := (classify cfg fns idx st).2 in
  store st' = store st1 /\ finished_beams st' = finished_beams st1
  /\ too_long_beams st' = too_long_beams st1
  /\ (current_beams st' = <[idx := new_beams]> (current_beams st1)
      \/ current_beams st' = <[idx := []]> (current_beams st1)).
Proof.
  unfold filter_element. destruct (classify cfg fns idx st) as [st1 new_beams]. simpl.
  assert (Hclear : <[idx := []]> (<[idx := new_beams]> (current_beams st1))
                   = <[idx := []]> (current_beams st1)).
  { apply list_insert_insert_eq. }
  destruct new_beams as [|r new_beams].
  { intros [= <-]. simpl. auto. }
  destruct (len _ <? beam_width cfg).
  { intros [= <-]. simpl. auto. }
  destruct (String.eqb _ _).
  { intros [= <-]. simpl. rewrite Hclear. auto. }
  destruct (best_current _ _ _ _) as [best|e]; simpl; [|discriminate].
  destruct (Py.ge _ _); intros [= <-]; simpl; rewrite ?Hclear; auto.
Qed.

End Classify.

Lemma elem_of_alter_app (idx : nat) (r : ref) (l : list ref) (xs : list (list ref)) :
  (idx < length xs)%nat ->
  r ∈ alter (fun x => x ++ l) idx xs !!! idx <-> r ∈ xs !!! idx \/ r ∈ l.
Proof.
  intros Hidx. rewrite list_lookup_total_alter_eq by done. apply elem_of_app.
Qed.

(** C10: a beam for which both [stop_fn] and [too_long] hold goes to the
    finished list of its element with stop reason ["done"], and neither to
    the too-long list nor back to the alive list. *)
Theorem stop_before_length {Cache : Type} (cfg : Config) (fns : Callbacks Cache)
    (st st' : State) (idx : nat) (r : ref) :
  NoDup (current_beams st !!! idx) ->
  (idx < length (finished_beams st))%nat ->
  (r < length (store st))%nat ->
  r ∈ current_beams st !!! idx ->
  stop_fn fns (deref (store st) r) = true ->
  too_long cfg (deref (store st) r) = true ->
  filter_element cfg fns st idx = Ok st' ->
  r ∈ finished_beams st' !!! idx
  /\ stop_reason (deref (store st') r) = Some "done"%string
  /\ (r ∉ too_long_beams st !!! idx -> r ∉ too_long_beams st' !!! idx)
  /\ r ∉ current_beams st' !!! idx.
Proof.
  intros Hnd Hidx Hr Hin Hstop Hlong Hfilter.
  destruct (classify_spec cfg fns idx st Hnd) as (h' & Hcl & Hlen & Hmark & _).
  pose proof (filter_element_frame cfg fns idx st st' Hfilter) as Hframe.
  rewrite Hcl in Hframe. simpl in Hframe.
  destruct Hframe as (Hstore & Hfin & Htl & Hcur).
  rewrite Hstore, Hfin, Htl. repeat split.
  - apply elem_of_alter_app; [done|]. right.
    apply list_elem_of_filter. split; [|done]. unfold is_done. done.
  - rewrite Hmark by done. unfold mark. by rewrite Hstop.
  - intros Hnot Hin'.
    destruct (decide (idx < length (too_long_beams st))%nat) as [Hlt|Hge].
    + apply elem_of_alter_app in Hin'; [|done].
      destruct Hin' as [Hin'|Hin']; [done|].
      apply list_elem_of_filter in Hin' as [Hl _]. unfold is_long in Hl.
      by rewrite Hstop in Hl.
    + rewrite list_lookup_total_alter in Hin'. case_decide; [lia|done].
  - intros Hin'. destruct Hcur as [Hcur|Hcur]; rewrite Hcur in Hin'.
    + destruct (decide (idx < length (current_beams st))%nat) as [Hlt|Hge].
      * rewrite list_lookup_total_insert_eq in Hin' by done.
        apply list_elem_of_filter in Hin' as [Hl _]. unfold is_alive in Hl.
        by rewrite Hstop in Hl.
      * rewrite list_insert_ge in Hin' by lia.
        rewrite list_lookup_total_alt, lookup_ge_None_2 in Hin by lia.
        by apply elem_of_nil in Hin.
    + destruct (decide (idx < length (current_beams st))%nat) as [Hlt|Hge].
      * rewrite list_lookup_total_insert_eq in Hin' by done. by apply elem_of_nil in Hin'.
      * rewrite list_insert_ge in Hin' by lia.
        rewrite list_lookup_total_alt, lookup_ge_None_2 in Hin by lia.
        by apply elem_of_nil in Hin.
Qed.

Lemma stop_before_length_witness :
  0%nat ∈ finished_beams st10' !!! 0%nat
  /\ stop_reason (deref (store st10') 0%nat) = Some "done"%string
  /\ (0%nat ∉ too_long_beams st10 !!! 0%nat -> 0%nat ∉ too_long_beams st10' !!! 0%nat)
  /\ 0%nat ∉ current_beams st10' !!! 0%nat.
Proof.
  apply (stop_before_length cfg10 Demo.done_on_1 st10 st10' 0 0).
  - simpl. apply NoDup_singleton.
  - simpl. lia.
  - simpl. lia.
  - simpl. by left.
  - reflexivity.
  - reflexivity.
  - vm_compute. reflexivity.
Defined.

Section Decide.

Context {Cache : Type}.
Variable cfg : Config.
Variable fns : Callbacks Cache.



End Decide.


(** ** Loops *)

Lemma for_each_app {A St} (body : St -> A -> result St) (xs ys : list A) (st : St) :
  for_each body (xs ++ ys) st
  = match for_each body xs st with
    | Ok st' => for_each body ys st'
    | Raise e => Raise e
    end.
Proof.
  revert st. induction xs as [|x xs IH]; intros st; simpl; [done|].
  destruct (body st x); [apply IH|done].
Qed.

(** A loop invariant indexed by the number of items already handled. *)
Lemma for_each_inv {A St} (P : nat -> St -> Prop) (body : St -> A -> result St)
    (xs : list A) (st st' : St) :
  P 0%nat st ->
  (forall i x s s', xs !! i = Some x -> P i s -> body s x = Ok s' -> P (S i) s') ->
  for_each body xs st = Ok st' ->
  P (length xs) st'.
Proof.
  revert P st. induction xs as [|x xs IH]; intros P st H0 Hstep Hrun; simpl in *.
  - by injection Hrun as <-.
  - destruct (body st x) as [s1|e] eqn:Hb; [|discriminate].
    apply (IH (fun i => P (S i)) s1); [|intros i y s s' Hy; apply (Hstep (S i)); done|done].
    by apply (Hstep 0%nat x st s1).
Qed.

Lemma fold_left_inv {A St} (P : nat -> St -> Prop) (body : St -> A -> St)
    (xs : list A) (st : St) :
  P 0%nat st ->
  (forall i x s, xs !! i = Some x -> P i s -> P (S i) (body s x)) ->
  P (length xs) (fold_left body xs st).
Proof.
  revert P st. induction xs as [|x xs IH]; intros P st H0 Hstep; simpl; [done|].
  apply (IH (fun i => P (S i))); [|intros i y s Hy; by apply (Hstep (S i))].
  by apply (Hstep 0%nat).
Qed.

Lemma deref_oob (h : Store) (r : ref) : (length h <= r)%nat -> deref h r = inhabitant.
Proof.
  intros Hr. unfold deref. rewrite list_lookup_total_alt.
  by rewrite lookup_ge_None_2.
Qed.

Lemma keeps_refl (b : Beam) : keeps b b.
Proof. by repeat split. Qed.

Lemma keeps_trans (b1 b2 b3 : Beam) : keeps b1 b2 -> keeps b2 b3 -> keeps b1 b3.
Proof. intros [[? ?] ?] [[? ?] ?]. repeat split; congruence. Qed.

Lemma same_tokens_refl (b : Beam) : same_tokens b b.
Proof. by split. Qed.

Lemma same_tokens_trans (b1 b2 b3 : Beam) :
  same_tokens b1 b2 -> same_tokens b2 b3 -> same_tokens b1 b3.
Proof. intros [? ?] [? ?]. split; congruence. Qed.

Lemma too_long_same_tokens (cfg : Config) (b b' : Beam) :
  same_tokens b b' -> too_long cfg b' = too_long cfg b.
Proof.
  intros [Ht Hi]. unfold too_long, decoded_length, beam_len. by rewrite Ht, Hi.
Qed.

Section Filter.

Context {Cache : Type}.
Variable cfg : Config.
Variable fns : Callbacks Cache.

Lemma keeps_mark (b : Beam) : keeps b (mark cfg fns b).
Proof.
  unfold mark. destruct (stop_fn fns b); [by repeat split|].
  destruct (too_long cfg b); by repeat split.
Qed.

(** What [filter_element] does to an element whose alive list has no
    repetition. *)
Lemma filter_element_spec (st st' : State) (idx : nat) :
  NoDup (current_beams st !!! idx) ->
  filter_element cfg fns st idx = Ok st' ->
  let cur := current_beams st !!! idx in
  length (store st') = length (store st)
  /\ (forall r, keeps (deref (store st) r) (deref (store st') r))
  /\ finished_beams st'
     = alter (fun x => x ++ filter (fun r => is_done fns (store st) r = true) cur) idx
             (finished_beams st)
  /\ too_long_beams st'
     = alter (fun x => x ++ filter (fun r => is_long cfg fns (store st) r = true) cur) idx
             (too_long_beams st)
  /\ exists kept,
      current_beams st' = <[idx := kept]> (current_beams st)
      /\ (kept = filter (fun r => is_alive cfg fns (store st) r = true) cur \/ kept = [])
      /\ (len (finished_beams st' !!! idx) < beam_width cfg ->
          kept = filter (fun r => is_alive cfg fns (store st) r = true) cur)
      /\ (stop_condition cfg = "max_outputs"%string ->
          beam_width cfg <= len (finished_beams st' !!! idx) -> kept = []).
Proof.
  intros Hnd Hrun cur.
  destruct (classify_spec cfg fns idx st Hnd) as (h' & Hcl & Hlen & Hin & Hout).
  fold cur in Hcl, Hin, Hout.
  assert (Hkeeps : forall r, keeps (deref (store st) r) (deref h' r)).
  { intros r. destruct (decide (r ∈ cur)) as [Hr|Hr].
    - destruct (decide (r < length (store st))%nat) as [Hlt|Hge].
      + rewrite Hin by done. apply keeps_mark.
      + rewrite !deref_oob by lia. apply keeps_refl.
    - rewrite Hout by done. apply keeps_refl. }
  unfold filter_element in Hrun. rewrite Hcl in Hrun.
  set (new_beams := filter (fun r => is_alive cfg fns (store st) r = true) cur) in *.
  cbn [current_beams with_current store finished_beams too_long_beams] in Hrun.
  assert (Hclear : forall x, <[idx := []]> (<[idx := x]> (current_beams st))
                             = <[idx := []]> (current_beams st)).
  { intros x. apply list_insert_insert_eq. }
  destruct new_beams as [|r0 rest] eqn:Hnew.
  { injection Hrun as <-.
    cbn [store current_beams finished_beams too_long_beams with_current]. split_and!; [done..|].
    exists []. split_and!; auto. }
  rewrite <- Hnew in *. clear Hnew.
  destruct (len _ <? beam_width cfg) eqn:Hlt.
  { injection Hrun as <-.
    cbn [store current_beams finished_beams too_long_beams with_current]. split_and!; [done..|].
    exists new_beams. split_and!; auto.
    intros _ Hge. apply Z.ltb_lt in Hlt. lia. }
  apply Z.ltb_ge in Hlt.
  destruct (String.eqb (stop_condition cfg) "max_outputs") eqn:Hmo.
  { injection Hrun as <-.
    cbn [store current_beams finished_beams too_long_beams with_current]. split_and!; [done..|].
    exists []. rewrite Hclear. split_and!; auto; intros; exfalso; first
    [ contradiction
    | apply (Z.lt_irrefl (beam_width cfg)); eapply Z.le_lt_trans; eassumption ]. }
  assert (Hnmo : stop_condition cfg <> "max_outputs"%string).
  { intros Heq. rewrite Heq in Hmo. discriminate. }
  destruct (best_current _ _ _ _) as [best|e]; [|discriminate].
  cbn in Hrun.
  match type of Hrun with context [if ?c then _ else _] => destruct c end;
    injection Hrun as <-;
    cbn [store current_beams finished_beams too_long_beams with_current];
    (split_and!; [done..|]).
  - exists []. rewrite Hclear. split_and!; auto; intros; exfalso; first
    [ contradiction
    | apply (Z.lt_irrefl (beam_width cfg)); eapply Z.le_lt_trans; eassumption ].
  - exists new_beams. split_and!; auto; intros; exfalso; first
    [ contradiction
    | apply (Z.lt_irrefl (beam_width cfg)); eapply Z.le_lt_trans; eassumption ].
Qed.

Lemma is_alive_not_long (h : Store) (r : ref) :
  is_alive cfg fns h r = true -> too_long cfg (deref h r) = false.
Proof.
  unfold is_alive. intros H. apply andb_true_iff in H as [_ H].
  by apply negb_true_iff in H.
Qed.

(** The first loop of [filter_beams], element by element. *)
Lemma filter_loop_spec (n : nat) (st st' : State) :
  (forall idx, NoDup (current_beams st !!! idx)) ->
  for_each (filter_element cfg fns) (seq 0 n) st = Ok st' ->
  length (store st') = length (store st)
  /\ (forall r, keeps (deref (store st) r) (deref (store st') r))
  /\ length (current_beams st') = length (current_beams st)
  /\ length (finished_beams st') = length (finished_beams st)
  /\ length (too_long_beams st') = length (too_long_beams st)
  /\ (forall idx, current_beams st' !!! idx `sublist_of` current_beams st !!! idx)
  /\ (forall idx, (n <= idx)%nat -> current_beams st' !!! idx = current_beams st !!! idx)
  /\ (forall idx r, (idx < n)%nat -> r ∈ current_beams st' !!! idx ->
                    too_long cfg (deref (store st') r) = false)
  /\ (forall idx r, r ∈ finished_beams st' !!! idx ->
                    r ∈ finished_beams st !!! idx \/ r ∈ current_beams st !!! idx)
  /\ (forall idx r, r ∈ too_long_beams st' !!! idx ->
                    r ∈ too_long_beams st !!! idx \/ r ∈ current_beams st !!! idx)
  /\ (stop_condition cfg = "max_outputs"%string ->
      forall idx, (idx < n)%nat -> (idx < length (current_beams st))%nat ->
                  beam_width cfg <= len (finished_beams st' !!! idx) ->
                  current_beams st' !!! idx = []).
Proof.
  intros Hnd Hrun.
  pose (P := fun (i : nat) (s : State) =>
    length (store s) = length (store st)
    /\ (forall r, keeps (deref (store st) r) (deref (store s) r))
    /\ length (current_beams s) = length (current_beams st)
    /\ length (finished_beams s) = length (finished_beams st)
    /\ length (too_long_beams s) = length (too_long_beams st)
    /\ (forall idx, current_beams s !!! idx `sublist_of` current_beams st !!! idx)
    /\ (forall idx, (i <= idx)%nat -> current_beams s !!! idx = current_beams st !!! idx)
    /\ (forall idx r, (idx < i)%nat -> r ∈ current_beams s !!! idx ->
                      too_long cfg (deref (store s) r) = false)
    /\ (forall idx r, r ∈ finished_beams s !!! idx ->
                      r ∈ finished_beams st !!! idx \/ r ∈ current_beams st !!! idx)
    /\ (forall idx r, r ∈ too_long_beams s !!! idx ->
                      r ∈ too_long_beams st !!! idx \/ r ∈ current_beams st !!! idx)
    /\ (stop_condition cfg = "max_outputs"%string ->
        forall idx, (idx < i)%nat -> (idx < length (current_beams st))%nat ->
                    beam_width cfg <= len (finished_beams s !!! idx) ->
                    current_beams s !!! idx = [])).
  assert (HP : P (length (seq 0 n)) st').
  { apply (for_each_inv P (filter_element cfg fns) (seq 0 n) st); [| |done].
    - unfold P. split_and!; try done; try (intros; lia); auto.
    - intros i x s s' Hx (I1 & I2 & I3 & I4 & I5 & I6 & I7 & I8 & I9 & I10 & I11) Hstep.
      apply lookup_seq in Hx as [-> Hi]. simpl in *.
      assert (Hcur : current_beams s !!! i = current_beams st !!! i) by (apply I7; lia).
      assert (Hnd' : NoDup (current_beams s !!! i)) by (rewrite Hcur; apply Hnd).
      destruct (filter_element_spec s s' i Hnd' Hstep)
        as (S1 & S2 & S3 & S4 & kept & S5 & S6 & S7 & S8).
      rewrite Hcur in S3, S4, S6, S7.
      assert (Hsub : kept `sublist_of` current_beams st !!! i).
      { destruct S6 as [->| ->]; [apply sublist_filter|apply sublist_nil_l]. }
      unfold P. split_and!.
      + lia.
      + intros r. eapply keeps_trans; [apply I2|apply S2].
      + rewrite S5, length_insert. done.
      + rewrite S3, length_alter. done.
      + rewrite S4, length_alter. done.
      + intros idx. rewrite S5, list_lookup_total_insert. case_decide as Hc; [|apply I6].
        destruct Hc as [<- _]. done.
      + intros idx Hle. rewrite S5, list_lookup_total_insert_ne by lia. apply I7. lia.
      + intros idx r Hlt. rewrite S5, list_lookup_total_insert.
        case_decide as Hc.
        * destruct Hc as [<- Hlen]. intros Hr.
          rewrite (too_long_same_tokens cfg (deref (store s) r)) by apply S2.
          destruct S6 as [->| ->]; [|by apply elem_of_nil in Hr].
          apply list_elem_of_filter in Hr as [Hr _]. by apply is_alive_not_long.
        * intros Hr. rewrite (too_long_same_tokens cfg (deref (store s) r)) by apply S2.
          destruct (decide (idx = i)) as [->|Hne].
          -- assert (Hnil : current_beams s !!! i = []).
             { rewrite list_lookup_total_alt, lookup_ge_None_2; [done|]. lia. }
             rewrite Hnil in Hr. by apply elem_of_nil in Hr.
          -- apply (I8 idx); [lia|done].
      + intros idx r. rewrite S3, list_lookup_total_alter. case_decide as Hc.
        * destruct Hc as [<- Hlen]. intros Hr. apply elem_of_app in Hr as [Hr|Hr].
          -- by apply I9.
          -- right. apply list_elem_of_filter in Hr as [_ Hr]. done.
        * apply I9.
      + intros idx r. rewrite S4, list_lookup_total_alter. case_decide as Hc.
        * destruct Hc as [<- Hlen]. intros Hr. apply elem_of_app in Hr as [Hr|Hr].
          -- by apply I10.
          -- right. apply list_elem_of_filter in Hr as [_ Hr]. done.
        * apply I10.
      + intros Hmo idx Hlt Hlen Hbw.
        destruct (decide (idx = i)) as [->|Hne].
        * rewrite S5, list_lookup_total_insert_eq by lia. by apply S8.
        * rewrite S5, list_lookup_total_insert_ne by done.
          rewrite S3, list_lookup_total_alter_ne in Hbw by done.
          apply I11; [done|lia|done|done]. }
  rewrite length_seq in HP. exact HP.
Qed.

End Filter.

(** ** Flattening *)

Lemma flatten_0 (st : State) : flatten 0 st = ([], []).
Proof. done. Qed.

Lemma flatten_S (n : nat) (st : State) :
  flatten (S n) st
  = ((flatten n st).1 ++ current_beams st !!! n,
     (flatten n st).2 ++ replicate (length (current_beams st !!! n)) n).
Proof. unfold flatten. by rewrite seq_S, fold_left_app. Qed.

Lemma flatten_ext (n : nat) (st st' : State) :
  current_beams st = current_beams st' -> flatten n st = flatten n st'.
Proof.
  intros Heq. induction n as [|n IH]; [done|]. by rewrite !flatten_S, IH, Heq.
Qed.

(** Position by position, a flattened beam belongs to the element the
    index list names. *)
Lemma flatten_Forall2 (n : nat) (st : State) :
  Forall2 (fun r idx => (idx < n)%nat /\ r ∈ current_beams st !!! idx)
          (flatten n st).1 (flatten n st).2.
Proof.
  induction n as [|n IH]; [constructor|].
  rewrite flatten_S. simpl. apply Forall2_app.
  - eapply Forall2_impl; [exact IH|]. intros r idx [? ?]. split; [lia|done].
  - apply Forall2_replicate_r; [done|].
    apply Forall_forall. intros r Hr. split; [lia|done].
Qed.

Lemma flatten_elem_of (n : nat) (st : State) (r : ref) :
  r ∈ (flatten n st).1 <-> exists idx, (idx < n)%nat /\ r ∈ current_beams st !!! idx.
Proof.
  induction n as [|n IH].
  - simpl. split; [intros H; by apply elem_of_nil in H|intros (idx & ? & _); lia].
  - rewrite flatten_S. simpl. rewrite elem_of_app, IH. split.
    + intros [(idx & ? & ?)|?]; [exists idx; split; [lia|done]|exists n; split; [lia|done]].
    + intros (idx & Hlt & Hr). destruct (decide (idx = n)) as [->|Hne]; [by right|].
      left. exists idx. split; [lia|done].
Qed.

Lemma flatten_concat (n : nat) (st : State) :
  length (current_beams st) = n -> (flatten n st).1 = concat (current_beams st).
Proof.
  assert (H : forall k, (k <= length (current_beams st))%nat ->
                        (flatten k st).1 = concat (take k (current_beams st))).
  { induction k as [|k IH]; intros Hk; [done|].
    rewrite flatten_S. simpl. rewrite IH by lia.
    destruct (lookup_lt_is_Some_2 (current_beams st) k) as [x Hx]; [lia|].
    rewrite (take_S_r _ _ x) by done. rewrite concat_app. simpl. rewrite app_nil_r.
    by rewrite (list_lookup_total_correct _ _ _ Hx). }
  intros <-. rewrite H by done. by rewrite take_ge.
Qed.

Lemma flatten_indices (n : nat) (st : State) (idx : nat) :
  idx ∈ (flatten n st).2 -> (idx < n)%nat /\ current_beams st !!! idx <> [].
Proof.
  intros Hin. apply list_elem_of_lookup in Hin as [i Hi].
  destruct (Forall2_lookup_r _ _ _ _ _ (flatten_Forall2 n st) Hi) as (r & _ & Hlt & Hr).
  split; [done|]. intros Hnil. rewrite Hnil in Hr. by apply elem_of_nil in Hr.
Qed.

(** Rows without repetition that share no element stay so when every row
    is replaced by a part of it. *)
Lemma NoDup_concat_sub (xs ys : list (list ref)) :
  Forall2 (fun x y => NoDup x /\ x ⊆ y) xs ys -> NoDup (concat ys) -> NoDup (concat xs).
Proof.
  induction 1 as [|x y xs ys [Hx Hsub] HF IH]; [done|]. simpl.
  rewrite !NoDup_app. intros (_ & Hdisj & Hys). split; [done|]. split; [|by apply IH].
  intros r Hr Hin. apply (Hdisj r); [by apply Hsub|].
  apply list_elem_of_In, in_concat in Hin as (l & Hl & Hrl).
  apply list_elem_of_In, in_concat. 
  apply list_elem_of_In in Hl.
  apply list_elem_of_lookup in Hl as [i Hi].
  destruct (Forall2_lookup_l _ _ _ _ _ HF Hi) as (l' & Hl' & _ & Hsub').
  exists l'. split; [apply list_elem_of_In; eapply list_elem_of_lookup_2; exact Hl'|].
  apply list_elem_of_In, Hsub', list_elem_of_In. done.
Qed.

Lemma filter_beams_inv {Cache : Type} (cfg : Config) (fns : Callbacks Cache) (n : nat)
    (st st' : State) (beams : list ref) (indices : list nat) :
  filter_beams cfg fns n st = Ok (st', (beams, indices)) ->
  for_each (filter_element cfg fns) (seq 0 n) st = Ok st'
  /\ beams = (flatten n st').1 /\ indices = (flatten n st').2.
Proof.
  unfold filter_beams. destruct (for_each _ _ _) as [s|e]; simpl; [|discriminate].
  intros [= -> Hfl]. rewrite Hfl. done.
Qed.

(** C1: an element that keeps alive beams after classification and has
    fewer than [beam_width] finished ones keeps all of them, whatever the
    stop condition; and under ["max_outputs"] an element whose finished list
    holds [beam_width] beams when [filter_beams] returns has no alive beam
    left and no entry in the flattened list that is decoded next. *)
Theorem enough_finished_first {Cache : Type} (cfg : Config) (fns : Callbacks Cache)
    (n : nat) (st : State) (idx : nat) :
  (idx < n)%nat ->
  length (current_beams st) = n ->
  (forall i, NoDup (current_beams st !!! i)) ->
  (forall st1 new_beams,
      classify cfg fns idx st = (st1, new_beams) ->
      new_beams <> [] ->
      len (finished_beams st1 !!! idx) < beam_width cfg ->
      exists st', filter_element cfg fns st idx = Ok st'
                  /\ current_beams st' !!! idx = new_beams)
  /\ (forall st' beams indices,
        stop_condition cfg = "max_outputs"%string ->
        filter_beams cfg fns n st = Ok (st', (beams, indices)) ->
        beam_width cfg <= len (finished_beams st' !!! idx) ->
        current_beams st' !!! idx = [] /\ idx ∉ indices).
Proof.
  intros Hidx Hlen Hnd. split.
  - intros st1 new_beams Hcl Hne Hlt. unfold filter_element. rewrite Hcl.
    destruct new_beams as [|r rest]; [done|].
    apply Z.ltb_lt in Hlt.
    cbn [finished_beams with_current]. rewrite Hlt.
    eexists. split; [done|]. cbn [current_beams with_current].
    apply list_lookup_total_insert_eq.
    assert (Hcur : current_beams st1 = current_beams st).
    { destruct (classify_spec cfg fns idx st (Hnd idx)) as (h' & Heq & _).
      rewrite Heq in Hcl. by injection Hcl as <- _. }
    rewrite Hcur. lia.
  - intros st' beams indices Hmo Hrun Hbw.
    apply filter_beams_inv in Hrun as (Hloop & -> & ->).
    destruct (filter_loop_spec cfg fns n st st' Hnd Hloop)
      as (_ & _ & _ & _ & _ & _ & _ & _ & _ & _ & Hclear).
    assert (Hnil : current_beams st' !!! idx = []) by (apply Hclear; (done || lia)).
    split; [done|]. intros Hin. by apply flatten_indices in Hin as [_ Hin].
Qed.

Lemma enough_finished_first_witness :
  (exists st', filter_element (cfg_outputs 2) Demo.done_on_1 two_beams 0 = Ok st'
               /\ current_beams st' !!! 0%nat = [1%nat])
  /\ (current_beams (with_current two_beams_classified [[]]) !!! 0%nat = []
      /\ 0%nat ∉ ([] : list nat)).
Proof.
  assert (Hnd : forall i, NoDup (current_beams two_beams !!! i)).
  { intros [|i]; simpl; [|rewrite list_lookup_total_alt; destruct i; apply NoDup_nil_2].
    apply NoDup_cons. split; [|apply NoDup_singleton].
    intros H. apply list_elem_of_singleton in H. discriminate. }
  split.
  - apply (proj1 (enough_finished_first (cfg_outputs 2) Demo.done_on_1 1 two_beams 0
                    ltac:(lia) eq_refl Hnd) two_beams_classified [1%nat]).
    + vm_compute. reflexivity.
    + discriminate.
    + vm_compute. reflexivity.
  - apply (proj2 (enough_finished_first (cfg_outputs 1) Demo.done_on_1 1 two_beams 0
                    ltac:(lia) eq_refl Hnd)
                 (with_current two_beams_classified [[]]) [] []).
    + reflexivity.
    + vm_compute. reflexivity.
    + vm_compute. discriminate.
Defined.


(** ** Output assembly writes to the finished list (C2) *)

(** C2 fails on the code. The only beam of the run, object 1, is too long
    after the first round. [get_outputs] runs for the [yield] of that round
    and again for the [return]; each time its [finished.extend] appends the
    too-long beam to the engine's own finished list, which ends up holding
    the beam twice while the beam is in the too-long list as well, and the
    value returned lists the same beam twice. *)
Theorem backfill_duplicates :
  beam_search cfg_backfill Demo.never_done 5 [] [TokenIds [7]]
  = ([Decode [[7]] [[0]] [[true]] None; Update 1%nat; Yield [[1%nat]]],
     Returned
       (mkState [mkBeam [7] [] 1 (Some 0%nat) None;
                 mkBeam [7; 0] [(-1)%float] 1 (Some 0%nat) (Some "length"%string)]
                [[]] [[1%nat; 1%nat]] [[1%nat]])
       [[1%nat; 1%nat]]).
Proof. vm_compute. reflexivity. Qed.

(** ** The calls of a round *)

Lemma last_token_id_nonempty (b : Beam) :
  token_ids b <> [] -> exists t, last_token_id b = Some t.
Proof.
  intros Hne. unfold last_token_id, Py.index.
  destruct (token_ids b) as [|t0 l] eqn:Hl; [done|].
  set (n := Z.of_nat (length (t0 :: l))).
  assert (Hn : 1 <= n) by (unfold n; simpl; lia).
  replace ((0 <=? -1) && (-1 <? n)) with false by done.
  replace ((- n <=? -1) && (-1 <? 0)) with true
    by (symmetry; apply andb_true_iff; split; [apply Z.leb_le; lia|done]).
  apply lookup_lt_is_Some_2. unfold n. simpl. lia.
Qed.

Lemma last_tokens_ok (h : Store) (beams : list ref) :
  Forall (nonempty h) beams ->
  forall acc, exists lasts,
    for_each (fun acc r => t ← of_option IndexError (last_token_id (deref h r));
                           Ok (acc ++ [[t]])) beams acc = Ok lasts.
Proof.
  induction 1 as [|r l Hr _ IH]; intros acc; simpl; [eauto|].
  destruct (last_token_id_nonempty _ Hr) as [t ->]. simpl. apply IH.
Qed.

Lemma incremental_inputs_ok (h : Store) (beams : list ref) :
  beams <> [] -> Forall (nonempty h) beams ->
  exists inputs, incremental_inputs h beams = Ok inputs.
Proof.
  intros Hne Hall. unfold incremental_inputs.
  destruct (last_tokens_ok h beams Hall []) as [lasts ->]. simpl.
  destruct beams as [|r l]; [done|]. simpl. eauto.
Qed.

Section Calls.

Context {Cache : Type}.
Variable cfg : Config.
Variable fns : Callbacks Cache.
Variable batch_size : nat.

Lemma step_events (lp : Loop Cache) (input_ids position_ids : Tensor Z)
    (pad_mask : Tensor bool) (c : option Cache) :
  exists rest r,
    step cfg fns batch_size lp (input_ids, position_ids, pad_mask, c)
    = (Decode input_ids position_ids pad_mask c :: rest, r)
    /\ Forall after_decode rest.
Proof.
  unfold step. destruct (decode_fn fns _ _ _ _) as [logits c'].
  destruct (expand _ _ _ _ _ _ _) as [[h bc]|e]; [|by eauto].
  destruct (prune _ _ _ _) as [st1 calls].
  assert (Hup : Forall (@after_decode Cache) (map Update calls)).
  { apply Forall_forall. intros e He. apply list_elem_of_fmap in He as (x & -> & _). done. }
  destruct (filter_beams _ _ _ _) as [[st2 [beams' indices']]|e]; [|by eauto].
  destruct (yield_intermediate cfg); [|by eauto].
  destruct (get_outputs _ _ _ _) as [st3 outputs].
  eexists _, _. split; [done|]. apply Forall_app. split; [done|]. by repeat constructor.
Qed.

(** A cache handle and a slot on every alive beam: [cache_fn] first, with
    the slots and the lengths before the step, then [decode_fn] on what
    [cache_fn] gave back. *)
Lemma round_incremental (lp : Loop Cache) (c : Cache)
    (f : Cache -> list nat -> list Z -> Cache) :
  cache_handle lp = Some c ->
  cache_fn fns = Some f ->
  beams lp <> [] ->
  Forall (nonempty (store (engine lp))) (beams lp) ->
  Forall (fun r => is_Some (cache (deref (store (engine lp)) r))) (beams lp) ->
  exists mask input_ids position_ids pad_mask rest r,
    Forall2 (fun b slot => cache (deref (store (engine lp)) b) = Some slot) (beams lp) mask
    /\ let lengths := map (fun b => beam_len (deref (store (engine lp)) b) - 1) (beams lp) in
       round cfg fns batch_size lp
       = (CacheFn c mask lengths
            :: Decode input_ids position_ids pad_mask (Some (f c mask lengths)) :: rest, r)
       /\ Forall after_decode rest.
Proof.
  intros Hc Hf Hne Hnon Hslots.
  assert (Hmask : exists mask, cache_mask (store (engine lp)) (beams lp) = Some mask).
  { unfold cache_mask. apply mapM_is_Some. done. }
  destruct Hmask as [mask Hmask]. exists mask.
  destruct (incremental_inputs_ok _ _ Hne Hnon) as [[[input_ids position_ids] pad_mask] Hin].
  destruct (step_events lp input_ids position_ids pad_mask
              (Some (f c mask (cache_lengths (store (engine lp)) (beams lp)))))
    as (rest & r & Hstep & Hrest).
  exists input_ids, position_ids, pad_mask, rest, r. split.
  { unfold cache_mask in Hmask. by apply mapM_Some in Hmask. }
  unfold round, prepare. rewrite Hc, Hmask, Hf, Hin. unfold mbind, result_bind.
  rewrite Hstep. done.
Qed.

(** A cache handle but an alive beam without slot: the cache is dropped
    and [decode_fn] gets the whole context and no cache. *)
Lemma round_stale (lp : Loop Cache) (c : Cache) :
  cache_handle lp = Some c ->
  Exists (fun r => cache (deref (store (engine lp)) r) = None) (beams lp) ->
  exists rest r,
    let inputs := full_inputs cfg (store (engine lp)) (beams lp) in
    round cfg fns batch_size lp
    = (EmptyCache :: Decode inputs.1.1 inputs.1.2 inputs.2 None :: rest, r)
    /\ Forall after_decode rest.
Proof.
  intros Hc Hex.
  assert (Hmask : cache_mask (store (engine lp)) (beams lp) = None).
  { unfold cache_mask. apply eq_None_not_Some. intros Hsome.
    apply mapM_is_Some in Hsome. apply Exists_exists in Hex as (r & Hr & Hnone).
    rewrite Forall_forall in Hsome. specialize (Hsome r Hr). simpl in Hsome. rewrite Hnone in Hsome.
    by destruct Hsome. }
  destruct (full_inputs cfg (store (engine lp)) (beams lp))
    as [[input_ids position_ids] pad_mask] eqn:Hfull.
  destruct (step_events lp input_ids position_ids pad_mask None)
    as (rest & r & Hstep & Hrest).
  exists rest, r. cbn [fst snd]. unfold round, prepare. rewrite Hc, Hmask, Hfull, Hstep. done.
Qed.

End Calls.

(** ** Expansion *)

Lemma elem_of_concat_lookup (x : ref) (bc : list (list ref)) :
  x ∈ concat bc <-> exists idx, x ∈ bc !!! idx.
Proof.
  rewrite list_elem_of_In, in_concat. split.
  - intros (l & Hl & Hx). apply list_elem_of_In, list_elem_of_lookup in Hl as [idx Hidx].
    exists idx. rewrite (list_lookup_total_correct _ _ _ Hidx). by apply list_elem_of_In.
  - intros (idx & Hx). destruct (bc !! idx) as [l|] eqn:Hl.
    + exists l. rewrite (list_lookup_total_correct _ _ _ Hl) in Hx. split.
      * apply list_elem_of_In. by eapply list_elem_of_lookup_2.
      * by apply list_elem_of_In.
    + rewrite list_lookup_total_alt, Hl in Hx. by apply elem_of_nil in Hx.
Qed.

Lemma append_at_lookup (idx idx' : nat) (c : ref) (bc : list (list ref)) :
  append_at idx c bc !!! idx'
  = if decide (idx = idx' /\ (idx < length bc)%nat) then bc !!! idx ++ [c] else bc !!! idx'.
Proof. unfold append_at. by rewrite list_lookup_total_alter. Qed.

Lemma elem_of_append_at (x c : ref) (idx idx' : nat) (bc : list (list ref)) :
  x ∈ append_at idx c bc !!! idx' -> x ∈ bc !!! idx' \/ (x = c /\ idx' = idx).
Proof.
  rewrite append_at_lookup. case_decide as Hd; [|by left].
  destruct Hd as [<- _]. intros Hx. apply elem_of_app in Hx as [Hx|Hx]; [by left|].
  apply list_elem_of_singleton in Hx. by right.
Qed.

Lemma elem_of_append_at_old (x c : ref) (idx idx' : nat) (bc : list (list ref)) :
  x ∈ bc !!! idx' -> x ∈ append_at idx c bc !!! idx'.
Proof.
  rewrite append_at_lookup. case_decide as Hd; [|done].
  destruct Hd as [<- _]. intros Hx. apply elem_of_app. by left.
Qed.

Lemma elem_of_append_at_new (c : ref) (idx : nat) (bc : list (list ref)) :
  (idx < length bc)%nat -> c ∈ append_at idx c bc !!! idx.
Proof.
  intros Hlt. rewrite append_at_lookup, decide_True by done.
  apply elem_of_app. right. by apply list_elem_of_singleton.
Qed.

Lemma concat_append_at (c : ref) (idx : nat) (bc : list (list ref)) :
  (idx < length bc)%nat -> concat (append_at idx c bc) ≡ₚ c :: concat bc.
Proof.
  unfold append_at. revert idx.
  induction bc as [|l bc IH]; intros idx Hlt; simpl in Hlt; [lia|].
  destruct idx as [|idx].
  - change (concat ((l ++ [c]) :: bc) ≡ₚ c :: concat (l :: bc)). simpl.
    rewrite <- app_assoc. simpl. symmetry. apply Permutation_middle.
  - change (concat (l :: alter (fun l => l ++ [c]) idx bc) ≡ₚ c :: concat (l :: bc)).
    simpl. rewrite IH by lia. symmetry. apply Permutation_middle.
Qed.

Lemma length_append_at (c : ref) (idx : nat) (bc : list (list ref)) :
  length (append_at idx c bc) = length bc.
Proof. apply length_alter. Qed.

Lemma masked_length {A} (row : list A) (mask : list bool) (r : list A) :
  Py.masked row mask = Some r -> (length r <= length row)%nat.
Proof.
  revert mask r. induction row as [|x row IH]; intros [|m mask] r; simpl; try discriminate.
  - intros [= <-]. done.
  - destruct (Py.masked row mask) as [r'|] eqn:Hm; [|discriminate].
    intros [= <-]. specialize (IH _ _ Hm). destruct m; simpl; lia.
Qed.

Lemma concat_replicate_nil {A} (n : nat) : concat (replicate n ([] : list A)) = [].
Proof. induction n as [|n IH]; [done|]. simpl. done. Qed.

Section ExpandLoop.

Variable sel : Tensor Z.
Variable valid : Tensor bool.
Variable lps : Tensor float.
Variable beams : list ref.
Variable indices : list nat.
Variable h0 : Store.
Variable single : bool.
Variable batch_size : nat.

Hypothesis beams_valid : forall r, r ∈ beams -> (r < length h0)%nat.
Hypothesis beams_NoDup : NoDup beams.
Hypothesis indices_bound : Forall (fun idx => (idx < batch_size)%nat) indices.
Hypothesis single_one :
  single = true ->
  forall i ids mask tokens,
    sel !! i = Some ids -> valid !! i = Some mask -> Py.masked ids mask = Some tokens ->
    (length tokens <= 1)%nat.

Local Abbreviation R := (expanded sel valid lps beams indices h0 single batch_size).
Local Abbreviation child := (child sel valid lps beams indices h0 single).

Lemma child_mono (k k' : nat) (h h' : Store) (idx : nat) (c : ref) :
  (k <= k')%nat -> deref h' c = deref h c -> child k h idx c -> child k' h' idx c.
Proof.
  intros Hk Heq (i & r & t & p & Hi & Hr & Hidx & Hc & Hrest).
  exists i, r, t, p. split; [lia|]. rewrite Heq. done.
Qed.

(** [beam.cache = i] on the next beam of the flattened list. *)
Lemma beam_start (k : nat) (h : Store) (bc : list (list ref)) (r : ref) :
  R k (h, bc) -> beams !! k = Some r ->
  let h1 := assign h r (set_cache (deref h r) k) in
  R (S k) (h1, bc) /\ deref h1 r = set_cache (deref h0 r) k /\ r ∉ concat bc.
Proof.
  intros (Ha & Hb & Hc & Hd & He & Hf) Hr h1. simpl in *.
  destruct (Hf k r (le_n _) Hr) as [Hcell Hnot].
  assert (Hlt : (r < length h0)%nat) by (apply beams_valid; by eapply list_elem_of_lookup_2).
  assert (Hh1 : deref h1 r = set_cache (deref h0 r) k).
  { unfold h1. rewrite deref_assign_eq by lia. by rewrite Hcell. }
  split; [|done]. unfold expanded. simpl. split_and!.
  - unfold h1. rewrite length_assign. done.
  - done.
  - intros idx c Hin. destruct (Hc idx c Hin) as [Hc1 Hc2].
    split; [unfold h1; by rewrite length_assign|].
    apply (child_mono k (S k) h); [lia| |done].
    apply deref_assign_ne. intros ->. apply Hnot, elem_of_concat_lookup. eauto.
  - intros x Hx. unfold h1 in Hx. rewrite length_assign in Hx.
    destruct (decide (x = r)) as [->|Hne].
    + right. split; [done|]. rewrite Hh1. by split.
    + unfold h1. rewrite deref_assign_ne by done. by apply Hd.
  - done.
  - intros j r' Hj Hr'. unfold h1. rewrite deref_assign_ne; [apply (Hf j); [lia|done]|].
    intros Heq. subst r'. pose proof (NoDup_lookup beams k j r beams_NoDup Hr Hr'). lia.
Qed.

(** One sampled token of the beam at position [k]. *)
Lemma token_step (k idx : nat) (r : ref) (t : Z) (s s' : list Beam * list (list ref)) :
  beams !! k = Some r -> indices !! k = Some idx -> proposed sel valid k t ->
  R (S k) s -> deref s.1 r = set_cache (deref h0 r) k -> r ∉ concat s.2 ->
  expand_token single lps k idx r s t = Ok s' ->
  R (S k) s'
  /\ (single = false -> deref s'.1 r = set_cache (deref h0 r) k /\ r ∉ concat s'.2).
Proof.
  intros Hr Hidx Hprop (Ha & Hb & Hc & Hd & He & Hf) Hcell Hnot Hstep.
  destruct s as [h bc]. simpl in *.
  assert (Hlt : (r < length h0)%nat) by (apply beams_valid; by eapply list_elem_of_lookup_2).
  assert (Hib : (idx < length bc)%nat).
  { rewrite Hb. rewrite Forall_lookup in indices_bound. by eapply indices_bound. }
  unfold expand_token in Hstep.
  destruct (lps !! k) as [row|] eqn:Hrow;
    [|destruct single; simpl in Hstep; discriminate].
  assert (Hcases : single = true \/ single = false) by (destruct single; auto).
  destruct Hcases as [Hsingle|Hsingle]; rewrite Hsingle in Hstep.
  - (* the beam itself is the candidate *)
    simpl in Hstep. destruct (Py.index row t) as [p|] eqn:Hp; [|discriminate].
    simpl in Hstep. injection Hstep as <-. split; [|congruence].
    set (h1 := assign h r (add (deref h r) t p)).
    assert (Hh1 : deref h1 r = add (set_cache (deref h0 r) k) t p).
    { unfold h1. rewrite deref_assign_eq by lia. by rewrite Hcell. }
    unfold expanded. simpl. split_and!.
    + unfold h1. by rewrite length_assign.
    + by rewrite length_append_at.
    + intros idx' c Hin. unfold h1 at 1. rewrite length_assign.
      apply elem_of_append_at in Hin as [Hin|[-> ->]].
      * destruct (Hc idx' c Hin) as [Hc1 Hc2]. split; [done|].
        apply (child_mono (S k) (S k) h); [lia| |done].
        apply deref_assign_ne. intros ->. apply Hnot, elem_of_concat_lookup. eauto.
      * split; [lia|]. exists k, r, t, p. rewrite Hsingle.
        split_and!; first [done | lia | by exists row].
    + intros x Hx. unfold h1 in Hx. rewrite length_assign in Hx.
      destruct (decide (x = r)) as [->|Hne].
      * left. exists idx. by apply elem_of_append_at_new.
      * unfold h1. rewrite deref_assign_ne by done.
        destruct (Hd x Hx) as [[idx' Hin]|Hold]; [left|by right].
        exists idx'. by apply elem_of_append_at_old.
    + rewrite concat_append_at by done. apply NoDup_cons. done.
    + intros j r' Hj Hr'. destruct (Hf j r' Hj Hr') as [Hf1 Hf2].
      assert (Hne : r <> r').
      { intros Heq. subst r'.
        pose proof (NoDup_lookup beams k j r beams_NoDup Hr Hr'). lia. }
      unfold h1. rewrite deref_assign_ne by done. split; [done|].
      rewrite concat_append_at by done. intros Hin.
      apply elem_of_cons in Hin as [Heq|Hin]; [by subst|done].
  - (* a clone is the candidate *)
    simpl in Hstep. destruct (Py.index row t) as [p|] eqn:Hp; [|discriminate].
    simpl in Hstep. injection Hstep as <-.
    set (c := length h).
    set (h1 := assign (h ++ [deref h r]) c (add (deref (h ++ [deref h r]) c) t p)).
    assert (Hnew : deref (h ++ [deref h r]) c = deref h r).
    { apply (deref_alloc_new h (deref h r)). }
    assert (Hh1 : deref h1 c = add (set_cache (deref h0 r) k) t p).
    { unfold h1. rewrite deref_assign_eq by (rewrite length_app; simpl; lia).
      by rewrite Hnew, Hcell. }
    assert (Hold : forall x, (x < length h)%nat -> deref h1 x = deref h x).
    { intros x Hx. unfold h1. rewrite deref_assign_ne by (unfold c; lia).
      by apply deref_app_l. }
    assert (Hlen : length h1 = S (length h)).
    { unfold h1. rewrite length_assign, length_app. simpl. lia. }
    assert (Hfresh : c ∉ concat bc).
    { intros Hin. apply elem_of_concat_lookup in Hin as [idx' Hin].
      destruct (Hc idx' c Hin) as [Hc1 _]. unfold c in Hc1. lia. }
    split.
    + unfold expanded. simpl. fold c h1. split_and!.
      * lia.
      * by rewrite length_append_at.
      * intros idx' x Hin. rewrite Hlen.
        apply elem_of_append_at in Hin as [Hin|[-> ->]].
        -- destruct (Hc idx' x Hin) as [Hc1 Hc2]. split; [lia|].
           apply (child_mono (S k) (S k) h); [lia|by apply Hold|done].
        -- split; [unfold c; lia|]. exists k, r, t, p. rewrite Hsingle.
           split_and!; first [done | lia | by exists row | unfold c; lia].
      * intros x Hx. rewrite Hlen in Hx.
        destruct (decide (x = c)) as [->|Hne].
        -- left. exists idx. by apply elem_of_append_at_new.
        -- assert (Hx' : (x < length h)%nat) by (unfold c in Hne; lia).
           rewrite Hold by done.
           destruct (Hd x Hx') as [[idx' Hin]|Hsame]; [left|by right].
           exists idx'. by apply elem_of_append_at_old.
      * rewrite concat_append_at by done. apply NoDup_cons. done.
      * intros j r' Hj Hr'. destruct (Hf j r' Hj Hr') as [Hf1 Hf2].
        assert (Hr'lt : (r' < length h0)%nat)
          by (apply beams_valid; by eapply list_elem_of_lookup_2).
        rewrite Hold by lia. split; [done|].
        rewrite concat_append_at by done. intros Hin.
        apply elem_of_cons in Hin as [Heq|Hin]; [unfold c in Heq; lia|done].
    + intros _. simpl. fold c h1. rewrite Hold by lia. split; [done|].
      rewrite concat_append_at by done. intros Hin.
      apply elem_of_cons in Hin as [Heq|Hin]; [unfold c in Heq; lia|done].
Qed.

(** The body of the loop over the flattened list. *)
Lemma expand_beam_spec (k idx : nat) (s s' : list Beam * list (list ref)) :
  indices !! k = Some idx -> R k s ->
  expand_beam single sel valid lps beams s (k, idx) = Ok s' ->
  R (S k) s'.
Proof.
  intros Hidx HR Hrun. destruct s as [h bc]. unfold expand_beam in Hrun.
  destruct (beams !! k) as [r|] eqn:Hr; [|discriminate]. simpl in Hrun.
  destruct (sel !! k) as [ids|] eqn:Hids; [|discriminate]. simpl in Hrun.
  destruct (valid !! k) as [mask|] eqn:Hmask; [|discriminate]. simpl in Hrun.
  destruct (Py.masked ids mask) as [tokens|] eqn:Htokens; [|discriminate]. simpl in Hrun.
  destruct (beam_start k h bc r HR Hr) as (HR1 & Hcell & Hnot).
  set (h1 := assign h r (set_cache (deref h r) k)) in *.
  assert (Hprop : forall t, t ∈ tokens -> proposed sel valid k t).
  { intros t Ht. exists ids, mask, tokens. done. }
  assert (Hcases : single = true \/ single = false) by (destruct single; auto).
  destruct Hcases as [Hsingle|Hsingle].
  - pose proof (single_one Hsingle k ids mask tokens Hids Hmask Htokens) as Hone.
    destruct tokens as [|t [|t' tokens]]; simpl in Hone; [| |lia].
    + simpl in Hrun. by injection Hrun as <-.
    + cbn [for_each] in Hrun.
      destruct (expand_token single lps k idx r (h1, bc) t) as [s1|e] eqn:Hstep;
        [|discriminate].
      injection Hrun as <-.
      apply (token_step k idx r t (h1, bc) s1); try done. apply Hprop. by left.
  - pose (Q := fun (m : nat) (s : list Beam * list (list ref)) =>
                 R (S k) s /\ deref s.1 r = set_cache (deref h0 r) k /\ r ∉ concat s.2).
    assert (HQ : Q (length tokens) s').
    { apply (for_each_inv Q (expand_token single lps k idx r) tokens (h1, bc));
        [done| |done].
      intros m t s1 s2 Ht (Q1 & Q2 & Q3) Hstep.
      destruct (token_step k idx r t s1 s2) as [T1 T2]; try done.
      { apply Hprop. by eapply list_elem_of_lookup_2. }
      split; [done|]. by apply T2. }
    apply HQ.
Qed.

Lemma expanded_init : R 0%nat (h0, replicate batch_size []).
Proof.
  unfold expanded. simpl.
  assert (Hnil : concat (replicate batch_size ([] : list ref)) = [])
    by apply concat_replicate_nil.
  split_and!.
  - done.
  - apply length_replicate.
  - intros idx c Hin. exfalso.
    assert (Hc : c ∈ concat (replicate batch_size ([] : list ref)))
      by (apply elem_of_concat_lookup; eauto).
    rewrite Hnil in Hc. by apply elem_of_nil in Hc.
  - intros x Hx. right. split; [done|]. by split.
  - rewrite Hnil. apply NoDup_nil_2.
  - intros j r _ _. split; [done|]. rewrite Hnil. apply not_elem_of_nil.
Qed.

(** The loop [for i, batch_idx in enumerate(indices)]. *)
Lemma expand_loop_spec (s' : list Beam * list (list ref)) :
  for_each (expand_beam single sel valid lps beams) (enumerate indices)
           (h0, replicate batch_size []) = Ok s' ->
  R (length indices) s'.
Proof.
  intros Hrun.
  replace (length indices) with (length (enumerate indices))
    by (unfold enumerate; apply length_imap).
  apply (for_each_inv R (expand_beam single sel valid lps beams) (enumerate indices)
           (h0, replicate batch_size [])); [apply expanded_init| |done].
  intros i [i' idx] s1 s2 Hi HR Hstep.
  unfold enumerate in Hi. rewrite list_lookup_imap in Hi.
  destruct (indices !! i) as [idx'|] eqn:Hidx; [|discriminate].
  simpl in Hi. injection Hi as <- <-.
  by apply (expand_beam_spec i idx' s1 s2).
Qed.

End ExpandLoop.

Lemma expand_spec {Cache : Type} (cfg : Config) (fns : Callbacks Cache) (n : nat)
    (h : Store) (beams : list ref) (indices : list nat) (logits : Tensor float)
    (s' : list Beam * list (list ref)) :
  (forall r, r ∈ beams -> (r < length h)%nat) ->
  NoDup beams ->
  Forall (fun idx => (idx < n)%nat) indices ->
  sampler_bounded fns ->
  expand cfg fns n h beams indices logits = Ok s' ->
  let sampled := sample_fn fns (apply_logit_fns fns logits (map (deref h) beams))
                           (beam_width cfg) in
  expanded sampled.1 (map (map (fun x => negb (Py.is_neginf x))) sampled.2)
           (log_softmax fns logits) beams indices h (beam_width cfg =? 1) n
           (length indices) s'.
Proof.
  intros Hvalid Hnd Hib Hsb Hrun sampled. unfold expand in Hrun. fold sampled in Hrun.
  destruct sampled as [selected_ids selected_logits] eqn:Hs.
  apply expand_loop_spec; try done.
  intros Hsingle i ids mask tokens Hids _ Hmasked. simpl in Hids.
  apply Z.eqb_eq in Hsingle.
  pose proof (Hsb (apply_logit_fns fns logits (map (deref h) beams)) (beam_width cfg)
              ltac:(lia)) as Hb.
  fold sampled in Hb. rewrite Hs in Hb. simpl in Hb.
  rewrite Forall_lookup in Hb. specialize (Hb i ids Hids). simpl in Hb.
  apply masked_length in Hmasked. unfold len in Hb. lia.
Qed.

(** ** Sorting and pruning *)

Lemma insert_desc_perm {A} (key : A -> float) (x : A) (l : list A) :
  Py.insert_desc key x l ≡ₚ x :: l.
Proof.
  induction l as [|y l IH]; simpl; [done|].
  destruct (PrimFloat.ltb (key x) (key y)); [|done].
  rewrite IH. apply Permutation_swap.
Qed.

Lemma sorted_desc_perm {A} (key : A -> float) (l : list A) :
  Py.sorted_desc key l ≡ₚ l.
Proof.
  induction l as [|x l IH]; simpl; [done|].
  rewrite insert_desc_perm. by rewrite IH.
Qed.

Lemma slice_to_sublist {A} (n : Z) (l : list A) : Py.slice_to n l `sublist_of` l.
Proof. unfold Py.slice_to. destruct (0 <=? n); apply sublist_take. Qed.

Lemma NoDup_concat_row (bc : list (list ref)) (idx : nat) :
  NoDup (concat bc) -> NoDup (bc !!! idx).
Proof.
  intros Hnd. destruct (bc !! idx) as [l|] eqn:Hl.
  - rewrite (list_lookup_total_correct _ _ _ Hl).
    apply list_elem_of_split_length in Hl as (l1 & l2 & -> & _).
    rewrite concat_app in Hnd. simpl in Hnd.
    apply NoDup_app in Hnd as (_ & _ & Hnd). by apply NoDup_app in Hnd as (Hnd & _).
  - rewrite list_lookup_total_alt, Hl. apply NoDup_nil_2.
Qed.

Section Prune.

Context {Cache : Type}.
Variable cfg : Config.
Variable fns : Callbacks Cache.

Hypothesis update_ok : update_keeps fns.

Lemma keep_best_spec (candidates : list ref) :
  forall (h : Store) (kept : list ref) h' kept' calls,
  keep_best cfg fns h kept candidates = (h', kept', calls) ->
  length h' = length h
  /\ (forall x, keeps (deref h x) (deref h' x))
  /\ exists extra, kept' = kept ++ extra /\ extra `sublist_of` candidates.
Proof.
  induction candidates as [|c rest IH]; intros h kept h' kept' calls Hrun; simpl in Hrun.
  - injection Hrun as <- <- <-. split_and!; [done|intros; apply keeps_refl|].
    exists []. by rewrite app_nil_r.
  - destruct (update_fn fns (deref h c)) as [b|] eqn:Hup.
    + assert (Hk : forall x, keeps (deref h x) (deref (assign h c b) x)).
      { intros x. destruct (decide (x = c)) as [->|Hne].
        - destruct (decide (c < length h)%nat) as [Hlt|Hge].
          + rewrite deref_assign_eq by done. by apply update_ok.
          + unfold assign. rewrite list_insert_ge by lia. apply keeps_refl.
        - rewrite deref_assign_ne by done. apply keeps_refl. }
      destruct (beam_width cfg <=? len (kept ++ [c])).
      * injection Hrun as <- <- <-. split_and!; [apply length_assign|done|].
        exists [c]. split; [done|]. apply sublist_skip, sublist_nil_l.
      * destruct (keep_best cfg fns (assign h c b) (kept ++ [c]) rest)
          as [[h1 kept1] calls1] eqn:Hrec.
        injection Hrun as <- <- <-.
        destruct (IH _ _ _ _ _ Hrec) as (Hlen & Hkeeps & extra & -> & Hsub).
        split_and!.
        -- by rewrite Hlen, length_assign.
        -- intros x. eapply keeps_trans; [apply Hk|apply Hkeeps].
        -- exists (c :: extra). rewrite <- app_assoc. split; [done|].
           by apply sublist_skip.
    + destruct (keep_best cfg fns h kept rest) as [[h1 kept1] calls1] eqn:Hrec.
      injection Hrun as <- <- <-.
      destruct (IH _ _ _ _ _ Hrec) as (Hlen & Hkeeps & extra & -> & Hsub).
      split_and!; [done|done|]. exists extra. split; [done|]. by apply sublist_cons.
Qed.

(** The pruning loop: the new alive list of an element is made of
    candidates of that element, each at most once; the other lists are as
    they were. *)
Lemma prune_spec (st st' : State) (bc : list (list ref)) (calls : list ref) :
  NoDup (concat bc) ->
  length (current_beams st) = length bc ->
  prune cfg fns st bc = (st', calls) ->
  length (store st') = length (store st)
  /\ (forall x, keeps (deref (store st) x) (deref (store st') x))
  /\ finished_beams st' = finished_beams st
  /\ too_long_beams st' = too_long_beams st
  /\ Forall2 (fun x y => NoDup x /\ x ⊆ y) (current_beams st') bc.
Proof.
  intros Hnd Hlen Hrun. unfold prune in Hrun.
  pose (P := fun (i : nat) (s : State * list ref) =>
    length (store s.1) = length (store st)
    /\ (forall x, keeps (deref (store st) x) (deref (store s.1) x))
    /\ finished_beams s.1 = finished_beams st
    /\ too_long_beams s.1 = too_long_beams st
    /\ length (current_beams s.1) = length bc
    /\ (forall idx, (idx < i)%nat ->
                    NoDup (current_beams s.1 !!! idx)
                    /\ current_beams s.1 !!! idx ⊆ bc !!! idx)).
  assert (HP : P (length (enumerate bc)) (st', calls)).
  { rewrite <- Hrun. apply fold_left_inv.
    - unfold P. simpl. split_and!; try done; intros; lia.
    - intros i [i' cands] [s cs] Hi (P1 & P2 & P3 & P4 & P5 & P6).
      unfold enumerate in Hi. rewrite list_lookup_imap in Hi.
      destruct (bc !! i) as [cands'|] eqn:Hbc; [|discriminate].
      simpl in Hi. injection Hi as <- <-. simpl in *.
      unfold prune_element.
      destruct (keep_best cfg fns (store s) [] (Py.sorted_desc (score fns (store s)) cands'))
        as [[h kept] calls1] eqn:Hkb.
      destruct (keep_best_spec _ _ _ _ _ _ Hkb) as (K1 & K2 & extra & K3 & K4).
      simpl in K3. subst kept.
      assert (Hrow : bc !!! i = cands') by (by apply list_lookup_total_correct).
      assert (Hlt : (i < length bc)%nat) by (by eapply lookup_lt_Some).
      unfold P. simpl. split_and!.
      + lia.
      + intros x. eapply keeps_trans; [apply P2|apply K2].
      + done.
      + done.
      + by rewrite length_insert.
      + intros idx Hidx. destruct (decide (idx = i)) as [->|Hne].
        * rewrite list_lookup_total_insert_eq by lia. rewrite Hrow. split.
          -- eapply sublist_NoDup; [|exact K4]. rewrite sorted_desc_perm.
             rewrite <- Hrow. by apply NoDup_concat_row.
          -- intros x Hx. eapply elem_of_sublist in Hx; [|exact K4].
             by rewrite sorted_desc_perm in Hx.
        * rewrite list_lookup_total_insert_ne by done. apply P6. lia. }
  unfold enumerate in HP. rewrite length_imap in HP.
  destruct HP as (P1 & P2 & P3 & P4 & P5 & P6). simpl in *.
  split_and!; try done.
  apply Forall2_same_length_lookup. split; [done|].
  intros i x y Hx Hy.
  rewrite <- (list_lookup_total_correct _ _ _ Hx), <- (list_lookup_total_correct _ _ _ Hy).
  apply P6. by eapply lookup_lt_Some.
Qed.

End Prune.

Section Outputs.

Context {Cache : Type}.
Variable cfg : Config.
Variable fns : Callbacks Cache.

(** [get_outputs] changes the finished lists only, by appending members
    of the too-long lists, and returns members of the finished lists it
    leaves. *)
Lemma get_outputs_spec (n : nat) (st st' : State) (outputs : list (list ref)) :
  get_outputs cfg fns n st = (st', outputs) ->
  store st' = store st
  /\ current_beams st' = current_beams st
  /\ too_long_beams st' = too_long_beams st
  /\ length (finished_beams st') = length (finished_beams st)
  /\ (forall idx r, r ∈ finished_beams st' !!! idx ->
                    r ∈ finished_beams st !!! idx \/ r ∈ too_long_beams st !!! idx)
  /\ length outputs = n
  /\ (forall idx out r, outputs !! idx = Some out -> r ∈ out ->
                        r ∈ finished_beams st' !!! idx).
Proof.
  intros Hrun. unfold get_outputs in Hrun.
  pose (P := fun (i : nat) (s : State * list (list ref)) =>
    store s.1 = store st
    /\ current_beams s.1 = current_beams st
    /\ too_long_beams s.1 = too_long_beams st
    /\ length (finished_beams s.1) = length (finished_beams st)
    /\ (forall idx r, r ∈ finished_beams s.1 !!! idx ->
                      r ∈ finished_beams st !!! idx \/ r ∈ too_long_beams st !!! idx)
    /\ (forall idx, (i <= idx)%nat ->
                    finished_beams s.1 !!! idx = finished_beams st !!! idx)
    /\ length s.2 = i
    /\ (forall idx out r, s.2 !! idx = Some out -> r ∈ out ->
                          r ∈ finished_beams s.1 !!! idx)).
  assert (HP : P (length (seq 0 n)) (st', outputs)).
  { rewrite <- Hrun. apply fold_left_inv.
    - unfold P. simpl. split_and!; try done; auto.
    - intros i x [s outs] Hx (P1 & P2 & P3 & P4 & P5 & P6 & P7 & P8).
      apply lookup_seq in Hx as [-> Hi]. simpl in *.
      unfold get_outputs_element.
      set (finished := finished_beams s !!! i).
      set (extra := Py.slice_to (beam_width cfg - len finished)
                      (Py.sorted_desc (score fns (store s)) (too_long_beams s !!! i))).
      set (s1 := if return_unfinished cfg && (len finished <? beam_width cfg)
                 then with_finished s (<[i := finished ++ extra]> (finished_beams s))
                 else s).
      assert (Hextra : forall r, r ∈ extra -> r ∈ too_long_beams st !!! i).
      { intros r Hr. unfold extra in Hr.
        eapply elem_of_sublist in Hr; [|apply slice_to_sublist].
        rewrite sorted_desc_perm in Hr. by rewrite P3 in Hr. }
      assert (Hs1 : store s1 = store s /\ current_beams s1 = current_beams s
                    /\ too_long_beams s1 = too_long_beams s
                    /\ length (finished_beams s1) = length (finished_beams s)
                    /\ (forall idx r, r ∈ finished_beams s1 !!! idx ->
                           r ∈ finished_beams s !!! idx
                           \/ (idx = i /\ r ∈ extra))
                    /\ (forall idx, idx <> i ->
                           finished_beams s1 !!! idx = finished_beams s !!! idx)).
      { unfold s1. destruct (return_unfinished cfg && _); [|by split_and!; auto].
        simpl. split_and!; try done.
        - by rewrite length_insert.
        - intros idx r. rewrite list_lookup_total_insert. case_decide as Hd; [|by left].
          destruct Hd as [<- _]. intros Hr. apply elem_of_app in Hr as [Hr|Hr]; [by left|].
          by right.
        - intros idx Hne. by rewrite list_lookup_total_insert_ne. }
      destruct Hs1 as (S1 & S2 & S3 & S4 & S5 & S6).
      unfold P. simpl. fold finished extra s1. split_and!.
      + congruence.
      + congruence.
      + congruence.
      + congruence.
      + intros idx r Hr. destruct (S5 idx r Hr) as [Hold|[-> Hnew]]; [by apply P5|].
        right. by apply Hextra.
      + intros idx Hle. rewrite S6 by lia. apply P6. lia.
      + rewrite length_app. simpl. lia.
      + intros idx out r Hout Hr.
        apply lookup_app_Some in Hout as [Hout|[Hge Hout]].
        * assert (Hlt : (idx < i)%nat) by (rewrite <- P7; by eapply lookup_lt_Some).
          rewrite S6 by lia. by eapply P8.
        * rewrite P7 in Hge, Hout.
          destruct (idx - i)%nat as [|k] eqn:Hk; [|by destruct k].
          simpl in Hout. injection Hout as <-.
          assert (idx = i) as -> by lia.
          eapply elem_of_sublist in Hr; [|apply slice_to_sublist].
          by rewrite sorted_desc_perm in Hr. }
  rewrite length_seq in HP.
  destruct HP as (P1 & P2 & P3 & P4 & P5 & P6 & P7 & P8). simpl in *. done.
Qed.

End Outputs.

(** ** One round *)

Lemma keeps_same_tokens (b b' : Beam) : keeps b b' -> same_tokens b b'.
Proof. by intros [? _]. Qed.

Lemma Forall2_pointwise (P : list ref -> list ref -> Prop) (xs ys : list (list ref)) :
  length xs = length ys ->
  (forall idx, (idx < length xs)%nat -> P (xs !!! idx) (ys !!! idx)) ->
  Forall2 P xs ys.
Proof.
  intros Hlen Hp. apply Forall2_same_length_lookup. split; [done|].
  intros i x y Hx Hy.
  rewrite <- (list_lookup_total_correct _ _ _ Hx), <- (list_lookup_total_correct _ _ _ Hy).
  apply Hp. by eapply lookup_lt_Some.
Qed.

Section Round.

Context {Cache : Type}.
Variable cfg : Config.
Variable fns : Callbacks Cache.
Variable n : nat.

Hypothesis sampler_ok : sampler_bounded fns.
Hypothesis update_ok : update_keeps fns.

Lemma round_inv (lp lp' : Loop Cache) (evs : list (event Cache)) :
  round cfg fns n lp = (evs, Ok lp') ->
  exists inputs logits c' h bc st1 calls st2,
    decode_fn fns inputs.1.1.1 inputs.1.1.2 inputs.1.2 inputs.2 = (logits, c')
    /\ expand cfg fns n (store (engine lp)) (beams lp) (indices lp) logits = Ok (h, bc)
    /\ prune cfg fns (with_store (engine lp) h) bc = (st1, calls)
    /\ filter_beams cfg fns n st1 = Ok (st2, (beams lp', indices lp'))
    /\ cache_handle lp' = c'
    /\ engine lp' = (if yield_intermediate cfg then (get_outputs cfg fns n st2).1 else st2).
Proof.
  unfold round. destruct (prepare cfg fns lp) as [evs0 [inputs|e]]; [|discriminate].
  unfold step. destruct inputs as [[[input_ids position_ids] pad_mask] c].
  destruct (decode_fn fns _ _ _ _) as [logits c'] eqn:Hdec.
  destruct (expand _ _ _ _ _ _ _) as [[h bc]|e] eqn:Hexp; [|discriminate].
  destruct (prune _ _ _ _) as [st1 calls] eqn:Hpr.
  destruct (filter_beams _ _ _ _) as [[st2 [beams' indices']]|e] eqn:Hfl; [|discriminate].
  destruct (yield_intermediate cfg).
  - destruct (get_outputs _ _ _ _) as [st3 outputs] eqn:Hgo.
    intros [= _ <-]. exists (input_ids, position_ids, pad_mask, c), logits, c', h, bc, st1, calls, st2.
    simpl. rewrite Hgo. done.
  - intros [= _ <-]. exists (input_ids, position_ids, pad_mask, c), logits, c', h, bc, st1, calls, st2.
    done.
Qed.

(** A round keeps the loop variables well formed; every object of the new
    store is an old one with its tokens or the child of an alive beam, and
    the alive beams of the next round are children. *)
Lemma round_spec (lp lp' : Loop Cache) (evs : list (event Cache)) :
  wf cfg n lp ->
  round cfg fns n lp = (evs, Ok lp') ->
  let s := store (engine lp) in
  let s' := store (engine lp') in
  wf cfg n lp'
  /\ (length s <= length s')%nat
  /\ (forall x, (x < length s')%nat ->
                ((x < length s)%nat /\ same_tokens (deref s x) (deref s' x))
                \/ grown s s' (beams lp) x)
  /\ (forall r, r ∈ beams lp' -> grown s s' (beams lp) r).
Proof.
  intros (W1 & W2 & W3 & W4 & W5 & W6 & W7 & W8 & W9) Hround s s'.
  destruct (round_inv lp lp' evs Hround)
    as (inputs & logits & c' & h & bc & st1 & calls & st2 & _ & Hexp & Hpr & Hfl & _ & Heng).
  (* expansion *)
  assert (Hib : Forall (fun idx => (idx < n)%nat) (indices lp)).
  { rewrite W5. pose proof (flatten_Forall2 n (engine lp)) as HF.
    apply Forall_forall. intros idx Hidx. apply list_elem_of_lookup in Hidx as [i Hi].
    destruct (Forall2_lookup_r _ _ _ _ _ HF Hi) as (r & _ & Hlt & _). done. }
  pose proof (expand_spec cfg fns n _ _ _ _ _ W7 W6 Hib sampler_ok Hexp) as HE.
  cbv zeta in HE. destruct HE as (Ea & Eb & Ec & Ed & Ee & _). simpl in Ea, Eb, Ec, Ed, Ee.
  (* pruning *)
  destruct (prune_spec cfg fns update_ok (with_store (engine lp) h) st1 bc calls Ee)
    as (P1 & P2 & P3 & P4 & P5); [simpl; congruence|done|].
  simpl in P1, P2, P3, P4.
  assert (Hnd1 : NoDup (concat (current_beams st1))) by (by eapply NoDup_concat_sub).
  (* classification *)
  apply filter_beams_inv in Hfl as (Hloop & Hb' & Hi').
  destruct (filter_loop_spec cfg fns n st1 st2 (fun idx => NoDup_concat_row _ idx Hnd1) Hloop)
    as (F1 & F2 & F3 & F4 & F5 & F6 & _ & F8 & F9 & F10 & _).
  (* output assembly *)
  assert (HG : store (engine lp') = store st2
               /\ current_beams (engine lp') = current_beams st2
               /\ too_long_beams (engine lp') = too_long_beams st2
               /\ length (finished_beams (engine lp')) = length (finished_beams st2)
               /\ (forall idx r, r ∈ finished_beams (engine lp') !!! idx ->
                     r ∈ finished_beams st2 !!! idx \/ r ∈ too_long_beams st2 !!! idx)).
  { rewrite Heng. destruct (yield_intermediate cfg); [|by split_and!; auto].
    destruct (get_outputs cfg fns n st2) as [st3 outputs] eqn:Hgo.
    destruct (get_outputs_spec cfg fns n st2 st3 outputs Hgo) as (G1 & G2 & G3 & G4 & G5 & _).
    simpl. done. }
  destruct HG as (G1 & G2 & G3 & G4 & G5).
  assert (Hlen : length s' = length h) by (unfold s'; rewrite G1; lia).
  assert (Hkeeps : forall x, keeps (deref h x) (deref s' x)).
  { intros x. unfold s'. rewrite G1. eapply keeps_trans; [apply P2|apply F2]. }
  assert (Hlen1 : length (current_beams st1) = n).
  { apply Forall2_length in P5. lia. }
  assert (Hcand : forall idx r, r ∈ current_beams st2 !!! idx -> r ∈ bc !!! idx).
  { intros idx r Hr. eapply elem_of_sublist in Hr; [|apply F6].
    destruct (current_beams st1 !! idx) as [l|] eqn:Hl.
    - rewrite (list_lookup_total_correct _ _ _ Hl) in Hr.
      destruct (Forall2_lookup_l _ _ _ _ _ P5 Hl) as (l' & Hl' & _ & Hsub).
      rewrite (list_lookup_total_correct _ _ _ Hl'). by apply Hsub.
    - rewrite list_lookup_total_alt, Hl in Hr. by apply elem_of_nil in Hr. }
  assert (Hchild : forall idx x, x ∈ bc !!! idx -> grown s s' (beams lp) x).
  { intros idx x Hx. destruct (Ec idx x Hx) as [_ (i & r & t & p & _ & Hr & _ & Hcell & _)].
    destruct (Hkeeps x) as [[Ht Hi] Hc]. rewrite Hcell in Ht, Hi, Hc.
    exists i, r, t. done. }
  assert (Hbeams : forall r, r ∈ beams lp' ->
                             exists idx, (idx < n)%nat /\ r ∈ current_beams st2 !!! idx).
  { intros r Hr. rewrite Hb' in Hr. by apply flatten_elem_of in Hr. }
  split_and!.
  - unfold wf. cbv zeta. rewrite G1, G2, G3. split_and!.
    + lia.
    + by rewrite G4, F4, P3.
    + by rewrite F5, P4.
    + rewrite Hb'. f_equal. apply flatten_ext. by rewrite G2.
    + rewrite Hi'. f_equal. apply flatten_ext. by rewrite G2.
    + rewrite Hb', flatten_concat by lia.
      eapply NoDup_concat_sub; [|exact Hnd1].
      apply Forall2_pointwise; [lia|]. intros idx _. split.
      * eapply sublist_NoDup; [|apply F6]. by apply NoDup_concat_row.
      * intros x Hx. by eapply elem_of_sublist; [|apply F6].
    + intros r Hr. destruct (Hbeams r Hr) as (idx & _ & Hin).
      apply Hcand in Hin. destruct (Ec idx r Hin) as [Hlt _]. lia.
    + intros r Hr. destruct (Hbeams r Hr) as (idx & Hidx & Hin). by apply (F8 idx).
    + assert (Hold : forall idx r,
                 r ∈ finished_beams st2 !!! idx \/ r ∈ too_long_beams st2 !!! idx ->
                 (r < length (store st2))%nat).
      { intros idx r Hr.
        assert (Hor : (r ∈ finished_beams (engine lp) !!! idx
                       \/ r ∈ too_long_beams (engine lp) !!! idx)
                      \/ r ∈ current_beams st1 !!! idx).
        { destruct Hr as [Hr|Hr].
          - destruct (F9 idx r Hr) as [H|H]; [left; left; by rewrite <- P3|by right].
          - destruct (F10 idx r Hr) as [H|H]; [left; right; by rewrite <- P4|by right]. }
        destruct Hor as [Hor|Hor].
        - pose proof (W9 idx r Hor). lia.
        - assert (Hin : r ∈ bc !!! idx).
          { destruct (current_beams st1 !! idx) as [l|] eqn:Hl.
            - rewrite (list_lookup_total_correct _ _ _ Hl) in Hor.
              destruct (Forall2_lookup_l _ _ _ _ _ P5 Hl) as (l' & Hl' & _ & Hsub).
              rewrite (list_lookup_total_correct _ _ _ Hl'). by apply Hsub.
            - rewrite list_lookup_total_alt, Hl in Hor. by apply elem_of_nil in Hor. }
          destruct (Ec idx r Hin) as [Hlt _]. lia. }
      intros idx r [Hr|Hr].
      * apply (Hold idx). by apply G5.
      * apply (Hold idx). by right.
  - unfold s. lia.
  - intros x Hx. rewrite Hlen in Hx. destruct (Ed x Hx) as [[idx Hin]|[Hlt Hsame]].
    + right. by apply (Hchild idx).
    + left. split; [done|]. eapply same_tokens_trans; [exact Hsame|].
      apply keeps_same_tokens, Hkeeps.
  - intros r Hr. destruct (Hbeams r Hr) as (idx & _ & Hin). apply (Hchild idx).
    by apply Hcand.
Qed.

End Round.

(** ** The state the loop starts from *)

Lemma init_refs_app (l1 l2 : list Init) :
  init_refs (l1 ++ l2) = init_refs l1 ++ init_refs l2.
Proof. unfold init_refs. apply omap_app. Qed.

Lemma init_refs_fresh (initial : list Init) (i : nat) (r : ref) :
  NoDup (init_refs initial) -> initial !! i = Some (BeamObject r) ->
  r ∉ init_refs (take i initial).
Proof.
  intros Hnd Hi. rewrite <- (take_drop_middle initial i (BeamObject r) Hi) in Hnd.
  rewrite init_refs_app in Hnd. simpl in Hnd.
  apply NoDup_app in Hnd as (_ & Hdisj & _). intros Hin.
  apply (Hdisj r Hin). by left.
Qed.

Lemma init_refs_take_S (initial : list Init) (i : nat) (init : Init) :
  initial !! i = Some init ->
  init_refs (take (S i) initial) = init_refs (take i initial) ++ init_refs [init].
Proof. intros Hi. by rewrite (take_S_r _ _ _ Hi), init_refs_app. Qed.

Lemma init_loop_spec (h : Store) (initial : list Init) (st : State) :
  initial_ok h initial ->
  for_each init_element initial (mkState h [] [] []) = Ok st ->
  length (current_beams st) = length initial
  /\ finished_beams st = replicate (length initial) []
  /\ too_long_beams st = replicate (length initial) []
  /\ (length h <= length (store st))%nat
  /\ (forall x, (x < length (store st))%nat ->
                ((x < length h)%nat /\ deref (store st) x = deref h x)
                \/ exists ids, TokenIds ids ∈ initial /\ deref (store st) x = new_beam ids)
  /\ NoDup (concat (current_beams st))
  /\ (forall r, r ∈ concat (current_beams st) -> (r < length (store st))%nat).
Proof.
  intros [Hnd Hvalid] Hrun.
  pose (P := fun (i : nat) (s : State) =>
    length (current_beams s) = i
    /\ finished_beams s = replicate i []
    /\ too_long_beams s = replicate i []
    /\ (length h <= length (store s))%nat
    /\ (forall x, (x < length (store s))%nat ->
                  ((x < length h)%nat /\ deref (store s) x = deref h x)
                  \/ exists ids, TokenIds ids ∈ initial /\ deref (store s) x = new_beam ids)
    /\ NoDup (concat (current_beams s))
    /\ (forall r, r ∈ concat (current_beams s) ->
                  (r < length (store s))%nat
                  /\ ((r < length h)%nat -> r ∈ init_refs (take i initial)))).
  assert (HP : P (length initial) st).
  { apply (for_each_inv P init_element initial (mkState h [] [] [])); [| |done].
    - unfold P. simpl. split_and!; try done.
      + intros x Hx. by left.
      + apply NoDup_nil_2.
      + intros r Hr. by apply elem_of_nil in Hr.
    - intros i init s s' Hi (P1 & P2 & P3 & P4 & P5 & P6 & P7) Hstep.
      unfold init_element in Hstep. destruct (0 <? _); [|discriminate].
      destruct init as [ids|r]; simpl in Hstep; injection Hstep as <-; unfold P;
        rewrite (init_refs_take_S _ _ _ Hi); simpl.
      + (* a new object *)
        split_and!.
        * rewrite length_app. simpl. lia.
        * rewrite P2. symmetry. exact (replicate_S_end _ _).
        * rewrite P3. symmetry. exact (replicate_S_end _ _).
        * rewrite length_app. lia.
        * intros x Hx. rewrite length_app in Hx. simpl in Hx.
          destruct (decide (x = length (store s))) as [->|Hne].
          -- right. exists ids. split; [by eapply list_elem_of_lookup_2|].
             apply (deref_alloc_new (store s) (new_beam ids)).
          -- rewrite deref_app_l by lia. apply P5. lia.
        * rewrite concat_app. simpl. apply NoDup_app. split; [done|]. split.
          -- intros x Hx Hin. apply list_elem_of_singleton in Hin as ->.
             destruct (P7 _ Hx) as [Hlt _]. lia.
          -- apply NoDup_singleton.
        * intros r. rewrite concat_app. simpl. rewrite length_app. simpl.
          intros Hr. apply elem_of_app in Hr as [Hr|Hr].
          -- destruct (P7 r Hr) as [Hlt Hold]. split; [lia|]. intros Hh.
             apply elem_of_app. left. by apply Hold.
          -- apply list_elem_of_singleton in Hr as ->. split; lia.
      + (* an object of the caller *)
        assert (Hr : (r < length h)%nat).
        { rewrite Forall_forall in Hvalid. apply Hvalid.
          rewrite <- (take_drop_middle initial i (BeamObject r) Hi), init_refs_app.
          apply elem_of_app. right. by left. }
        split_and!.
        * rewrite length_app. simpl. lia.
        * rewrite P2. symmetry. exact (replicate_S_end _ _).
        * rewrite P3. symmetry. exact (replicate_S_end _ _).
        * done.
        * done.
        * rewrite concat_app. simpl. apply NoDup_app. split; [done|]. split.
          -- intros x Hx Hin. apply list_elem_of_singleton in Hin as ->.
             destruct (P7 _ Hx) as [_ Hold].
             apply (init_refs_fresh initial i r Hnd Hi). by apply Hold.
          -- apply NoDup_singleton.
        * intros x. rewrite concat_app. simpl.
          intros Hx. apply elem_of_app in Hx as [Hx|Hx].
          -- destruct (P7 x Hx) as [Hlt Hold]. split; [lia|]. intros Hh.
             apply elem_of_app. left. by apply Hold.
          -- apply list_elem_of_singleton in Hx as ->. split; [lia|]. intros _.
             apply elem_of_app. right. by left. }
  destruct HP as (P1 & P2 & P3 & P4 & P5 & P6 & P7).
  split_and!; try done. intros r Hr. by apply P7.
Qed.

Lemma setup_spec {Cache : Type} (cfg : Config) (fns : Callbacks Cache) (h : Store)
    (initial : list Init) (lp : Loop Cache) :
  initial_ok h initial ->
  setup cfg fns h initial = Ok lp ->
  (forall m, max_new_tokens cfg = Some m -> 0 < m)
  /\ 1 <= beam_width cfg
  /\ wf cfg (length initial) lp
  /\ cache_handle lp = None
  /\ (forall x, (x < length (store (engine lp)))%nat ->
        ((x < length h)%nat /\ same_tokens (deref h x) (deref (store (engine lp)) x))
        \/ exists ids, TokenIds ids ∈ initial
                       /\ same_tokens (new_beam ids) (deref (store (engine lp)) x)).
Proof.
  intros Hok Hrun. unfold setup in Hrun.
  destruct (negb match max_new_tokens cfg with
                 | Some n => 0 <? n
                 | None => true
                 end) eqn:Hmnt; [discriminate|].
  destruct (negb (valid_stop_condition (stop_condition cfg))); [discriminate|].
  destruct (negb (1 <=? beam_width cfg)) eqn:Hbw; [discriminate|].
  destruct (for_each init_element initial _) as [st|e] eqn:Hinit; [|discriminate].
  simpl in Hrun.
  destruct (filter_beams cfg fns (length initial) st) as [[st' [bs ixs]]|e] eqn:Hfl;
    [|discriminate].
  simpl in Hrun. injection Hrun as <-.
  destruct (init_loop_spec h initial st Hok Hinit) as (I1 & I2 & I3 & I4 & I5 & I6 & I7).
  apply filter_beams_inv in Hfl as (Hloop & -> & ->).
  destruct (filter_loop_spec cfg fns _ st st' (fun idx => NoDup_concat_row _ idx I6) Hloop)
    as (F1 & F2 & F3 & F4 & F5 & F6 & _ & F8 & F9 & F10 & _).
  assert (Hcur : forall idx r, r ∈ current_beams st !!! idx -> (r < length (store st))%nat).
  { intros idx r Hr. apply I7, elem_of_concat_lookup. eauto. }
  split_and!.
  - intros m Hm. rewrite Hm in Hmnt. apply negb_false_iff, Z.ltb_lt in Hmnt. done.
  - apply negb_false_iff, Z.leb_le in Hbw. done.
  - unfold wf. simpl. split_and!.
    + lia.
    + rewrite F4, I2. apply length_replicate.
    + rewrite F5, I3. apply length_replicate.
    + done.
    + done.
    + rewrite flatten_concat by lia.
      eapply NoDup_concat_sub; [|exact I6].
      apply Forall2_pointwise; [lia|]. intros idx _. split.
      * eapply sublist_NoDup; [|apply F6]. by apply NoDup_concat_row.
      * intros x Hx. by eapply elem_of_sublist; [|apply F6].
    + intros r Hr. apply flatten_elem_of in Hr as (idx & _ & Hr).
      eapply elem_of_sublist in Hr; [|apply F6]. rewrite F1. by apply (Hcur idx).
    + intros r Hr. apply flatten_elem_of in Hr as (idx & Hidx & Hr). by apply (F8 idx).
    + assert (Hnil : forall idx, replicate (length initial) ([] : list ref) !!! idx = []).
      { intros idx. rewrite list_lookup_total_alt.
        destruct (replicate _ _ !! idx) as [l|] eqn:Hl; [|done].
        apply lookup_replicate in Hl as [-> _]. done. }
      intros idx r [Hr|Hr].
      * destruct (F9 idx r Hr) as [H|H].
        -- rewrite I2, Hnil in H. by apply elem_of_nil in H.
        -- rewrite F1. by apply (Hcur idx).
      * destruct (F10 idx r Hr) as [H|H].
        -- rewrite I3, Hnil in H. by apply elem_of_nil in H.
        -- rewrite F1. by apply (Hcur idx).
  - done.
  - simpl. intros x Hx. rewrite F1 in Hx.
    destruct (I5 x Hx) as [[Hlt Heq]|(ids & Hin & Heq)].
    + left. split; [done|]. rewrite <- Heq. apply keeps_same_tokens, F2.
    + right. exists ids. split; [done|]. rewrite <- Heq. apply keeps_same_tokens, F2.
Qed.

(** ** The length limits along a run *)

Lemma within_same_tokens (cfg : Config) (b b' : Beam) :
  same_tokens b b' -> within cfg b -> within cfg b'.
Proof.
  intros [Ht Hi] [Hlen Hdec]. unfold within, decoded_length, beam_len in *.
  rewrite Ht, Hi. done.
Qed.

Lemma within_child (cfg : Config) (b b' : Beam) (t : Z) :
  too_long cfg b = false ->
  token_ids b' = token_ids b ++ [t] ->
  initial_length b' = initial_length b ->
  within cfg b'.
Proof.
  intros Hlong Ht Hi. unfold too_long in Hlong.
  destruct (max_length cfg <=? beam_len b) eqn:Hmax; [discriminate|].
  apply Z.leb_gt in Hmax.
  assert (Hlen : beam_len b' = beam_len b + 1).
  { unfold beam_len. rewrite Ht, length_app. simpl. lia. }
  split; [lia|]. intros m Hm. rewrite Hm in Hlong. apply Z.leb_gt in Hlong.
  unfold decoded_length in *. rewrite Hlen, Hi. lia.
Qed.

Lemma within_new_beam (cfg : Config) (ids : list Z) :
  (forall m, max_new_tokens cfg = Some m -> 0 < m) ->
  len ids <= max_length cfg -> within cfg (new_beam ids).
Proof.
  intros Hpos Hlen. split; [done|]. intros m Hm. specialize (Hpos m Hm).
  unfold decoded_length, beam_len. simpl. lia.
Qed.

Lemma deref_Forall (P : Beam -> Prop) (h : Store) (x : ref) :
  Forall P h -> (x < length h)%nat -> P (deref h x).
Proof.
  intros HP Hx. destruct (lookup_lt_is_Some_2 h x Hx) as [b Hb].
  unfold deref. rewrite (list_lookup_total_correct _ _ _ Hb).
  by eapply Forall_lookup_1.
Qed.

Section Limits.

Context {Cache : Type}.
Variable cfg : Config.
Variable fns : Callbacks Cache.
Variable n : nat.

Hypothesis sampler_ok : sampler_bounded fns.
Hypothesis update_ok : update_keeps fns.

Lemma round_within (lp lp' : Loop Cache) (evs : list (event Cache)) :
  wf cfg n lp -> all_within cfg lp -> round cfg fns n lp = (evs, Ok lp') ->
  wf cfg n lp' /\ all_within cfg lp'.
Proof.
  intros Hwf Hall Hround.
  destruct (round_spec cfg fns n sampler_ok update_ok lp lp' evs Hwf Hround)
    as (Hwf' & _ & Hsplit & _).
  split; [done|]. intros x Hx.
  destruct (Hsplit x Hx) as [[Hlt Hsame]|(i & r & t & Hr & Ht & Hi & _)].
  - eapply within_same_tokens; [exact Hsame|]. by apply Hall.
  - eapply within_child; [|exact Ht|exact Hi].
    destruct Hwf as (_ & _ & _ & _ & _ & _ & _ & W8 & _). apply W8.
    by eapply list_elem_of_lookup_2.
Qed.

Lemma run_loop_within (fuel : nat) :
  forall (lp : Loop Cache) evs st outputs,
  wf cfg n lp -> all_within cfg lp ->
  run_loop cfg fns n fuel lp = (evs, Returned st outputs) ->
  forall out r, out ∈ outputs -> r ∈ out ->
                (r < length (store st))%nat /\ within cfg (deref (store st) r).
Proof.
  induction fuel as [|fuel IH]; intros lp evs st outputs Hwf Hall Hrun out r Hout Hr.
  - simpl in Hrun. destruct (beams lp) eqn:Hb; [|discriminate].
    destruct (get_outputs cfg fns n (engine lp)) as [st1 outs] eqn:Hgo.
    injection Hrun as _ <- <-.
    destruct (get_outputs_spec cfg fns n _ _ _ Hgo) as (G1 & _ & _ & _ & G5 & _ & G7).
    apply list_elem_of_lookup in Hout as [idx Hidx].
    pose proof (G7 idx out r Hidx Hr) as Hin. apply G5 in Hin.
    destruct Hwf as (_ & _ & _ & _ & _ & _ & _ & _ & W9).
    rewrite G1. split; [by apply (W9 idx)|]. apply Hall. by apply (W9 idx).
  - simpl in Hrun. destruct (beams lp) eqn:Hb.
    + destruct (get_outputs cfg fns n (engine lp)) as [st1 outs] eqn:Hgo.
      injection Hrun as _ <- <-.
      destruct (get_outputs_spec cfg fns n _ _ _ Hgo) as (G1 & _ & _ & _ & G5 & _ & G7).
      apply list_elem_of_lookup in Hout as [idx Hidx].
      pose proof (G7 idx out r Hidx Hr) as Hin. apply G5 in Hin.
      destruct Hwf as (_ & _ & _ & _ & _ & _ & _ & _ & W9).
      rewrite G1. split; [by apply (W9 idx)|]. apply Hall. by apply (W9 idx).
    + destruct (round cfg fns n lp) as [evs1 [lp'|e]] eqn:Hround; [|discriminate].
      destruct (run_loop cfg fns n fuel lp') as [evs2 o] eqn:Hrest.
      injection Hrun as _ ->.
      destruct (round_within lp lp' evs1 Hwf Hall Hround) as [Hwf' Hall'].
      by apply (IH lp' evs2 st outputs Hwf' Hall' Hrest out r).
Qed.

End Limits.

(** C7, as the code has it: when no entry of [initial] is over the limits
    (the caller's objects are distinct and within both limits, the token
    lists have at most [max_length] tokens), the sampler proposes at most
    [beam_width] tokens per beam and [update_fn] keeps tokens, seed length
    and cache slot, every beam of the value returned has at most
    [max_length] tokens and, when [max_new_tokens] is set, at most that many
    tokens beyond its seed. *)
Theorem returned_within_limits {Cache : Type} (cfg : Config) (fns : Callbacks Cache)
    (fuel : nat) (h : Store) (initial : list Init)
    (evs : list (event Cache)) (st : State) (outputs : list (list ref)) :
  sampler_bounded fns ->
  update_keeps fns ->
  initial_ok h initial ->
  Forall (within cfg) h ->
  Forall (init_within cfg) initial ->
  beam_search cfg fns fuel h initial = (evs, Returned st outputs) ->
  forall out r, out ∈ outputs -> r ∈ out ->
    (r < length (store st))%nat /\ within cfg (deref (store st) r).
Proof.
  intros Hsb Hup Hok Hh Hinit Hrun. unfold beam_search in Hrun.
  destruct (setup cfg fns h initial) as [lp|e] eqn:Hsetup; [|discriminate].
  destruct (setup_spec cfg fns h initial lp Hok Hsetup) as (Hpos & _ & Hwf & _ & Hstore).
  apply (run_loop_within cfg fns (length initial) Hsb Hup fuel lp evs st outputs Hwf);
    [|done].
  intros x Hx. destruct (Hstore x Hx) as [[Hlt Hsame]|(ids & Hin & Hsame)].
  - eapply within_same_tokens; [exact Hsame|]. by apply deref_Forall.
  - eapply within_same_tokens; [exact Hsame|]. apply within_new_beam; [done|].
    rewrite Forall_forall in Hinit. by apply (Hinit (TokenIds ids)).
Qed.

(** ** Termination *)

Lemma decode_calls_app {Cache : Type} (evs evs' : list (event Cache)) :
  decode_calls (evs ++ evs') = (decode_calls evs + decode_calls evs')%nat.
Proof. unfold decode_calls. by rewrite List.filter_app, length_app. Qed.

Lemma decode_calls_after {Cache : Type} (evs : list (event Cache)) :
  Forall after_decode evs -> decode_calls evs = 0%nat.
Proof.
  induction 1 as [|e evs He _ IH]; [done|].
  unfold decode_calls in *. simpl. destruct e; simpl in *; try done.
Qed.

Lemma concat_nil_Forall {A} (ls : list (list A)) :
  concat ls = [] -> Forall (fun l => l = []) ls.
Proof.
  induction ls as [|l ls IH]; [done|].
  simpl. intros Hnil. apply app_eq_nil in Hnil as [-> Hls]. constructor; [done|].
  by apply IH.
Qed.

Section Termination.

Context {Cache : Type}.
Variable cfg : Config.
Variable fns : Callbacks Cache.
Variable n : nat.

Hypothesis sampler_ok : sampler_bounded fns.
Hypothesis update_ok : update_keeps fns.

Lemma prepare_decode_calls (lp : Loop Cache) :
  decode_calls (prepare cfg fns lp).1 = 0%nat.
Proof.
  unfold prepare.
  destruct (cache_handle lp) as [c|]; [|done].
  destruct (cache_mask _ _) as [mask|]; [|done].
  destruct (cache_fn fns); done.
Qed.

Lemma round_decode_calls (lp : Loop Cache) :
  (decode_calls (round cfg fns n lp).1 <= 1)%nat.
Proof.
  unfold round. pose proof (prepare_decode_calls lp) as Hprep.
  destruct (prepare cfg fns lp) as [evs [[[[input_ids position_ids] pad_mask] c]|e]];
    cbn [fst] in *; [|lia].
  destruct (step_events cfg fns n lp input_ids position_ids pad_mask c)
    as (rest & r & -> & Hrest).
  cbn [fst]. rewrite decode_calls_app, Hprep.
  unfold decode_calls. simpl. fold (decode_calls rest).
  rewrite (decode_calls_after rest Hrest). lia.
Qed.

Lemma round_grows (k : Z) (lp lp' : Loop Cache) (evs : list (event Cache)) :
  wf cfg n lp -> at_least k lp -> round cfg fns n lp = (evs, Ok lp') ->
  wf cfg n lp' /\ at_least (k + 1) lp'.
Proof.
  intros Hwf Hk Hround.
  destruct (round_spec cfg fns n sampler_ok update_ok lp lp' evs Hwf Hround)
    as (Hwf' & _ & _ & Hgrown).
  split; [done|]. intros r Hr.
  destruct (Hgrown r Hr) as (i & p & t & Hp & Ht & _).
  assert (Hin : p ∈ beams lp) by (by eapply list_elem_of_lookup_2).
  specialize (Hk p Hin). unfold beam_len in *. rewrite Ht, length_app. simpl. lia.
Qed.

Lemma no_alive (st : State) :
  length (current_beams st) = n -> (flatten n st).1 = [] ->
  Forall (fun l => l = []) (current_beams st).
Proof.
  intros Hlen Hflat. rewrite flatten_concat in Hflat by done.
  by apply concat_nil_Forall.
Qed.

Lemma run_loop_terminates (fuel : nat) :
  forall (lp : Loop Cache) (k : Z),
  wf cfg n lp -> at_least k lp ->
  (Z.to_nat (max_length cfg - k) <= fuel)%nat ->
  exists evs o,
    run_loop cfg fns n fuel lp = (evs, o)
    /\ o <> OutOfFuel
    /\ (decode_calls evs <= Z.to_nat (max_length cfg - k))%nat
    /\ (forall st outputs, o = Returned st outputs ->
                           Forall (fun l => l = []) (current_beams st)).
Proof.
  induction fuel as [|fuel IH]; intros lp k Hwf Hk Hfuel.
  - simpl. destruct (beams lp) as [|r rest] eqn:Hb.
    + destruct (get_outputs cfg fns n (engine lp)) as [st outs] eqn:Hgo.
      exists [], (Returned st outs). split_and!; [done|done|unfold decode_calls; simpl; lia|].
      intros st' outs' [= <- <-].
      destruct (get_outputs_spec cfg fns n _ _ _ Hgo) as (_ & -> & _).
      destruct Hwf as (W1 & _ & _ & W4 & _). apply no_alive; [done|].
      by rewrite <- W4.
    + exfalso. destruct Hwf as (_ & _ & _ & _ & _ & _ & _ & W8 & _).
      assert (Hin : r ∈ beams lp) by (rewrite Hb; by left).
      specialize (W8 r Hin). specialize (Hk r Hin). unfold too_long in W8.
      destruct (max_length cfg <=? _) eqn:Hmax; [discriminate|].
      apply Z.leb_gt in Hmax. lia.
  - simpl. destruct (beams lp) as [|r rest] eqn:Hb.
    + destruct (get_outputs cfg fns n (engine lp)) as [st outs] eqn:Hgo.
      exists [], (Returned st outs). split_and!; [done|done|unfold decode_calls; simpl; lia|].
      intros st' outs' [= <- <-].
      destruct (get_outputs_spec cfg fns n _ _ _ Hgo) as (_ & -> & _).
      destruct Hwf as (W1 & _ & _ & W4 & _). apply no_alive; [done|].
      by rewrite <- W4.
    + assert (Hroom : k < max_length cfg).
      { destruct Hwf as (_ & _ & _ & _ & _ & _ & _ & W8 & _).
        assert (Hin : r ∈ beams lp) by (rewrite Hb; by left).
        specialize (W8 r Hin). specialize (Hk r Hin). unfold too_long in W8.
        destruct (max_length cfg <=? _) eqn:Hmax; [discriminate|].
        apply Z.leb_gt in Hmax. lia. }
      pose proof (round_decode_calls lp) as Hcount.
      destruct (round cfg fns n lp) as [evs1 [lp'|e]] eqn:Hround.
      * destruct (round_grows k lp lp' evs1 Hwf Hk Hround) as [Hwf' Hk'].
        destruct (IH lp' (k + 1) Hwf' Hk') as (evs2 & o & -> & Ho & Hcalls & Hret); [lia|].
        exists (evs1 ++ evs2), o. split_and!; [done|done| |done].
        rewrite decode_calls_app. simpl in Hcount. lia.
      * exists evs1, (Raised e). split_and!; [done|done| |done].
        simpl in Hcount. lia.
Qed.

End Termination.

Lemma too_long_spec (cfg : Config) (b : Beam) :
  too_long cfg b = true
  <-> max_length cfg <= beam_len b
      \/ exists m, max_new_tokens cfg = Some m /\ m <= decoded_length b.
Proof.
  unfold too_long. destruct (max_length cfg <=? beam_len b) eqn:Hmax.
  - apply Z.leb_le in Hmax. split; auto.
  - apply Z.leb_gt in Hmax. destruct (max_new_tokens cfg) as [m|].
    + rewrite Z.leb_le. split.
      * intros Hm. right. exists m. done.
      * intros [Hl|(m' & [= <-] & Hm)]; [lia|done].
    + split; [discriminate|]. intros [Hl|(m' & Hm & _)]; [lia|discriminate].
Qed.

(** C8, as the code has it: with a sampler that proposes at most
    [beam_width] tokens per beam, an [update_fn] that keeps the tokens, the
    seed length and the cache slot of the candidates it accepts, and
    distinct objects of the caller, a run needs at most [max_length]
    rounds: with that much fuel it does not run out, it calls [decode_fn]
    at most [max_length] times, and when it returns no element has an alive
    beam. The reason is the one the spec gives: a round turns every alive
    beam into beams with exactly one more token, and [too_long] holds of a
    beam from [max_length] tokens (or [max_new_tokens] decoded ones) on. *)
Theorem beam_search_terminates {Cache : Type} (cfg : Config) (fns : Callbacks Cache)
    (fuel : nat) (h : Store) (initial : list Init) :
  sampler_bounded fns ->
  update_keeps fns ->
  initial_ok h initial ->
  (Z.to_nat (max_length cfg) <= fuel)%nat ->
  (exists evs o,
      beam_search cfg fns fuel h initial = (evs, o)
      /\ o <> OutOfFuel
      /\ (decode_calls evs <= Z.to_nat (max_length cfg))%nat
      /\ (forall st outputs, o = Returned st outputs ->
                             Forall (fun l => l = []) (current_beams st)))
  /\ (forall lp lp' evs,
        wf cfg (length initial) lp ->
        round cfg fns (length initial) lp = (evs, Ok lp') ->
        wf cfg (length initial) lp'
        /\ forall r, r ∈ beams lp' ->
             exists parent t,
               parent ∈ beams lp
               /\ token_ids (deref (store (engine lp')) r)
                  = token_ids (deref (store (engine lp)) parent) ++ [t])
  /\ (forall b, too_long cfg b = true
                <-> max_length cfg <= beam_len b
                    \/ exists m, max_new_tokens cfg = Some m /\ m <= decoded_length b).
Proof.
  intros Hsb Hup Hok Hfuel. split_and!.
  - unfold beam_search. destruct (setup cfg fns h initial) as [lp|e] eqn:Hsetup.
    + destruct (setup_spec cfg fns h initial lp Hok Hsetup) as (_ & _ & Hwf & _).
      destruct (run_loop_terminates cfg fns (length initial) Hsb Hup fuel lp 0 Hwf)
        as (evs & o & Hrun & Ho & Hcalls & Hret).
      * intros r _. unfold beam_len. lia.
      * rewrite Z.sub_0_r. done.
      * exists evs, o. rewrite Z.sub_0_r in Hcalls. done.
    + exists [], (Raised e). split_and!; [done|done|unfold decode_calls; simpl; lia|done].
  - intros lp lp' evs Hwf Hround.
    destruct (round_spec cfg fns _ Hsb Hup lp lp' evs Hwf Hround) as (Hwf' & _ & _ & Hgrown).
    split; [done|]. intros r Hr. destruct (Hgrown r Hr) as (i & p & t & Hp & Ht & _).
    exists p, t. split; [by eapply list_elem_of_lookup_2|done].
  - apply too_long_spec.
Qed.

(** ** Pruning, exactly (C6) *)

Section KeepBest.

Context {Cache : Type}.
Variable cfg : Config.
Variable fns : Callbacks Cache.
Variable h : Store.


End KeepBest.




(** ** The concrete callbacks keep their contracts *)

Lemma first_k_bounded (logits : Tensor float) (k : Z) :
  0 <= k -> Forall (fun ids : list Z => len ids <= k) (Demo.first_k logits k).1.
Proof.
  intros Hk. unfold Demo.first_k. simpl. apply Forall_forall. intros ids Hin.
  apply list_elem_of_fmap in Hin as (row & -> & _).
  unfold len. rewrite length_map, length_seq. lia.
Qed.

Lemma demo_sampler_bounded (row : list float) (stop : Beam -> bool) :
  sampler_bounded (Demo.callbacks row stop).
Proof. intros logits k Hk. by apply first_k_bounded. Qed.

Lemma demo_update_keeps (row : list float) (stop : Beam -> bool) :
  update_keeps (Demo.callbacks row stop).
Proof. intros b b' [= <-]. apply keeps_refl. Qed.

Lemma initial_ok_tokens (h : Store) (ids : list Z) : initial_ok h [TokenIds ids].
Proof. split; [apply NoDup_nil_2|constructor]. Qed.

(** ** The cache protocol (C4) *)

(** C4: in a round that starts with a cache handle and a slot on every alive
    beam, [cache_fn] is called once, before [decode_fn], with the slots of
    the alive beams in flattened order and their lengths minus one, and
    [decode_fn] gets the cache [cache_fn] returns; with a cache handle and
    an alive beam without slot, the cache is dropped and [decode_fn] gets the
    whole context and no cache; and the slot an alive beam carries after a
    round is the position its parent had in the flattened list of that
    round. *)
Theorem cache_reorder_contract {Cache : Type} (cfg : Config) (fns : Callbacks Cache)
    (n : nat) (lp : Loop Cache) (c : Cache) :
  cache_handle lp = Some c ->
  beams lp <> [] ->
  Forall (nonempty (store (engine lp))) (beams lp) ->
  (forall f,
      cache_fn fns = Some f ->
      Forall (fun r => is_Some (cache (deref (store (engine lp)) r))) (beams lp) ->
      exists mask input_ids position_ids pad_mask rest r,
        Forall2 (fun b slot => cache (deref (store (engine lp)) b) = Some slot) (beams lp) mask
        /\ let lengths := map (fun b => beam_len (deref (store (engine lp)) b) - 1) (beams lp) in
           round cfg fns n lp
           = (CacheFn c mask lengths
                :: Decode input_ids position_ids pad_mask (Some (f c mask lengths)) :: rest, r)
           /\ Forall after_decode rest)
  /\ (Exists (fun r => cache (deref (store (engine lp)) r) = None) (beams lp) ->
      exists rest r,
        let inputs := full_inputs cfg (store (engine lp)) (beams lp) in
        round cfg fns n lp
        = (EmptyCache :: Decode inputs.1.1 inputs.1.2 inputs.2 None :: rest, r)
        /\ Forall after_decode rest)
  /\ (forall lp0 evs0,
        sampler_bounded fns -> update_keeps fns -> wf cfg n lp0 ->
        round cfg fns n lp0 = (evs0, Ok lp) ->
        forall r, r ∈ beams lp ->
          exists i parent t,
            beams lp0 !! i = Some parent
            /\ cache (deref (store (engine lp)) r) = Some i
            /\ token_ids (deref (store (engine lp)) r)
               = token_ids (deref (store (engine lp0)) parent) ++ [t]).
Proof.
  intros Hc Hne Hnon. split_and!.
  - intros f Hf Hslots. by apply round_incremental.
  - intros Hex. by apply (round_stale cfg fns n lp c).
  - intros lp0 evs0 Hsb Hup Hwf Hround r Hr.
    destruct (round_spec cfg fns n Hsb Hup lp0 lp evs0 Hwf Hround) as (_ & _ & _ & Hgrown).
    destruct (Hgrown r Hr) as (i & p & t & Hp & Ht & _ & Hslot).
    exists i, p, t. done.
Qed.

(** ** The properties on the run of [Demo.done_on_1] *)

Lemma demo_lp0_wf : wf cfg_wide 1 demo_lp0.
Proof.
  destruct (setup_spec cfg_wide Demo.done_on_1 [] [TokenIds [5]] demo_lp0) as (_ & _ & H & _).
  - apply initial_ok_tokens.
  - vm_compute. reflexivity.
  - exact H.
Qed.

Lemma demo_round_1 :
  round cfg_wide Demo.done_on_1 1 demo_lp0
  = ([Decode [[5]] [[0]] [[true]] None; Update 1%nat; Update 2%nat], Ok demo_lp1).
Proof. vm_compute. reflexivity. Qed.

Lemma cache_reorder_contract_witness :
  (exists mask input_ids position_ids pad_mask rest r,
      Forall2 (fun b slot => cache (deref (store (engine demo_lp1)) b) = Some slot)
              (beams demo_lp1) mask
      /\ let lengths := map (fun b => beam_len (deref (store (engine demo_lp1)) b) - 1)
                            (beams demo_lp1) in
         round cfg_wide Demo.done_on_1 1 demo_lp1
         = (CacheFn 1%nat mask lengths
              :: Decode input_ids position_ids pad_mask (Some 1%nat) :: rest, r)
         /\ Forall after_decode rest)
  /\ (forall r, r ∈ beams demo_lp1 ->
        exists i parent t,
          beams demo_lp0 !! i = Some parent
          /\ cache (deref (store (engine demo_lp1)) r) = Some i
          /\ token_ids (deref (store (engine demo_lp1)) r)
             = token_ids (deref (store (engine demo_lp0)) parent) ++ [t])
  /\ (exists rest r,
        let inputs := full_inputs cfg_wide (store (engine stale_lp)) (beams stale_lp) in
        round cfg_wide Demo.done_on_1 1 stale_lp
        = (EmptyCache :: Decode inputs.1.1 inputs.1.2 inputs.2 None :: rest, r)
        /\ Forall after_decode rest).
Proof.
  destruct (cache_reorder_contract cfg_wide Demo.done_on_1 1 demo_lp1 1%nat)
    as (Hcall & _ & Hslot).
  - reflexivity.
  - discriminate.
  - repeat constructor. discriminate.
  - split_and!.
    + apply (Hcall (fun c _ _ => c)); [reflexivity|]. repeat constructor. by eexists.
    + apply (Hslot demo_lp0 _ (demo_sampler_bounded _ _) (demo_update_keeps _ _)
               demo_lp0_wf demo_round_1).
    + destruct (cache_reorder_contract cfg_wide Demo.done_on_1 1 stale_lp 7%nat)
        as (_ & Hstale & _).
      * reflexivity.
      * discriminate.
      * repeat constructor. discriminate.
      * apply Hstale. by left.
Defined.

Lemma beam_search_terminates_witness :
  exists evs o,
    beam_search cfg_wide Demo.done_on_1 4 [] [TokenIds [5]] = (evs, o)
    /\ o <> OutOfFuel
    /\ (decode_calls evs <= Z.to_nat (max_length cfg_wide))%nat
    /\ (forall st outputs, o = Returned st outputs ->
                           Forall (fun l => l = []) (current_beams st)).
Proof.
  apply (beam_search_terminates cfg_wide Demo.done_on_1 4 [] [TokenIds [5]]).
  - apply demo_sampler_bounded.
  - apply demo_update_keeps.
  - apply initial_ok_tokens.
  - simpl. lia.
Defined.

(** *** A hook that takes the new token away again *)

Lemma truncating_round :
  round cfg_single truncating 1 truncating_lp1
  = ([CacheFn 1%nat [0%nat] [0]; Decode [[5]] [[0]] [[true]] (Some 1%nat); Update 0%nat],
     Ok truncating_lp1).
Proof. vm_compute. reflexivity. Qed.

Lemma run_loop_next {Cache : Type} (cfg : Config) (fns : Callbacks Cache) (n fuel : nat)
    (lp lp' : Loop Cache) (evs : list (event Cache)) :
  beams lp <> [] ->
  round cfg fns n lp = (evs, Ok lp') ->
  (run_loop cfg fns n (S fuel) lp).2 = (run_loop cfg fns n fuel lp').2.
Proof.
  intros Hne Hround. simpl. destruct (beams lp); [done|]. rewrite Hround.
  by destruct (run_loop cfg fns n fuel lp').
Qed.

(** Under the truncating hook the alive beam has one token at every test of
    the loop condition: no amount of fuel lets the run return. *)
Lemma truncating_never_returns (fuel : nat) :
  (beam_search cfg_single truncating fuel [] [TokenIds [5]]).2 = OutOfFuel.
Proof.
  assert (Hloop : forall f, (run_loop cfg_single truncating 1 f truncating_lp1).2 = OutOfFuel).
  { induction f as [|f IH]; [done|].
    rewrite (run_loop_next cfg_single truncating 1 f truncating_lp1 truncating_lp1
               [CacheFn 1%nat [0%nat] [0]; Decode [[5]] [[0]] [[true]] (Some 1%nat);
                Update 0%nat]); [exact IH|discriminate|exact truncating_round]. }
  unfold beam_search.
  change (setup cfg_single truncating [] [TokenIds [5]]) with (Ok truncating_lp0).
  change (length [TokenIds [5]]) with 1%nat.
  destruct fuel as [|fuel]; [done|].
  rewrite (run_loop_next cfg_single truncating 1 fuel truncating_lp0 truncating_lp1
             [Decode [[5]] [[0]] [[true]] None; Update 0%nat]); [apply Hloop|discriminate|].
  vm_compute. reflexivity.
Qed.

(** C8 as stated fails: [max_length] is 4, the sampler proposes one token
    per beam and the seed is a token list, but [update_fn] hands back every
    candidate cut to its first token. The alive beam then has one token at
    every test of the loop condition and [too_long] never holds of it: the
    loop does not end, whatever the number of rounds it is given, and after
    40 rounds [decode_fn] has been called 40 times. *)
Lemma hook_can_undo_growth :
  max_length cfg_single = 4
  /\ sampler_bounded truncating
  /\ initial_ok [] [TokenIds [5]]
  /\ update_fn truncating (mkBeam [5; 0] [(-1)%float] 1 (Some 0%nat) None)
     = Some (mkBeam [5] [] 1 (Some 0%nat) None)
  /\ ~ update_keeps truncating
  /\ (forall fuel, (beam_search cfg_single truncating fuel [] [TokenIds [5]]).2 = OutOfFuel)
  /\ (beam_search cfg_single truncating 40 [] [TokenIds [5]]).2 = OutOfFuel
  /\ decode_calls (beam_search cfg_single truncating 40 [] [TokenIds [5]]).1 = 40%nat.
Proof.
  split_and!.
  - reflexivity.
  - intros logits k Hk. by apply first_k_bounded.
  - apply initial_ok_tokens.
  - reflexivity.
  - intros Hkeeps.
    destruct (Hkeeps (mkBeam [5; 0] [(-1)%float] 1 (Some 0%nat) None) _ eq_refl)
      as [[Htokens _] _].
    discriminate.
  - apply truncating_never_returns.
  - vm_compute. reflexivity.
  - vm_compute. reflexivity.
Qed.

Lemma returned_within_limits_witness :
  (2 < length (store demo_final))%nat /\ within cfg_wide (deref (store demo_final) 2%nat).
Proof.
  apply (returned_within_limits cfg_wide Demo.done_on_1 4 [] [TokenIds [5]]
           demo_run.1 demo_final demo_outputs
           (demo_sampler_bounded _ _) (demo_update_keeps _ _) (initial_ok_tokens _ _))
    with (out := [2%nat; 4%nat]).
  - constructor.
  - repeat constructor. simpl. unfold len. simpl. lia.
  - vm_compute. reflexivity.
  - by left.
  - by left.
Defined.

(** C7 as stated fails: a seed longer than [max_length] is put aside as too
    long by the first [filter_beams] and, with [return_unfinished], is
    returned as it is, with three tokens under [max_length = 2]. *)
Lemma seed_over_limit :
  beam_search cfg_short Demo.never_done 5 [] [TokenIds [7; 7; 7]]
  = ([], Returned long_seed [[0%nat]])
  /\ ~ within cfg_short (deref (store long_seed) 0%nat).
Proof.
  split; [vm_compute; reflexivity|].
  intros [Hlen _]. vm_compute in Hlen. by apply Hlen.
Qed.

(** ** Logit filters and log-probabilities (C5) *)

(** C5, as the code has it: in a round, the logit filters are applied in
    sequence to the logits [decode_fn] returns and the sampler sees the
    filtered logits, so that the token of every child beam is one sampled
    from the filtered logits; the log-probability appended with it is the
    entry of [log_softmax] of the logits as [decode_fn] returned them,
    before any filter. *)
Theorem log_probs_from_unfiltered_logits {Cache : Type} (cfg : Config)
    (fns : Callbacks Cache) (n : nat) (lp lp' : Loop Cache) (evs : list (event Cache)) :
  sampler_bounded fns ->
  wf cfg n lp ->
  round cfg fns n lp = (evs, Ok lp') ->
  exists input_ids position_ids pad_mask c logits c' h' bc,
    decode_fn fns input_ids position_ids pad_mask c = (logits, c')
    /\ In (Decode input_ids position_ids pad_mask c) evs
    /\ expand cfg fns n (store (engine lp)) (beams lp) (indices lp) logits = Ok (h', bc)
    /\ let filtered :=
         fold_left (fun lg logit_fn => logit_fn lg (map (deref (store (engine lp))) (beams lp)))
                   (default [] (logit_fns fns)) logits in
       let sampled := sample_fn fns filtered (beam_width cfg) in
       forall idx child,
         child ∈ bc !!! idx ->
         exists i t p,
           proposed sampled.1 (map (map (fun x => negb (Py.is_neginf x))) sampled.2) i t
           /\ log_prob_at (log_softmax fns logits) i t p
           /\ last (token_ids (deref h' child)) = Some t
           /\ last (log_probs (deref h' child)) = Some p.
Proof.
  intros Hsb Hwf Hround.
  assert (Hdec : exists input_ids position_ids pad_mask c logits c' h' bc,
             decode_fn fns input_ids position_ids pad_mask c = (logits, c')
             /\ In (Decode input_ids position_ids pad_mask c) evs
             /\ expand cfg fns n (store (engine lp)) (beams lp) (indices lp) logits
                = Ok (h', bc)).
  { unfold round in Hround.
    destruct (prepare cfg fns lp) as [evs0 [[[[input_ids position_ids] pad_mask] c]|e]];
      [|discriminate].
    destruct (step_events cfg fns n lp input_ids position_ids pad_mask c)
      as (rest & r & Hstep & _).
    rewrite Hstep in Hround. injection Hround as <- ->.
    unfold step in Hstep.
    destruct (decode_fn fns input_ids position_ids pad_mask c) as [logits c'] eqn:Hd.
    destruct (expand _ _ _ _ _ _ _) as [[h' bc]|e] eqn:He; [|by injection Hstep].
    exists input_ids, position_ids, pad_mask, c, logits, c', h', bc.
    split_and!; [done| |done]. apply in_or_app. right. by left. }
  destruct Hdec as (input_ids & position_ids & pad_mask & c & logits & c' & h' & bc
                    & Hd & Hev & He).
  exists input_ids, position_ids, pad_mask, c, logits, c', h', bc.
  split_and!; try done. intros filtered sampled idx child Hchild.
  destruct Hwf as (_ & _ & _ & _ & W5 & W6 & W7 & _).
  assert (Hib : Forall (fun idx => (idx < n)%nat) (indices lp)).
  { rewrite W5. pose proof (flatten_Forall2 n (engine lp)) as HF.
    apply Forall_forall. intros j Hj. apply list_elem_of_lookup in Hj as [i Hi].
    destruct (Forall2_lookup_r _ _ _ _ _ HF Hi) as (r & _ & Hlt & _). done. }
  pose proof (expand_spec cfg fns n _ _ _ _ _ W7 W6 Hib Hsb He) as HE.
  cbv zeta in HE. destruct HE as (_ & _ & Hc & _). simpl in Hc.
  destruct (Hc idx child Hchild) as [_ (i & r & t & p & _ & _ & _ & Hcell & Hprop & Hlp & _)].
  exists i, t, p. split_and!; try done.
  - rewrite Hcell. simpl. apply last_snoc.
  - rewrite Hcell. simpl. apply last_snoc.
Qed.

Lemma log_probs_from_unfiltered_logits_witness :
  exists input_ids position_ids pad_mask c logits c' h' bc,
    decode_fn Demo.done_on_1 input_ids position_ids pad_mask c = (logits, c')
    /\ In (Decode input_ids position_ids pad_mask c)
          [Decode [[5]] [[0]] [[true]] None; Update 1%nat; Update 2%nat]
    /\ expand cfg_wide Demo.done_on_1 1 (store (engine demo_lp0)) (beams demo_lp0)
              (indices demo_lp0) logits = Ok (h', bc)
    /\ let filtered :=
         fold_left (fun lg logit_fn =>
                      logit_fn lg (map (deref (store (engine demo_lp0))) (beams demo_lp0)))
                   (default [] (logit_fns Demo.done_on_1)) logits in
       let sampled := sample_fn Demo.done_on_1 filtered (beam_width cfg_wide) in
       forall idx child,
         child ∈ bc !!! idx ->
         exists i t p,
           proposed sampled.1 (map (map (fun x => negb (Py.is_neginf x))) sampled.2) i t
           /\ log_prob_at (log_softmax Demo.done_on_1 logits) i t p
           /\ last (token_ids (deref h' child)) = Some t
           /\ last (log_probs (deref h' child)) = Some p.
Proof.
  apply (log_probs_from_unfiltered_logits cfg_wide Demo.done_on_1 1 demo_lp0 demo_lp1).
  - apply demo_sampler_bounded.
  - apply demo_lp0_wf.
  - apply demo_round_1.
Defined.

(** C5 as stated fails. The decoder gives two tokens the logit [log(1/2)]
    each and the filter forbids token 1. The child beam gets token 0 with
    the log-probability [log(1/2)] of the unfiltered logits; the filtered
    logits give token 0 the log-probability 0. *)
Lemma filtered_logits_not_scored :
  (decode_fn banning [[7]] [[0]] [[true]] None).1 = [[log_half; log_half]]
  /\ expand cfg_wide banning 1 [new_beam [7]] [0%nat] [0%nat] [[log_half; log_half]]
     = Ok banning_expanded
  /\ last (token_ids (deref banning_expanded.1 1%nat)) = Some 0
  /\ last (log_probs (deref banning_expanded.1 1%nat)) = Some log_half
  /\ log_prob_at
       (log_softmax banning
          (apply_logit_fns banning [[log_half; log_half]] [new_beam [7]])) 0 0 0%float
  /\ log_half <> 0%float.
Proof.
  split_and!; try (vm_compute; reflexivity).
  - exists [0%float; neg_infinity]. split; vm_compute; reflexivity.
  - intros H. apply (f_equal (fun x => PrimFloat.eqb x 0)) in H.
    vm_compute in H. discriminate.
Qed.

(** * Further properties of the code *)

(** ** Set-up of a valid call *)

(** A loop whose body succeeds wherever the invariant holds runs to its
    end. *)
Lemma for_each_ok {A St} (P : nat -> St -> Prop) (body : St -> A -> result St)
    (xs : list A) (st : St) :
  P 0%nat st ->
  (forall i x s, xs !! i = Some x -> P i s -> exists s', body s x = Ok s' /\ P (S i) s') ->
  exists st', for_each body xs st = Ok st' /\ P (length xs) st'.
Proof.
  revert P st. induction xs as [|x xs IH]; intros P st H0 Hstep; simpl.
  - eauto.
  - destruct (Hstep 0%nat x st eq_refl H0) as (s1 & -> & H1).
    apply (IH (fun i => P (S i)) s1); [done|].
    intros i y s Hy. by apply (Hstep (S i)).
Qed.

Lemma valid_config_checks (cfg : Config) :
  valid_config cfg ->
  negb (match max_new_tokens cfg with None => true | Some n => 0 <? n end) = false
  /\ negb (valid_stop_condition (stop_condition cfg)) = false
  /\ negb (1 <=? beam_width cfg) = false.
Proof.
  intros (Hm & Hs & Hw). split_and!.
  - destruct (max_new_tokens cfg) as [n|]; [|done].
    apply negb_false_iff, Z.ltb_lt. by apply Hm.
  - by rewrite Hs.
  - apply negb_false_iff, Z.leb_le. done.
Qed.

Section Accept.

Context {Cache : Type}.
Variable cfg : Config.
Variable fns : Callbacks Cache.

Lemma init_loop_ok (h : Store) (initial : list Init) :
  Forall (seed_ok h) initial ->
  forall st extra, store st = h ++ extra ->
  exists st' cur,
    for_each init_element initial st = Ok st'
    /\ current_beams st' = current_beams st ++ cur
    /\ length cur = length initial
    /\ Forall (fun l : list nat => length l = 1%nat) cur
    /\ finished_beams st' = finished_beams st ++ replicate (length initial) []
    /\ too_long_beams st' = too_long_beams st ++ replicate (length initial) [].
Proof.
  induction 1 as [|init initial Hseed _ IH]; intros st extra Hst.
  - exists st, []. simpl. by rewrite !app_nil_r.
  - cbn [for_each]. unfold init_element at 1.
    assert (Hpos : (0 <? match init with
                         | TokenIds ids => len ids
                         | BeamObject r => beam_len (deref (store st) r)
                         end) = true).
    { apply Z.ltb_lt. destruct init as [ids|r]; simpl in Hseed.
      - unfold len. destruct ids; [done|]. simpl. lia.
      - destruct Hseed as [Hr Hne]. rewrite Hst, deref_app_l by done.
        unfold beam_len. destruct (token_ids (deref h r)); [done|]. simpl. lia. }
    rewrite Hpos.
    destruct (match init with
              | TokenIds ids => alloc (store st) (new_beam ids)
              | BeamObject r => (store st, r)
              end) as [h1 r1] eqn:Hal.
    assert (Hext : exists extra', h1 = h ++ extra').
    { destruct init as [ids|r]; injection Hal as <- <-.
      - exists (extra ++ [new_beam ids]). by rewrite Hst, app_assoc.
      - by exists extra. }
    destruct Hext as [extra' Hh1].
    match goal with |- context [for_each _ initial ?s] =>
      destruct (IH s extra' Hh1) as (st' & cur & Hrun & Hc & Hl & Hs & Hf & Ht) end.
    exists st', ([r1] :: cur). rewrite Hrun. cbn [current_beams finished_beams too_long_beams] in *.
    split_and!; [done| | | | |].
    + by rewrite Hc, <- app_assoc.
    + simpl. by rewrite Hl.
    + by constructor.
    + rewrite Hf, <- app_assoc. done.
    + rewrite Ht, <- app_assoc. done.
Qed.

(** Classification at set-up: the only beam of the element is asked about,
    and no stop condition applies, since the element has finished nothing
    while its beam is alive. *)
Lemma filter_element_seed (st : State) (idx : nat) (r : ref) :
  1 <= beam_width cfg ->
  (idx < length (current_beams st))%nat ->
  (idx < length (finished_beams st))%nat ->
  current_beams st !!! idx = [r] ->
  finished_beams st !!! idx = [] ->
  exists st',
    filter_element cfg fns st idx = Ok st'
    /\ length (current_beams st') = length (current_beams st)
    /\ length (finished_beams st') = length (finished_beams st)
    /\ length (too_long_beams st') = length (too_long_beams st)
    /\ (forall j, j <> idx -> current_beams st' !!! j = current_beams st !!! j
                              /\ finished_beams st' !!! j = finished_beams st !!! j).
Proof.
  intros Hw Hic Hif Hcur Hfin. unfold filter_element, classify. rewrite Hcur.
  cbn [fold_left]. rewrite classify_beam_spec.
  destruct (is_alive cfg fns (store st) r) eqn:Ha.
  - assert (Hd : is_done fns (store st) r = false).
    { unfold is_alive, is_done in *. by destruct (stop_fn fns _). }
    rewrite Hd. cbn [app].
    cbn [with_current current_beams finished_beams too_long_beams store].
    rewrite Hfin. change (len [] <? beam_width cfg) with (0 <? beam_width cfg).
    replace (0 <? beam_width cfg) with true by (symmetry; apply Z.ltb_lt; lia).
    eexists. split; [done|]. cbn [with_current current_beams finished_beams too_long_beams].
    rewrite length_insert. split_and!; try done.
    + by destruct (is_long cfg fns (store st) r); rewrite ?length_append_at.
    + intros j Hj. split; [|done]. rewrite !list_lookup_total_alt.
      by rewrite list_lookup_insert_ne.
  - cbn [app]. eexists. split; [done|].
    cbn [with_current current_beams finished_beams too_long_beams].
    rewrite length_insert. split_and!; try done.
    + by destruct (is_done fns (store st) r); rewrite ?length_append_at.
    + by destruct (is_long cfg fns (store st) r); rewrite ?length_append_at.
    + intros j Hj. split.
      * rewrite !list_lookup_total_alt. by rewrite list_lookup_insert_ne.
      * destruct (is_done fns (store st) r); [|done].
        unfold append_at. rewrite !list_lookup_total_alt.
        by rewrite list_lookup_alter_ne.
Qed.

Lemma setup_ok (h : Store) (initial : list Init) :
  valid_config cfg -> Forall (seed_ok h) initial ->
  exists lp,
    setup cfg fns h initial = Ok lp
    /\ cache_handle lp = None
    /\ length (current_beams (engine lp)) = length initial
    /\ length (finished_beams (engine lp)) = length initial
    /\ length (too_long_beams (engine lp)) = length initial
    /\ beams lp = (flatten (length initial) (engine lp)).1
    /\ indices lp = (flatten (length initial) (engine lp)).2.
Proof.
  intros Hcfg Hseeds. pose proof Hcfg as (_ & _ & Hw).
  destruct (valid_config_checks cfg Hcfg) as (C1 & C2 & C3).
  unfold setup. rewrite C1, C2, C3.
  destruct (init_loop_ok h initial Hseeds (mkState h [] [] []) [])
    as (st & cur & Hrun & Hc & Hl & Hs & Hf & Ht); [by rewrite app_nil_r|].
  rewrite Hrun. cbn [mbind result_bind]. simpl in Hc, Hf, Ht.
  set (n := length initial) in *.
  destruct (for_each_ok
              (fun i s =>
                 length (current_beams s) = n /\ length (finished_beams s) = n
                 /\ length (too_long_beams s) = n
                 /\ forall j, (i <= j < n)%nat ->
                              length (current_beams s !!! j) = 1%nat
                              /\ finished_beams s !!! j = [])
              (filter_element cfg fns) (seq 0 n) st) as (st' & Hfilter & Hinv).
  - rewrite Hc, Hf, Ht, length_replicate. split_and!; try done.
    intros j Hj. split.
    + rewrite Forall_forall in Hs. apply Hs.
      apply list_elem_of_lookup_total_2. lia.
    + by rewrite lookup_total_replicate_2 by lia.
  - intros i x s Hx (I1 & I2 & I3 & I4).
    apply lookup_seq in Hx as [-> Hi]. simpl.
    destruct (I4 i) as [Hone Hnone]; [lia|].
    destruct (current_beams s !!! i) as [|r [|]] eqn:Hcur; try done.
    destruct (filter_element_seed s i r) as (s' & Hs' & J1 & J2 & J3 & J4);
      [done|lia|lia|done|done|].
    exists s'. split; [done|]. split_and!; try lia.
    intros j Hj. destruct (J4 j) as [-> ->]; [lia|]. apply I4. lia.
  - unfold filter_beams. rewrite Hfilter. cbn [mbind result_bind].
    destruct (flatten n st') as [bs ix] eqn:Hflat.
    eexists. split; [done|]. simpl. rewrite length_seq in Hinv.
    destruct Hinv as (I1 & I2 & I3 & _). by rewrite Hflat.
Qed.

End Accept.

(** X1: a call with a valid configuration ([max_new_tokens] [None] or
    positive, one of the three stop conditions, [beam_width >= 1]) and
    non-empty seeds passes the whole set-up without an error: the loop is
    entered with no cache and with one alive, one finished and one too-long
    list per entry of [initial]. *)
Theorem setup_accepts {Cache : Type} (cfg : Config) (fns : Callbacks Cache) (h : Store)
    (initial : list Init) :
  valid_config cfg -> Forall (seed_ok h) initial ->
  exists lp,
    setup cfg fns h initial = Ok lp
    /\ cache_handle lp = None
    /\ length (current_beams (engine lp)) = length initial
    /\ length (finished_beams (engine lp)) = length initial
    /\ length (too_long_beams (engine lp)) = length initial.
Proof.
  intros Hcfg Hseeds.
  destruct (setup_ok cfg fns h initial Hcfg Hseeds) as (lp & H1 & H2 & H3 & H4 & H5 & _).
  by exists lp.
Qed.

Lemma setup_accepts_witness :
  exists lp,
    setup cfg_wide Demo.done_on_1 [] [TokenIds [5]] = Ok lp
    /\ cache_handle lp = None
    /\ length (current_beams (engine lp)) = 1%nat
    /\ length (finished_beams (engine lp)) = 1%nat
    /\ length (too_long_beams (engine lp)) = 1%nat.
Proof.
  apply (setup_accepts cfg_wide Demo.done_on_1 [] [TokenIds [5]]).
  - split_and!; [intros n [=]|reflexivity|simpl; lia].
  - repeat constructor. discriminate.
Defined.

(** X2: with a valid configuration and an empty [initial], [beam_search]
    returns the empty list at once: no callback is called and nothing is
    yielded. *)
Theorem empty_batch {Cache : Type} (cfg : Config) (fns : Callbacks Cache) (fuel : nat)
    (h : Store) :
  valid_config cfg ->
  beam_search cfg fns fuel h [] = ([], Returned (mkState h [] [] []) []).
Proof.
  intros Hcfg. destruct (valid_config_checks cfg Hcfg) as (C1 & C2 & C3).
  unfold beam_search, setup. rewrite C1, C2, C3. simpl.
  by destruct fuel.
Qed.

Lemma empty_batch_witness :
  beam_search cfg_wide Demo.never_done 0 [] [] = ([], Returned (mkState [] [] [] []) []).
Proof.
  apply (empty_batch cfg_wide Demo.never_done 0 []).
  split_and!; [intros n [=]|reflexivity|simpl; lia].
Defined.

(** ** What is validated, and what is not (C9) *)

(** With [max_length <= 0] every beam is too long. *)
Lemma too_long_without_room (cfg : Config) (b : Beam) :
  max_length cfg <= 0 -> too_long cfg b = true.
Proof.
  intros Hm. unfold too_long.
  replace (max_length cfg <=? beam_len b) with true; [done|].
  symmetry. apply Z.leb_le. unfold beam_len. lia.
Qed.

(** C9, as the code has it: a [max_new_tokens] that is neither [None] nor
    positive, a [stop_condition] outside the three names, a [beam_width]
    below 1 and an empty entry of [initial] each make [beam_search] raise an
    AssertionError before anything else happens: no call of [decode_fn], of
    [cache_fn] or of [update_fn], and nothing yielded. [max_length] is not
    among the values checked: a call with [max_length <= 0] whose
    configuration is valid otherwise, whose seeds are not empty and whose
    objects of the caller are distinct raises nothing; it returns, without
    a call of [decode_fn] and with nothing yielded. *)
Theorem beam_search_rejects {Cache : Type} (cfg : Config) (fns : Callbacks Cache)
    (fuel : nat) (h : Store) (initial : list Init) :
  (rejected cfg h initial ->
   exists msg, beam_search cfg fns fuel h initial = ([], Raised (AssertionError msg)))
  /\ (valid_config cfg -> max_length cfg <= 0 ->
      initial_ok h initial -> Forall (seed_ok h) initial ->
      exists st outputs, beam_search cfg fns fuel h initial = ([], Returned st outputs)).
Proof.
  split.
  - intros Hrej. destruct (setup_rejects cfg fns h initial Hrej) as [msg Hmsg].
    exists msg. unfold beam_search. by rewrite Hmsg.
  - intros Hcfg Hmax Hok Hseeds.
    destruct (setup_ok cfg fns h initial Hcfg Hseeds) as (lp & Hsetup & _).
    destruct (setup_spec cfg fns h initial lp Hok Hsetup) as (_ & _ & Hwf & _).
    destruct Hwf as (_ & _ & _ & _ & _ & _ & _ & W8 & _).
    assert (Hnone : beams lp = []).
    { destruct (beams lp) as [|r rest] eqn:Hb; [done|].
      specialize (W8 r ltac:(by left)).
      by rewrite too_long_without_room in W8. }
    unfold beam_search. rewrite Hsetup.
    destruct (get_outputs cfg fns (length initial) (engine lp)) as [st outputs] eqn:Hgo.
    exists st, outputs. destruct fuel; simpl; by rewrite Hnone, Hgo.
Qed.

Lemma beam_search_rejects_witness :
  (exists msg,
      beam_search (mkConfig 0 4 0 "max_score" None false false) Demo.never_done 5 []
                  [TokenIds [7]]
      = ([], Raised (AssertionError msg)))
  /\ (exists st outputs,
         beam_search cfg_zero Demo.done_on_1 5 [] [TokenIds [7; 1]]
         = ([], Returned st outputs)).
Proof.
  split.
  - apply (beam_search_rejects (mkConfig 0 4 0 "max_score" None false false)).
    right. right. left. simpl. lia.
  - apply (beam_search_rejects cfg_zero Demo.done_on_1 5 [] [TokenIds [7; 1]]).
    + split_and!; [intros n [=]|reflexivity|simpl; lia].
    + simpl. lia.
    + apply initial_ok_tokens.
    + repeat constructor. discriminate.
Defined.

(** C9 as stated fails: with [max_length = 0] and an otherwise valid
    configuration the run raises nothing; it returns, here with the seed
    put aside as too long. *)
Lemma max_length_not_validated :
  beam_search (mkConfig 0 0 2 "estimated_score" None false false) Demo.never_done 5 []
              [TokenIds [7]]
  = ([], Returned (mkState [mkBeam [7] [] 1 None (Some "length"%string)] [[]] [[]] [[0%nat]])
                  [[]]).
Proof. vm_compute. reflexivity. Qed.

(** ** The estimated-score stop condition *)

(** X3: under ["estimated_score"], for an element that keeps alive beams
    after classification and has [beam_width] finished ones, [best] is the
    greatest score of an alive beam and [worst] the least score of a
    finished one, each beam scored at its current length, as Python's [max]
    and [min] find them; the alive beams are dropped exactly when
    [worst >= best]: when no score is NaN, exactly when every finished
    score is [>=] every alive one. *)
Theorem estimated_score_rule {Cache : Type} (cfg : Config) (fns : Callbacks Cache)
    (st st1 : State) (idx : nat) (new_beams : list ref) :
  stop_condition cfg = "estimated_score"%string ->
  1 <= beam_width cfg ->
  classify cfg fns idx st = (st1, new_beams) ->
  new_beams <> [] ->
  beam_width cfg <= len (finished_beams st1 !!! idx) ->
  (idx < length (current_beams st1))%nat ->
  let current := map (fun r => score_fn fns (deref (store st1) r) None) new_beams in
  let finished :=
    map (fun r => score_fn fns (deref (store st1) r) None) (finished_beams st1 !!! idx) in
  exists best worst,
    Py.max_opt current = Some best
    /\ worst = Py.min_default neg_infinity finished
    /\ greatest current best
    /\ least finished worst
    /\ (no_nan (fun x => x) current -> no_nan (fun x => x) finished ->
        Py.ge worst best = true
        <-> forall f a, f ∈ finished -> a ∈ current -> Py.ge f a = true)
    /\ filter_element cfg fns st idx
       = Ok (with_current st1
               (<[idx := if Py.ge worst best then [] else new_beams]> (current_beams st1))).
Proof.
  intros Hsc Hw Hcl Hne Hfin Hidx current finished.
  assert (Hcur : exists best, Py.max_opt current = Some best).
  { unfold current. destruct new_beams; [done|]. simpl. eauto. }
  destruct Hcur as [best Hbest]. exists best, (Py.min_default neg_infinity finished).
  pose proof (max_opt_greatest current best Hbest) as Hgreat.
  assert (Hleast : least finished (Py.min_default neg_infinity finished)).
  { apply min_default_least. unfold finished.
    destruct (finished_beams st1 !!! idx); [|done]. unfold len in Hfin. simpl in Hfin. lia. }
  split; [done|]. split; [done|]. split; [done|]. split; [done|]. split.
  { intros Hnc Hnf. by apply least_ge_greatest. }
  unfold filter_element. rewrite Hcl.
  destruct new_beams as [|r0 rest]; [done|].
  set (nb := r0 :: rest) in *.
  replace (len (finished_beams (with_current st1 (<[idx:=nb]> (current_beams st1))) !!! idx)
             <? beam_width cfg) with false
    by (symmetry; apply Z.ltb_ge; exact Hfin).
  rewrite Hsc. change (String.eqb "estimated_score" "max_outputs") with false. cbv iota.
  unfold best_current. rewrite Hsc.
  change (String.eqb "estimated_score" "estimated_score") with true. cbv iota.
  cbn [current_beams with_current store].
  rewrite list_lookup_total_insert_eq by done.
  unfold score. fold current. rewrite Hbest. simpl.
  unfold worst_finished, score. cbn [finished_beams with_current store]. fold finished.
  rewrite list_insert_insert_eq.
  destruct (Py.ge _ best); done.
Qed.

Lemma estimated_score_rule_witness :
  exists best worst,
    Py.max_opt (map (fun r => score_fn scored (deref (store four_classified) r) None)
                    [2%nat; 3%nat]) = Some best
    /\ worst
       = Py.min_default neg_infinity
           (map (fun r => score_fn scored (deref (store four_classified) r) None)
                (finished_beams four_classified !!! 0%nat))
    /\ greatest (map (fun r => score_fn scored (deref (store four_classified) r) None)
                     [2%nat; 3%nat]) best
    /\ least (map (fun r => score_fn scored (deref (store four_classified) r) None)
                  (finished_beams four_classified !!! 0%nat)) worst
    /\ (no_nan (fun x => x)
          (map (fun r => score_fn scored (deref (store four_classified) r) None)
               [2%nat; 3%nat]) ->
        no_nan (fun x => x)
          (map (fun r => score_fn scored (deref (store four_classified) r) None)
               (finished_beams four_classified !!! 0%nat)) ->
        Py.ge worst best = true
        <-> forall f a,
              f ∈ map (fun r => score_fn scored (deref (store four_classified) r) None)
                      (finished_beams four_classified !!! 0%nat) ->
              a ∈ map (fun r => score_fn scored (deref (store four_classified) r) None)
                      [2%nat; 3%nat] ->
              Py.ge f a = true)
    /\ filter_element cfg_wide scored four_beams 0
       = Ok (with_current four_classified
               (<[0%nat := if Py.ge worst best then [] else [2%nat; 3%nat]]>
                  (current_beams four_classified))).
Proof.
  apply (estimated_score_rule cfg_wide scored four_beams four_classified 0 [2%nat; 3%nat]).
  - reflexivity.
  - simpl. lia.
  - vm_compute. reflexivity.
  - discriminate.
  - vm_compute. discriminate.
  - simpl. lia.
Defined.

(** ** What [get_outputs] gives *)

Lemma length_slice_to {A} (n : Z) (l : list A) :
  0 <= n -> len (Py.slice_to n l) = Z.min n (len l).
Proof.
  intros Hn. unfold Py.slice_to, len.
  replace (0 <=? n) with true by (symmetry; apply Z.leb_le; lia).
  rewrite length_take. lia.
Qed.

Section Rows.

Context {Cache : Type}.
Variable cfg : Config.
Variable fns : Callbacks Cache.

(** Element by element: the finished list is back-filled, and the output
    is the best [beam_width] of what it then holds. *)
Lemma get_outputs_rows (n : nat) (st st' : State) (outputs : list (list ref)) :
  length (finished_beams st) = n ->
  get_outputs cfg fns n st = (st', outputs) ->
  length outputs = n
  /\ forall idx, (idx < n)%nat ->
       finished_beams st' !!! idx = backfilled cfg fns st idx
       /\ outputs !! idx
          = Some (Py.slice_to (beam_width cfg)
                    (Py.sorted_desc (score fns (store st)) (backfilled cfg fns st idx))).
Proof.
  intros Hlen Hrun. unfold get_outputs in Hrun.
  pose (P := fun (i : nat) (s : State * list (list ref)) =>
    store s.1 = store st
    /\ too_long_beams s.1 = too_long_beams st
    /\ length (finished_beams s.1) = n
    /\ (forall idx, (i <= idx)%nat ->
                    finished_beams s.1 !!! idx = finished_beams st !!! idx)
    /\ length s.2 = i
    /\ (forall idx, (idx < i)%nat ->
          finished_beams s.1 !!! idx = backfilled cfg fns st idx
          /\ s.2 !! idx
             = Some (Py.slice_to (beam_width cfg)
                       (Py.sorted_desc (score fns (store st)) (backfilled cfg fns st idx))))).
  assert (HP : P (length (seq 0 n)) (st', outputs)).
  { rewrite <- Hrun. apply fold_left_inv.
    - unfold P. simpl. split_and!; try done. intros idx Hidx. lia.
    - intros i x [s outs] Hx (P1 & P2 & P3 & P4 & P5 & P6).
      apply lookup_seq in Hx as [-> Hi]. simpl in *.
      unfold get_outputs_element.
      assert (Hrow : (if return_unfinished cfg && (len (finished_beams s !!! i) <? beam_width cfg)
                      then finished_beams s !!! i
                           ++ Py.slice_to (beam_width cfg - len (finished_beams s !!! i))
                                (Py.sorted_desc (score fns (store s)) (too_long_beams s !!! i))
                      else finished_beams s !!! i) = backfilled cfg fns st i).
      { unfold backfilled. cbv zeta. by rewrite P1, P2, P4 by lia. }
      destruct (return_unfinished cfg && (len (finished_beams s !!! i) <? beam_width cfg))
        eqn:Hback; unfold P; simpl.
      + split_and!; try done.
        * by rewrite length_insert.
        * intros idx Hidx. rewrite list_lookup_total_insert_ne by lia. apply P4. lia.
        * rewrite length_app. simpl. lia.
        * intros idx Hidx. destruct (decide (idx = i)) as [->|Hne].
          -- rewrite list_lookup_total_insert_eq by lia. split; [done|].
             rewrite lookup_app_r by lia. rewrite P5, Nat.sub_diag. simpl.
             by rewrite Hrow, P1.
          -- rewrite list_lookup_total_insert_ne by done.
             rewrite lookup_app_l by lia. apply P6. lia.
      + split_and!; try done.
        * intros idx Hidx. apply P4. lia.
        * rewrite length_app. simpl. lia.
        * intros idx Hidx. destruct (decide (idx = i)) as [->|Hne].
          -- split; [done|]. rewrite lookup_app_r by lia. rewrite P5, Nat.sub_diag. simpl.
             by rewrite Hrow, P1.
          -- rewrite lookup_app_l by lia. apply P6. lia. }
  rewrite length_seq in HP. destruct HP as (_ & _ & _ & _ & P5 & P6). done.
Qed.

Lemma get_outputs_shape (n : nat) (st : State) :
  0 <= beam_width cfg -> output_shape cfg n (get_outputs cfg fns n st).2.
Proof.
  intros Hw. unfold get_outputs.
  pose (P := fun (i : nat) (s : State * list (list ref)) =>
               length s.2 = i /\ Forall (fun out => len out <= beam_width cfg) s.2).
  assert (HP : P (length (seq 0 n)) (fold_left (get_outputs_element cfg fns) (seq 0 n) (st, []))).
  { apply fold_left_inv.
    - by split.
    - intros i x [s outs] _ [P1 P2]. unfold get_outputs_element, P. simpl in *. split.
      + rewrite length_app. simpl. lia.
      + apply Forall_app. split; [done|]. constructor; [|done].
        rewrite length_slice_to by done. lia. }
  rewrite length_seq in HP. exact HP.
Qed.

(** Without back-filling [get_outputs] leaves the engine as it is. *)
Lemma get_outputs_same (n : nat) (st : State) :
  (return_unfinished cfg = false
   \/ forall idx, (idx < n)%nat -> beam_width cfg <= len (finished_beams st !!! idx)) ->
  (get_outputs cfg fns n st).1 = st.
Proof.
  intros Hno. unfold get_outputs.
  assert (HP : (fun (i : nat) (s : State * list (list ref)) => s.1 = st)
                 (length (seq 0 n))
                 (fold_left (get_outputs_element cfg fns) (seq 0 n) (st, []))).
  { apply (fold_left_inv (fun (i : nat) (s : State * list (list ref)) => s.1 = st)); [done|].
    intros i x [s outs] Hx Hs. apply lookup_seq in Hx as [-> Hi]. simpl in *. subst s.
    unfold get_outputs_element.
    replace (return_unfinished cfg && (len (finished_beams st !!! i) <? beam_width cfg))
      with false; [done|].
    symmetry. destruct Hno as [->|Hno]; [done|].
    apply andb_false_iff. right. apply Z.ltb_ge. by apply Hno. }
  exact HP.
Qed.

End Rows.

(** X4: [get_outputs] only reads the engine's lists when it has nothing
    to back-fill: with [return_unfinished] off, or when every element has
    [beam_width] finished beams, the engine state is the same after the
    call as before. *)
Theorem get_outputs_reads_only {Cache : Type} (cfg : Config) (fns : Callbacks Cache)
    (n : nat) (st : State) :
  (return_unfinished cfg = false
   \/ forall idx, (idx < n)%nat -> beam_width cfg <= len (finished_beams st !!! idx)) ->
  (get_outputs cfg fns n st).1 = st.
Proof. apply get_outputs_same. Qed.

Lemma get_outputs_reads_only_witness :
  (get_outputs cfg_wide Demo.done_on_1 1 two_finished).1 = two_finished.
Proof.
  apply (get_outputs_reads_only cfg_wide Demo.done_on_1 1 two_finished).
  left. reflexivity.
Defined.

(** X5: the number of beams [get_outputs] gives for an element: the
    finished beams, together with the too-long ones under
    [return_unfinished], but no more than [beam_width]. *)
Theorem outputs_count {Cache : Type} (cfg : Config) (fns : Callbacks Cache) (n : nat)
    (st : State) (idx : nat) :
  0 <= beam_width cfg ->
  length (finished_beams st) = n ->
  (idx < n)%nat ->
  exists out,
    (get_outputs cfg fns n st).2 !! idx = Some out
    /\ len out
       = Z.min (beam_width cfg)
           (len (finished_beams st !!! idx)
            + if return_unfinished cfg then len (too_long_beams st !!! idx) else 0).
Proof.
  intros Hw Hlen Hidx.
  destruct (get_outputs cfg fns n st) as [st' outputs] eqn:Hrun.
  destruct (get_outputs_rows cfg fns n st st' outputs Hlen Hrun) as [_ Hrows].
  destruct (Hrows idx Hidx) as [_ Hout]. eexists. split; [exact Hout|].
  rewrite length_slice_to by done.
  assert (Hsorted : forall l : list ref, len (Py.sorted_desc (score fns (store st)) l) = len l).
  { intros l. unfold len. by rewrite sorted_desc_perm. }
  rewrite Hsorted. unfold backfilled. cbv zeta.
  destruct (return_unfinished cfg); simpl.
  - destruct (len (finished_beams st !!! idx) <? beam_width cfg) eqn:Hlt.
    + apply Z.ltb_lt in Hlt.
      assert (Hroom : 0 <= beam_width cfg - len (finished_beams st !!! idx))
        by (unfold len in *; lia).
      pose proof (length_slice_to (beam_width cfg - len (finished_beams st !!! idx))
                    (Py.sorted_desc (score fns (store st)) (too_long_beams st !!! idx))
                    Hroom) as Hs.
      rewrite Hsorted in Hs. unfold len in *. rewrite length_app. lia.
    + apply Z.ltb_ge in Hlt. unfold len in *. lia.
  - unfold len. lia.
Qed.

Lemma outputs_count_witness :
  exists out,
    (get_outputs cfg_short Demo.never_done 1 long_seed).2 !! 0%nat = Some out
    /\ len out
       = Z.min (beam_width cfg_short)
           (len (finished_beams long_seed !!! 0%nat)
            + if return_unfinished cfg_short then len (too_long_beams long_seed !!! 0%nat)
              else 0).
Proof.
  apply (outputs_count cfg_short Demo.never_done 1 long_seed 0).
  - simpl. lia.
  - reflexivity.
  - lia.
Defined.

(** ** The inputs of the decoder *)

Lemma fold_max_nat (l : list nat) (a : nat) :
  (a <= fold_left Nat.max l a)%nat
  /\ (forall x, x ∈ l -> (x <= fold_left Nat.max l a)%nat)
  /\ (fold_left Nat.max l a = a \/ fold_left Nat.max l a ∈ l).
Proof.
  revert a. induction l as [|x l IH]; intros a; simpl.
  - split_and!; [lia| |by left]. intros x Hx. by apply elem_of_nil in Hx.
  - destruct (IH (Nat.max a x)) as (I1 & I2 & I3). split_and!.
    + lia.
    + intros y Hy. apply elem_of_cons in Hy as [->|Hy]; [lia|by apply I2].
    + destruct I3 as [I3|I3]; [|right; by right].
      destruct (Nat.max_spec a x) as [[_ Hm]|[_ Hm]]; rewrite Hm in *.
      * right. rewrite I3. by left.
      * by left.
Qed.

Lemma fold_max_Z (l : list Z) (a : Z) :
  a <= fold_left Z.max l a
  /\ (forall x, x ∈ l -> x <= fold_left Z.max l a)
  /\ (fold_left Z.max l a = a \/ fold_left Z.max l a ∈ l).
Proof.
  revert a. induction l as [|x l IH]; intros a; simpl.
  - split_and!; [lia| |by left]. intros x Hx. by apply elem_of_nil in Hx.
  - destruct (IH (Z.max a x)) as (I1 & I2 & I3). split_and!.
    + lia.
    + intros y Hy. apply elem_of_cons in Hy as [->|Hy]; [lia|by apply I2].
    + destruct I3 as [I3|I3]; [|right; by right].
      destruct (Z.max_spec a x) as [[_ Hm]|[_ Hm]]; rewrite Hm in *.
      * right. rewrite I3. by left.
      * by left.
Qed.

Lemma longest_unique (h : Store) (beams : list ref) (W W' : nat) :
  longest h beams W -> longest h beams W' -> W = W'.
Proof.
  intros [H1 (r & Hr & <-)] [H1' (r' & Hr' & <-)].
  pose proof (H1 r' Hr'). pose proof (H1' r Hr). lia.
Qed.

(** [torch.cumsum(mask) - 1], zeroed off the mask, on a row that is padded
    on the left. *)
Lemma positions_true (m : nat) (count : Z) :
  positions count (replicate m true) = map (fun j => count + Z.of_nat j) (seq 0 m).
Proof.
  revert count. induction m as [|m IH]; intros count; [done|].
  cbn [replicate positions seq map]. rewrite IH. f_equal; [lia|].
  rewrite <- seq_shift, map_map. apply map_ext. intros j. lia.
Qed.

Lemma positions_left_padded (k m : nat) :
  positions 0 (replicate k false ++ replicate m true)
  = replicate k 0 ++ map Z.of_nat (seq 0 m).
Proof.
  induction k as [|k IH]; simpl.
  - rewrite positions_true. apply map_ext. intros j. lia.
  - by rewrite IH.
Qed.

Lemma mask_left_padded (pad : Z) (k : nat) (toks : list Z) :
  pad ∉ toks ->
  map (fun t => negb (t =? pad)) (replicate k pad ++ toks)
  = replicate k false ++ replicate (length toks) true.
Proof.
  intros Hno. rewrite map_app. f_equal.
  - induction k as [|k IH]; [done|]. simpl. by rewrite IH, Z.eqb_refl.
  - induction toks as [|t toks IH]; [done|]. simpl.
    apply not_elem_of_cons in Hno as [Hne Hno]. rewrite IH by done.
    by replace (t =? pad) with false by (symmetry; apply Z.eqb_neq; done).
Qed.

Section Inputs.

Variable cfg : Config.
Variable h : Store.
Variable beams : list ref.

Lemma context_width :
  beams <> [] ->
  longest h beams
    (fold_left Nat.max (map (@length Z) (map (fun r => token_ids (deref h r)) beams)) 0%nat).
Proof.
  intros Hne.
  destruct (fold_max_nat (map (@length Z) (map (fun r => token_ids (deref h r)) beams)) 0)
    as (_ & Hle & Hin).
  split.
  - intros r Hr. apply Hle. rewrite map_map.
    apply list_elem_of_fmap. by exists r.
  - destruct Hin as [Hz|Hin].
    + destruct beams as [|r l]; [done|]. exists r. split; [by left|].
      pose proof (Hle (length (token_ids (deref h r)))) as Hr.
      rewrite Hz in *. specialize (Hr ltac:(simpl; by left)). lia.
    + rewrite map_map in Hin. apply list_elem_of_fmap in Hin as (r & Heq & Hr).
      exists r. split; [done|]. rewrite map_map. by rewrite Heq.
Qed.

(** The rows [pad_sequence(..., padding_side="left")] and the two
    statements after it make of a beam without a pad token. *)
Lemma full_inputs_rows (W : nat) (i : nat) (r : ref) :
  longest h beams W ->
  beams !! i = Some r ->
  let toks := token_ids (deref h r) in
  let k := (W - length toks)%nat in
  (full_inputs cfg h beams).1.1 !! i = Some (replicate k (pad_token_id cfg) ++ toks)
  /\ (pad_token_id cfg ∉ toks ->
      (full_inputs cfg h beams).1.2 !! i
      = Some (replicate k 0 ++ map Z.of_nat (seq 0 (length toks)))
      /\ (full_inputs cfg h beams).2 !! i
         = Some (replicate k false ++ replicate (length toks) true)).
Proof.
  intros HW Hr toks k.
  assert (Hne : beams <> []) by (intros ->; done).
  pose proof (longest_unique _ _ _ _ (context_width Hne) HW) as Hw.
  unfold full_inputs. cbv zeta. cbn [fst snd]. rewrite Hw.
  rewrite !list_lookup_fmap, Hr. cbn [fmap option_fmap option_map].
  fold toks k. split; [done|]. intros Hno.
  rewrite mask_left_padded by done. by rewrite positions_left_padded.
Qed.

Lemma last_token_id_last (b : Beam) : last_token_id b = last (token_ids b).
Proof.
  unfold last_token_id, Py.index.
  destruct (token_ids b) as [|t0 l] eqn:Hl; [done|].
  set (n := Z.of_nat (length (t0 :: l))).
  assert (Hn : 1 <= n) by (unfold n; simpl; lia).
  replace ((0 <=? -1) && (-1 <? n)) with false by done.
  replace ((- n <=? -1) && (-1 <? 0)) with true
    by (symmetry; apply andb_true_iff; split; [apply Z.leb_le; lia|done]).
  rewrite last_lookup. f_equal. unfold n. simpl. lia.
Qed.

Lemma last_tokens_exact :
  Forall (nonempty h) beams ->
  forall acc, exists lasts,
    for_each (fun acc r => t ← of_option IndexError (last_token_id (deref h r));
                           Ok (acc ++ [[t]])) beams acc = Ok (acc ++ lasts)
    /\ Forall2 (fun r row => exists t, last (token_ids (deref h r)) = Some t /\ row = [t])
               beams lasts.
Proof.
  induction 1 as [|r l Hr _ IH]; intros acc; simpl.
  - exists []. by rewrite app_nil_r.
  - destruct (last_token_id_nonempty _ Hr) as [t Ht]. rewrite Ht. simpl.
    destruct (IH (acc ++ [[t]])) as (lasts & -> & Hall).
    exists ([t] :: lasts). rewrite <- app_assoc. split; [done|].
    constructor; [|done]. exists t. by rewrite <- last_token_id_last.
Qed.

Lemma cache_width (W : nat) :
  longest h beams W ->
  Forall (nonempty h) beams ->
  list_max (cache_lengths h beams) = Ok (Z.of_nat W - 1).
Proof.
  intros [Hle (r0 & Hr0 & HW)] Hall. unfold cache_lengths, list_max, beam_len.
  destruct beams as [|r l] eqn:Hb; [by apply elem_of_nil in Hr0|].
  rewrite <- Hb in *.
  set (f := fun r => Z.of_nat (length (token_ids (deref h r))) - 1).
  destruct (fold_max_Z (map f l) (f r)) as (M1 & M2 & M3).
  assert (Hall_le : forall x, x ∈ beams -> f x <= Z.of_nat W - 1).
  { intros x Hx. unfold f. specialize (Hle x Hx). lia. }
  assert (Hf0 : f r0 <= fold_left Z.max (map f l) (f r)).
  { rewrite Hb in Hr0. apply elem_of_cons in Hr0 as [->|Hr0]; [done|].
    apply M2. apply list_elem_of_fmap. by exists r0. }
  assert (Hup : fold_left Z.max (map f l) (f r) <= Z.of_nat W - 1).
  { destruct M3 as [->|Hin].
    - apply Hall_le. rewrite Hb. by left.
    - apply list_elem_of_fmap in Hin as (x & -> & Hx). apply Hall_le. rewrite Hb. by right. }
  unfold f in Hf0 at 1. rewrite HW in Hf0.
  rewrite Hb. cbn [map]. f_equal. lia.
Qed.

(** The tensors of the incremental branch. *)
Lemma incremental_inputs_rows (W : nat) :
  longest h beams W ->
  Forall (nonempty h) beams ->
  exists ids pos mask,
    incremental_inputs h beams = Ok (ids, pos, mask)
    /\ forall i r, beams !! i = Some r ->
         let toks := token_ids (deref h r) in
         (exists t, last toks = Some t /\ ids !! i = Some [t])
         /\ pos !! i = Some [Z.of_nat (length toks) - 1]
         /\ mask !! i = Some (replicate (W - length toks) false ++ replicate (length toks) true).
Proof.
  intros HW Hall. unfold incremental_inputs.
  destruct (last_tokens_exact Hall []) as (lasts & -> & Hlasts). cbn [mbind result_bind app].
  rewrite (cache_width W HW Hall). cbn [mbind result_bind].
  eexists _, _, _. split; [done|]. intros i r Hr.
  set (toks := token_ids (deref h r)). split_and!.
  - destruct (Forall2_lookup_l _ _ _ _ _ Hlasts Hr) as (row & Hrow & t & Ht & ->). eauto.
  - unfold cache_lengths. rewrite !list_lookup_fmap, Hr. done.
  - rewrite list_lookup_fmap, Hr. cbn [fmap option_fmap option_map]. unfold beam_len. fold toks.
    destruct HW as [Hle _]. pose proof (Hle r (list_elem_of_lookup_2 _ _ _ Hr)) as Hl.
    fold toks in Hl. do 3 f_equal; lia.
Qed.

End Inputs.

(** X6: decoding the full context. Every token row is the beam's tokens
    padded on the left to the length of the longest beam; for a beam that
    holds no pad token, the mask is off on the padding and on on the
    tokens, and the positions are 0 on the padding and 0, 1, 2, ... on the
    tokens. *)
Theorem full_context_layout (cfg : Config) (h : Store) (beams : list ref) (i : nat)
    (r : ref) :
  beams !! i = Some r ->
  exists W,
    longest h beams W
    /\ let toks := token_ids (deref h r) in
       let k := (W - length toks)%nat in
       (full_inputs cfg h beams).1.1 !! i = Some (replicate k (pad_token_id cfg) ++ toks)
       /\ (pad_token_id cfg ∉ toks ->
           (full_inputs cfg h beams).1.2 !! i
           = Some (replicate k 0 ++ map Z.of_nat (seq 0 (length toks)))
           /\ (full_inputs cfg h beams).2 !! i
              = Some (replicate k false ++ replicate (length toks) true)).
Proof.
  intros Hr.
  assert (Hne : beams <> []) by (intros ->; done).
  eexists. split; [exact (context_width h beams Hne)|].
  exact (full_inputs_rows cfg h beams _ i r (context_width h beams Hne) Hr).
Qed.

Lemma full_context_layout_witness :
  exists W,
    longest ragged [0%nat; 1%nat] W
    /\ (full_inputs cfg_wide ragged [0%nat; 1%nat]).1.1 !! 1%nat
       = Some (replicate (W - 1) (pad_token_id cfg_wide) ++ [8])
    /\ (full_inputs cfg_wide ragged [0%nat; 1%nat]).1.2 !! 1%nat
       = Some (replicate (W - 1) 0 ++ [0])
    /\ (full_inputs cfg_wide ragged [0%nat; 1%nat]).2 !! 1%nat
       = Some (replicate (W - 1) false ++ [true]).
Proof.
  destruct (full_context_layout cfg_wide ragged [0%nat; 1%nat] 1 1 eq_refl)
    as (W & HW & Hids & Hrest).
  exists W. split; [exact HW|]. split; [exact Hids|].
  apply Hrest. simpl. intros Hin. apply list_elem_of_singleton in Hin. discriminate.
Defined.

(** X7: decoding from the cache. For non-empty beams the inputs are built
    without an error: one token per beam, its last, at position
    [len(beam) - 1], and a mask as long as the longest beam, on on the last
    [len(beam)] entries. *)
Theorem incremental_layout (h : Store) (beams : list ref) :
  beams <> [] ->
  Forall (nonempty h) beams ->
  exists ids pos mask W,
    incremental_inputs h beams = Ok (ids, pos, mask)
    /\ longest h beams W
    /\ forall i r, beams !! i = Some r ->
         let toks := token_ids (deref h r) in
         (exists t, last toks = Some t /\ ids !! i = Some [t])
         /\ pos !! i = Some [Z.of_nat (length toks) - 1]
         /\ mask !! i = Some (replicate (W - length toks) false ++ replicate (length toks) true).
Proof.
  intros Hne Hall.
  destruct (incremental_inputs_rows h beams _ (context_width h beams Hne) Hall)
    as (ids & pos & mask & Hrun & Hrows).
  exists ids, pos, mask. eexists. split; [done|]. split; [exact (context_width h beams Hne)|].
  done.
Qed.

Lemma incremental_layout_witness :
  exists ids pos mask W,
    incremental_inputs ragged [0%nat; 1%nat] = Ok (ids, pos, mask)
    /\ longest ragged [0%nat; 1%nat] W
    /\ forall i r, [0%nat; 1%nat] !! i = Some r ->
         let toks := token_ids (deref ragged r) in
         (exists t, last toks = Some t /\ ids !! i = Some [t])
         /\ pos !! i = Some [Z.of_nat (length toks) - 1]
         /\ mask !! i = Some (replicate (W - length toks) false ++ replicate (length toks) true).
Proof.
  apply (incremental_layout ragged [0%nat; 1%nat]).
  - discriminate.
  - repeat constructor; discriminate.
Defined.

(** X8: the two branches agree. For non-empty beams without a pad token,
    the mask of the incremental branch is the mask of the full-context
    branch, and the token and the position it feeds for a beam are the last
    entries of the beam's full-context rows. *)
Theorem branches_agree (cfg : Config) (h : Store) (beams : list ref) :
  beams <> [] ->
  Forall (nonempty h) beams ->
  (forall r, r ∈ beams -> pad_token_id cfg ∉ token_ids (deref h r)) ->
  exists ids pos mask,
    incremental_inputs h beams = Ok (ids, pos, mask)
    /\ mask = (full_inputs cfg h beams).2
    /\ forall i r, beams !! i = Some r ->
         exists t p ids_row pos_row,
           ids !! i = Some [t] /\ pos !! i = Some [p]
           /\ (full_inputs cfg h beams).1.1 !! i = Some ids_row /\ last ids_row = Some t
           /\ (full_inputs cfg h beams).1.2 !! i = Some pos_row /\ last pos_row = Some p.
Proof.
  intros Hne Hall Hno.
  pose proof (context_width h beams Hne) as HW.
  destruct (incremental_inputs_rows h beams _ HW Hall) as (ids & pos & mask & Hrun & Hrows).
  exists ids, pos, mask. split; [done|].
  assert (Hlen_mask : length mask = length beams).
  { unfold incremental_inputs in Hrun.
    destruct (for_each _ beams []) as [lasts|]; [|discriminate]. cbn [mbind result_bind] in Hrun.
    destruct (list_max _) as [m|]; [|discriminate]. cbn [mbind result_bind] in Hrun.
    injection Hrun as _ _ <-. by rewrite length_map. }
  assert (Hlen_full : length (full_inputs cfg h beams).2 = length beams).
  { unfold full_inputs. cbv zeta. cbn [snd]. by rewrite !length_map. }
  split.
  - apply list_eq. intros i. destruct (beams !! i) as [r|] eqn:Hr.
    + destruct (Hrows i r Hr) as (_ & _ & ->).
      destruct (full_inputs_rows cfg h beams _ i r HW Hr) as [_ Hfull].
      destruct (Hfull (Hno r (list_elem_of_lookup_2 _ _ _ Hr))) as [_ ->]. done.
    + apply lookup_ge_None in Hr.
      rewrite !lookup_ge_None_2 by lia. done.
  - intros i r Hr. destruct (Hrows i r Hr) as ((t & Ht & Hids) & Hpos & _).
    destruct (full_inputs_rows cfg h beams _ i r HW Hr) as [Hfi Hfull].
    destruct (Hfull (Hno r (list_elem_of_lookup_2 _ _ _ Hr))) as [Hfp _].
    eexists t, _, _, _. split_and!; [done|done|exact Hfi| |exact Hfp|].
    + rewrite last_app. by rewrite Ht.
    + assert (Hlen : token_ids (deref h r) <> []) by (intros Hnil; by rewrite Hnil in Ht).
      destruct (token_ids (deref h r)) as [|t0 l] using rev_ind; [done|].
      rewrite length_app. simpl. rewrite Nat.add_1_r, seq_S, map_app. simpl.
      rewrite app_assoc, last_snoc. f_equal. lia.
Qed.

Lemma branches_agree_witness :
  exists ids pos mask,
    incremental_inputs ragged [0%nat; 1%nat] = Ok (ids, pos, mask)
    /\ mask = (full_inputs cfg_wide ragged [0%nat; 1%nat]).2
    /\ forall i r, [0%nat; 1%nat] !! i = Some r ->
         exists t p ids_row pos_row,
           ids !! i = Some [t] /\ pos !! i = Some [p]
           /\ (full_inputs cfg_wide ragged [0%nat; 1%nat]).1.1 !! i = Some ids_row
           /\ last ids_row = Some t
           /\ (full_inputs cfg_wide ragged [0%nat; 1%nat]).1.2 !! i = Some pos_row
           /\ last pos_row = Some p.
Proof.
  apply (branches_agree cfg_wide ragged [0%nat; 1%nat]).
  - discriminate.
  - repeat constructor; discriminate.
  - intros r Hr Hin.
    apply elem_of_cons in Hr as [->|Hr]; [|apply list_elem_of_singleton in Hr as ->].
    + vm_compute in Hin. repeat (apply elem_of_cons in Hin as [Hin|Hin]; [discriminate|]).
      by apply elem_of_nil in Hin.
    + vm_compute in Hin. repeat (apply elem_of_cons in Hin as [Hin|Hin]; [discriminate|]).
      by apply elem_of_nil in Hin.
Defined.

(** ** The trace of a run *)

Lemma yield_count_app {Cache : Type} (evs evs' : list (event Cache)) :
  yield_count (evs ++ evs') = (yield_count evs + yield_count evs')%nat.
Proof. unfold yield_count. by rewrite List.filter_app, length_app. Qed.

Lemma yield_count_updates {Cache : Type} (calls : list ref) :
  yield_count (map (@Update Cache) calls) = 0%nat.
Proof. induction calls as [|c calls IH]; [done|]. exact IH. Qed.

Lemma not_yield_updates {Cache : Type} (calls : list ref) (outs : list (list ref)) :
  Yield outs ∉ map (@Update Cache) calls.
Proof.
  intros Hin. apply list_elem_of_fmap in Hin as (c & Hc & _). discriminate.
Qed.

Lemma for_each_length {A B} (body : list B -> A -> result (list B)) (xs : list A)
    (acc res : list B) :
  (forall acc x acc', body acc x = Ok acc' -> length acc' = S (length acc)) ->
  for_each body xs acc = Ok res ->
  length res = (length acc + length xs)%nat.
Proof.
  intros Hbody. revert acc. induction xs as [|x xs IH]; intros acc; simpl.
  - intros [= <-]. lia.
  - destruct (body acc x) as [acc'|e] eqn:Hb; [|discriminate].
    intros Hrun. apply IH in Hrun. apply Hbody in Hb. lia.
Qed.

Section Trace.

Context {Cache : Type}.
Variable cfg : Config.
Variable fns : Callbacks Cache.
Variable n : nat.

(** The three tensors have one row per alive beam, in either branch. *)
Lemma prepare_rows (lp : Loop Cache) (evs : list (event Cache))
    (input_ids position_ids : Tensor Z) (pad_mask : Tensor bool) (c : option Cache) :
  prepare cfg fns lp = (evs, Ok (input_ids, position_ids, pad_mask, c)) ->
  length input_ids = length (beams lp)
  /\ length position_ids = length (beams lp)
  /\ length pad_mask = length (beams lp).
Proof.
  unfold prepare.
  assert (Hfull : forall evs',
    (evs', Ok (full_inputs cfg (store (engine lp)) (beams lp), @None Cache))
    = (evs, Ok (input_ids, position_ids, pad_mask, c)) ->
    length input_ids = length (beams lp)
    /\ length position_ids = length (beams lp)
    /\ length pad_mask = length (beams lp)).
  { intros evs'. unfold full_inputs. cbv zeta. intros [= _ <- <- <- _].
    by rewrite !length_map. }
  destruct (cache_handle lp) as [c0|]; [|apply Hfull].
  destruct (cache_mask _ _) as [mask|]; [|apply Hfull].
  destruct (cache_fn fns) as [f|]; [|discriminate].
  unfold incremental_inputs.
  destruct (for_each _ (beams lp) []) as [lasts|] eqn:Hlasts; [|discriminate].
  cbn [mbind result_bind].
  destruct (list_max _) as [m|]; [|discriminate]. cbn [mbind result_bind].
  intros [= _ <- <- <- _].
  apply for_each_length in Hlasts as Hlen.
  - unfold cache_lengths. rewrite !length_map. simpl in Hlen. done.
  - intros acc r acc'. destruct (last_token_id _); simpl; [|discriminate].
    intros [= <-]. rewrite length_app. simpl. lia.
Qed.

Lemma prepare_no_yield (lp : Loop Cache) : yield_count (prepare cfg fns lp).1 = 0%nat.
Proof.
  unfold prepare.
  destruct (cache_handle lp) as [c|]; [|done].
  destruct (cache_mask _ _) as [mask|]; [|done].
  destruct (cache_fn fns); done.
Qed.

Lemma prepare_not_yield (lp : Loop Cache) (outs : list (list ref)) :
  Yield outs ∉ (prepare cfg fns lp).1.
Proof.
  unfold prepare.
  destruct (cache_handle lp) as [c|]; [|apply not_elem_of_nil].
  destruct (cache_mask _ _) as [mask|];
    [|simpl; intros Hin; apply list_elem_of_singleton in Hin; discriminate].
  destruct (cache_fn fns); simpl; [|apply not_elem_of_nil].
  intros Hin; apply list_elem_of_singleton in Hin; discriminate.
Qed.

(** After the call of [decode_fn]: the calls of [update_fn], and one value
    yielded when the round is completed and [yield_intermediate] is on. *)
Lemma step_trace (lp : Loop Cache) (input_ids position_ids : Tensor Z)
    (pad_mask : Tensor bool) (c : option Cache) :
  exists rest r,
    step cfg fns n lp (input_ids, position_ids, pad_mask, c)
    = (Decode input_ids position_ids pad_mask c :: rest, r)
    /\ Forall after_decode rest
    /\ yield_count rest
       = (if yield_intermediate cfg then match r with Ok _ => 1 | Raise _ => 0 end else 0)%nat
    /\ (forall outs, Yield outs ∈ rest -> exists st, outs = (get_outputs cfg fns n st).2).
Proof.
  destruct (step_events cfg fns n lp input_ids position_ids pad_mask c)
    as (rest & r & Hstep & Hafter).
  exists rest, r. split; [done|]. split; [done|].
  unfold step in Hstep.
  destruct (decode_fn fns input_ids position_ids pad_mask c) as [logits c'].
  destruct (expand cfg fns n _ _ _ logits) as [[h bc]|e].
  2:{ injection Hstep as <- <-. split; [by destruct (yield_intermediate cfg)|].
      intros outs Hin. by apply elem_of_nil in Hin. }
  destruct (prune cfg fns _ bc) as [st1 calls].
  destruct (filter_beams cfg fns n st1) as [[st2 [beams' indices']]|e].
  2:{ injection Hstep as <- <-. rewrite yield_count_updates.
      split; [by destruct (yield_intermediate cfg)|].
      intros outs Hin. by apply not_yield_updates in Hin. }
  destruct (yield_intermediate cfg).
  - destruct (get_outputs cfg fns n st2) as [st3 outputs] eqn:Hgo.
    injection Hstep as <- <-. rewrite yield_count_app, yield_count_updates. split; [done|].
    intros outs Hin. apply elem_of_app in Hin as [Hin|Hin]; [by apply not_yield_updates in Hin|].
    apply list_elem_of_singleton in Hin. injection Hin as ->.
    exists st2. by rewrite Hgo.
  - injection Hstep as <- <-. rewrite yield_count_updates. split; [done|].
    intros outs Hin. by apply not_yield_updates in Hin.
Qed.

Lemma round_trace (lp : Loop Cache) :
  beams lp <> [] ->
  Forall decode_batch (round cfg fns n lp).1
  /\ yield_count (round cfg fns n lp).1
     = (if yield_intermediate cfg
        then match (round cfg fns n lp).2 with Ok _ => 1 | Raise _ => 0 end
        else 0)%nat
  /\ (forall lp', (round cfg fns n lp).2 = Ok lp' -> decode_calls (round cfg fns n lp).1 = 1%nat)
  /\ (forall outs, Yield outs ∈ (round cfg fns n lp).1 ->
                   exists st, outs = (get_outputs cfg fns n st).2).
Proof.
  intros Hne. unfold round.
  pose proof (prepare_no_yield lp) as Hpy.
  pose proof (prepare_not_yield lp) as Hpn.
  pose proof (prepare_decode_calls cfg fns lp) as Hpd.
  assert (Hpb : Forall decode_batch (prepare cfg fns lp).1).
  { unfold prepare. destruct (cache_handle lp) as [c|]; [|done].
    destruct (cache_mask _ _) as [mask|]; [|by repeat constructor].
    destruct (cache_fn fns); by repeat constructor. }
  destruct (prepare cfg fns lp) as [evs [[[[input_ids position_ids] pad_mask] c]|e]] eqn:Hprep;
    cbn [fst snd] in *.
  2:{ split_and!; [done|by destruct (yield_intermediate cfg)|done|].
      intros outs Hin. by apply Hpn in Hin. }
  destruct (prepare_rows lp evs input_ids position_ids pad_mask c Hprep) as (R1 & R2 & R3).
  destruct (step_trace lp input_ids position_ids pad_mask c)
    as (rest & r & -> & Hafter & Hyield & Hfrom).
  cbn [fst snd]. split_and!.
  - apply Forall_app. split; [done|]. constructor.
    + simpl. split_and!; [|lia|lia]. intros ->. destruct (beams lp); done.
    + eapply Forall_impl; [exact Hafter|]. intros e He. by destruct e.
  - rewrite yield_count_app, Hpy. cbn [Nat.add]. exact Hyield.
  - intros lp' _. rewrite decode_calls_app, Hpd.
    unfold decode_calls. simpl. fold (decode_calls rest).
    by rewrite (decode_calls_after rest Hafter).
  - intros outs Hin. apply elem_of_app in Hin as [Hin|Hin]; [by apply Hpn in Hin|].
    apply elem_of_cons in Hin as [Hin|Hin]; [discriminate|]. by apply Hfrom.
Qed.

Lemma run_loop_trace (fuel : nat) :
  forall lp : Loop Cache,
  Forall decode_batch (run_loop cfg fns n fuel lp).1
  /\ (yield_intermediate cfg = false -> yield_count (run_loop cfg fns n fuel lp).1 = 0%nat)
  /\ (yield_intermediate cfg = true ->
      (forall e, (run_loop cfg fns n fuel lp).2 <> Raised e) ->
      yield_count (run_loop cfg fns n fuel lp).1
      = decode_calls (run_loop cfg fns n fuel lp).1)
  /\ (forall outs, Yield outs ∈ (run_loop cfg fns n fuel lp).1 ->
                   exists st, outs = (get_outputs cfg fns n st).2).
Proof.
  assert (Hstop : forall lp fuel, beams lp = [] ->
            (run_loop cfg fns n fuel lp).1 = []).
  { intros lp f Hb. destruct f; simpl; rewrite Hb; by destruct (get_outputs _ _ _ _). }
  assert (Hnil : forall evs : list (event Cache), evs = [] ->
            Forall decode_batch evs
            /\ (yield_intermediate cfg = false -> yield_count evs = 0%nat)
            /\ (yield_intermediate cfg = true ->
                yield_count evs = decode_calls evs)
            /\ (forall outs, Yield outs ∈ evs ->
                             exists st, outs = (get_outputs cfg fns n st).2)).
  { intros evs ->. split_and!; try done. intros outs Hin. by apply elem_of_nil in Hin. }
  induction fuel as [|fuel IH]; intros lp.
  - destruct (beams lp) as [|r rest] eqn:Hb.
    + destruct (Hnil _ (Hstop lp 0%nat Hb)) as (N1 & N2 & N3 & N4).
      split_and!; auto.
    + simpl. rewrite Hb. simpl. split_and!; try done.
      intros outs Hin. by apply elem_of_nil in Hin.
  - destruct (beams lp) as [|r rest] eqn:Hb.
    + destruct (Hnil _ (Hstop lp (S fuel) Hb)) as (N1 & N2 & N3 & N4).
      split_and!; auto.
    + assert (Hne : beams lp <> []) by (by rewrite Hb).
      destruct (round_trace lp Hne) as (T1 & T2 & T3 & T4).
      simpl. rewrite Hb.
      destruct (round cfg fns n lp) as [evs1 [lp'|e]] eqn:Hround; cbn [fst snd] in *.
      * destruct (IH lp') as (I1 & I2 & I3 & I4).
        destruct (run_loop cfg fns n fuel lp') as [evs2 o] eqn:Hrest. cbn [fst snd] in *.
        split_and!.
        -- by apply Forall_app.
        -- intros Hoff. rewrite Hoff in T2. rewrite yield_count_app, T2, I2; done.
        -- intros Hon Hno. rewrite Hon in T2.
           rewrite yield_count_app, decode_calls_app, T2, (T3 lp' eq_refl).
           f_equal. by apply (I3 Hon).
        -- intros outs Hin. apply elem_of_app in Hin as [Hin|Hin]; [by apply T4|by apply I4].
      * split_and!; try done.
        -- intros Hoff. by rewrite Hoff in T2.
        -- intros Hon Hno. by destruct (Hno e).
Qed.

End Trace.

Lemma setup_width {Cache : Type} (cfg : Config) (fns : Callbacks Cache) (h : Store)
    (initial : list Init) (lp : Loop Cache) :
  setup cfg fns h initial = Ok lp -> 1 <= beam_width cfg.
Proof.
  unfold setup. destruct (negb match max_new_tokens cfg with
                               | Some n => 0 <? n
                               | None => true
                               end); [discriminate|].
  destruct (negb (valid_stop_condition _)); [discriminate|].
  destruct (negb (1 <=? beam_width cfg)) eqn:Hw; [discriminate|].
  intros _. apply negb_false_iff, Z.leb_le in Hw. done.
Qed.

(** X9: [decode_fn] is never called on an empty batch, and it is always
    given as many rows of positions and of mask as of token ids. *)
Theorem decode_never_empty {Cache : Type} (cfg : Config) (fns : Callbacks Cache)
    (fuel : nat) (h : Store) (initial : list Init) :
  Forall decode_batch (beam_search cfg fns fuel h initial).1.
Proof.
  unfold beam_search. destruct (setup cfg fns h initial) as [lp|e]; [|done].
  apply run_loop_trace.
Qed.

(** X10: with [yield_intermediate] off the generator yields nothing. *)
Theorem no_yield_when_off {Cache : Type} (cfg : Config) (fns : Callbacks Cache)
    (fuel : nat) (h : Store) (initial : list Init) :
  yield_intermediate cfg = false ->
  yield_count (beam_search cfg fns fuel h initial).1 = 0%nat.
Proof.
  intros Hoff. unfold beam_search. destruct (setup cfg fns h initial) as [lp|e]; [|done].
  by apply run_loop_trace.
Qed.

Lemma no_yield_when_off_witness :
  yield_count (beam_search cfg_wide Demo.done_on_1 4 [] [TokenIds [5]]).1 = 0%nat.
Proof. apply (no_yield_when_off cfg_wide Demo.done_on_1 4 [] [TokenIds [5]]). reflexivity. Defined.

(** X11: with [yield_intermediate] on, a run that returns has yielded
    once for each round, that is once for each call of [decode_fn]. *)
Theorem yield_each_round {Cache : Type} (cfg : Config) (fns : Callbacks Cache)
    (fuel : nat) (h : Store) (initial : list Init) (st : State) (outputs : list (list ref)) :
  yield_intermediate cfg = true ->
  (beam_search cfg fns fuel h initial).2 = Returned st outputs ->
  yield_count (beam_search cfg fns fuel h initial).1
  = decode_calls (beam_search cfg fns fuel h initial).1.
Proof.
  intros Hon. unfold beam_search. destruct (setup cfg fns h initial) as [lp|e]; [|done].
  intros Hret. destruct (run_loop_trace cfg fns (length initial) fuel lp) as (_ & _ & Hy & _).
  apply (Hy Hon). intros e. rewrite Hret. discriminate.
Qed.

Lemma yield_each_round_witness :
  yield_count (beam_search cfg_backfill Demo.never_done 5 [] [TokenIds [7]]).1
  = decode_calls (beam_search cfg_backfill Demo.never_done 5 [] [TokenIds [7]]).1.
Proof.
  apply (yield_each_round cfg_backfill Demo.never_done 5 [] [TokenIds [7]]
           (mkState [mkBeam [7] [] 1 (Some 0%nat) None;
                     mkBeam [7; 0] [(-1)%float] 1 (Some 0%nat) (Some "length"%string)]
                    [[]] [[1%nat; 1%nat]] [[1%nat]])
           [[1%nat; 1%nat]]).
  - reflexivity.
  - vm_compute. reflexivity.
Defined.

(** X12: every value the generator yields and the value it returns hold
    one list per entry of [initial], of at most [beam_width] beams. *)
Theorem outputs_shape {Cache : Type} (cfg : Config) (fns : Callbacks Cache)
    (fuel : nat) (h : Store) (initial : list Init) (outputs : list (list ref)) :
  (Yield outputs ∈ (beam_search cfg fns fuel h initial).1
   \/ exists st, (beam_search cfg fns fuel h initial).2 = Returned st outputs) ->
  output_shape cfg (length initial) outputs.
Proof.
  unfold beam_search. destruct (setup cfg fns h initial) as [lp|e] eqn:Hsetup.
  2:{ intros [Hin|[st Hret]]; [by apply elem_of_nil in Hin|discriminate]. }
  pose proof (setup_width cfg fns h initial lp Hsetup) as Hw.
  intros [Hin|[st Hret]].
  - destruct (run_loop_trace cfg fns (length initial) fuel lp) as (_ & _ & _ & Hfrom).
    destruct (Hfrom outputs Hin) as [st ->]. apply get_outputs_shape. lia.
  - clear Hsetup. revert lp Hret. induction fuel as [|fuel IH]; intros lp; simpl.
    + destruct (beams lp); [|discriminate].
      destruct (get_outputs cfg fns (length initial) (engine lp)) as [st1 outs] eqn:Hgo.
      intros [= _ <-]. replace outs with (get_outputs cfg fns (length initial) (engine lp)).2
        by (by rewrite Hgo).
      apply get_outputs_shape. lia.
    + destruct (beams lp).
      * destruct (get_outputs cfg fns (length initial) (engine lp)) as [st1 outs] eqn:Hgo.
        intros [= _ <-]. replace outs with (get_outputs cfg fns (length initial) (engine lp)).2
          by (by rewrite Hgo).
        apply get_outputs_shape. lia.
      * destruct (round cfg fns (length initial) lp) as [evs1 [lp'|e]]; [|discriminate].
        specialize (IH lp').
        destruct (run_loop cfg fns (length initial) fuel lp') as [evs2 o]. simpl in *.
        exact IH.
Qed.

Lemma outputs_shape_witness : output_shape cfg_wide 1 demo_outputs.
Proof.
  apply (outputs_shape cfg_wide Demo.done_on_1 4 [] [TokenIds [5]] demo_outputs).
  right. exists demo_final. vm_compute. reflexivity.
Defined.

(** ** A decoder with a cache and no [cache_fn] *)

(** X13: without a [cache_fn], a run whose decoder hands back a cache
    cannot start a second round: after a round that leaves alive beams and
    a cache handle, the loop raises the AssertionError of the cache branch
    before any further call. *)
Theorem missing_cache_fn {Cache : Type} (cfg : Config) (fns : Callbacks Cache) (n : nat)
    (lp lp' : Loop Cache) (evs : list (event Cache)) (c : Cache) (fuel : nat) :
  sampler_bounded fns ->
  update_keeps fns ->
  wf cfg n lp ->
  cache_fn fns = None ->
  round cfg fns n lp = (evs, Ok lp') ->
  cache_handle lp' = Some c ->
  beams lp' <> [] ->
  run_loop cfg fns n (S fuel) lp'
  = ([], Raised (AssertionError "cache_fn must be provided if cache is used")).
Proof.
  intros Hsb Huk Hwf Hnone Hround Hc Hne.
  destruct (round_spec cfg fns n Hsb Huk lp lp' evs Hwf Hround) as (_ & _ & _ & Hgrown).
  assert (Hmask : is_Some (cache_mask (store (engine lp')) (beams lp'))).
  { unfold cache_mask. apply mapM_is_Some. apply Forall_forall. intros r Hr.
    destruct (Hgrown r Hr) as (i & p & t & _ & _ & _ & Hslot).
    unfold compose. by rewrite Hslot. }
  destruct Hmask as [mask Hmask].
  cbn [run_loop]. destruct (beams lp') as [|r rest] eqn:Hb; [done|].
  unfold round, prepare. rewrite Hc, Hb, Hmask, Hnone. done.
Qed.

Lemma uncached_sampler_bounded : sampler_bounded uncached.
Proof. intros logits k Hk. by apply first_k_bounded. Qed.

Lemma uncached_update_keeps : update_keeps uncached.
Proof. intros b b' [= <-]. apply keeps_refl. Qed.

Lemma uncached_lp0_wf : wf cfg_wide 1 uncached_lp0.
Proof.
  destruct (setup_spec cfg_wide uncached [] [TokenIds [5]] uncached_lp0) as (_ & _ & H & _).
  - apply initial_ok_tokens.
  - vm_compute. reflexivity.
  - exact H.
Qed.

Lemma missing_cache_fn_witness :
  run_loop cfg_wide uncached 1 1 uncached_lp1
  = ([], Raised (AssertionError "cache_fn must be provided if cache is used")).
Proof.
  apply (missing_cache_fn cfg_wide uncached 1 uncached_lp0 uncached_lp1
           [Decode [[5]] [[0]] [[true]] None; Update 1%nat] 1%nat 0
           uncached_sampler_bounded uncached_update_keeps uncached_lp0_wf).
  - reflexivity.
  - vm_compute. reflexivity.
  - reflexivity.
  - discriminate.
Defined.

(** ** Expansion *)

Lemma masked_elem {A} (row : list A) (mask : list bool) (r : list A) (x : A) :
  Py.masked row mask = Some r -> x ∈ r ->
  exists j, row !! j = Some x /\ mask !! j = Some true.
Proof.
  revert mask r. induction row as [|y row IH]; intros [|m mask] r; simpl; try discriminate.
  - intros [= <-] Hx. by apply elem_of_nil in Hx.
  - destruct (Py.masked row mask) as [r'|] eqn:Hrec; [|discriminate].
    intros [= <-] Hx. destruct m.
    + apply elem_of_cons in Hx as [->|Hx]; [by exists 0%nat|].
      destruct (IH mask r' Hrec Hx) as (j & Hj1 & Hj2). by exists (S j).
    + destruct (IH mask r' Hrec Hx) as (j & Hj1 & Hj2). by exists (S j).
Qed.

Section Single.

Context {Cache : Type}.
Variable cfg : Config.
Variable fns : Callbacks Cache.

(** With [beam_width == 1] the loop over the tokens writes to the beam
    itself: no object is made. *)
Lemma expand_token_single (lps : Tensor float) (i batch_idx : nat) (r : ref)
    (s s' : list Beam * list (list ref)) (t : Z) :
  expand_token true lps i batch_idx r s t = Ok s' -> length s'.1 = length s.1.
Proof.
  unfold expand_token. destruct s as [h bc]. cbn [fst].
  destruct (lps !! i) as [row|]; [|discriminate]. cbn [of_option mbind result_bind].
  destruct (Py.index row t) as [p|]; [|discriminate]. cbn [of_option mbind result_bind].
  intros [= <-]. cbn [fst]. apply length_assign.
Qed.

Lemma expand_beam_single (sel : Tensor Z) (valid : Tensor bool) (lps : Tensor float)
    (beams : list ref) (s s' : list Beam * list (list ref)) (it : nat * nat) :
  expand_beam true sel valid lps beams s it = Ok s' -> length s'.1 = length s.1.
Proof.
  unfold expand_beam. destruct it as [i batch_idx]. destruct s as [h bc]. cbn [fst].
  destruct (beams !! i) as [r|]; [|discriminate]. cbn [of_option mbind result_bind].
  destruct (sel !! i) as [ids|]; [|discriminate]. cbn [of_option mbind result_bind].
  destruct (valid !! i) as [mask|]; [|discriminate]. cbn [of_option mbind result_bind].
  destruct (Py.masked ids mask) as [tokens|]; [|discriminate].
  cbn [of_option mbind result_bind].
  intros Hrun.
  pose proof (for_each_inv (fun _ s0 => length s0.1 = length h)
                (expand_token true lps i batch_idx r) tokens
                (assign h r (set_cache (deref h r) i), bc) s') as Hinv.
  cbn beta in Hinv. apply Hinv in Hrun; [done| |].
  - cbn [fst]. apply length_assign.
  - intros k x s0 s1 _ Hs0 Hstep. apply expand_token_single in Hstep. congruence.
Qed.

Lemma expand_single (n : nat) (h : Store) (beams : list ref) (indices : list nat)
    (logits : Tensor float) (s' : list Beam * list (list ref)) :
  beam_width cfg = 1 ->
  expand cfg fns n h beams indices logits = Ok s' -> length s'.1 = length h.
Proof.
  intros Hw. unfold expand. cbv zeta. rewrite Hw. change (1 =? 1) with true.
  destruct (sample_fn fns _ 1) as [sel sl].
  intros Hrun.
  pose proof (for_each_inv (fun _ s0 => length s0.1 = length h)
                (expand_beam true sel
                   (map (map (fun x => negb (Py.is_neginf x))) sl)
                   (log_softmax fns logits) beams)
                (enumerate indices) (h, replicate n []) s') as Hinv.
  cbn beta in Hinv. apply Hinv in Hrun; [done|done|].
  intros k x s0 s1 _ Hs0 Hstep. apply expand_beam_single in Hstep. congruence.
Qed.

End Single.

(** X14: objects are made only when [beam_width] is not 1. With
    [beam_width == 1] expansion creates no object and every candidate is
    the alive beam itself, extended in place; otherwise every candidate is
    a new object, and no object that was there before has its tokens
    changed. *)
Theorem clone_unless_single {Cache : Type} (cfg : Config) (fns : Callbacks Cache)
    (n : nat) (h : Store) (beams : list ref) (indices : list nat) (logits : Tensor float)
    (h' : Store) (bc : list (list ref)) :
  (forall r, r ∈ beams -> (r < length h)%nat) ->
  NoDup beams ->
  Forall (fun idx => (idx < n)%nat) indices ->
  sampler_bounded fns ->
  expand cfg fns n h beams indices logits = Ok (h', bc) ->
  (beam_width cfg = 1 ->
   length h' = length h /\ forall idx c, c ∈ bc !!! idx -> c ∈ beams)
  /\ (beam_width cfg <> 1 ->
      (forall idx c, c ∈ bc !!! idx -> (length h <= c < length h')%nat)
      /\ forall x, (x < length h)%nat -> same_tokens (deref h x) (deref h' x)).
Proof.
  intros Hvalid Hnd Hidx Hsb Hrun.
  pose proof (expand_spec cfg fns n h beams indices logits (h', bc) Hvalid Hnd Hidx Hsb Hrun)
    as (E1 & E2 & E3 & E4 & E5 & E6).
  cbn [fst snd] in *. split.
  - intros Hw. split; [by apply (expand_single cfg fns n h beams indices logits (h', bc))|].
    intros idx c Hc. destruct (E3 idx c Hc) as [_ (i & r & t & p & _ & Hr & _ & _ & _ & _ & Hsame)].
    rewrite Hw in Hsame. change (1 =? 1) with true in Hsame. cbv iota in Hsame. subst c.
    by eapply list_elem_of_lookup_2.
  - intros Hw.
    assert (Hnew : forall idx c, c ∈ bc !!! idx -> (length h <= c < length h')%nat).
    { intros idx c Hc.
      destruct (E3 idx c Hc) as [Hlt (i & r & t & p & _ & _ & _ & _ & _ & _ & Hfresh)].
      replace (beam_width cfg =? 1) with false in Hfresh
        by (symmetry; by apply Z.eqb_neq).
      cbv iota in Hfresh. lia. }
    split; [done|]. intros x Hx.
    destruct (E4 x ltac:(lia)) as [[idx Hin]|[_ Hsame]]; [|done].
    apply Hnew in Hin. lia.
Qed.

Lemma clone_unless_single_witness :
  (beam_width cfg_single = 1 ->
   length single_expanded.1 = length seed7
   /\ forall idx c, c ∈ single_expanded.2 !!! idx -> c ∈ [0%nat])
  /\ (beam_width cfg_single <> 1 ->
      (forall idx c, c ∈ single_expanded.2 !!! idx ->
                     (length seed7 <= c < length single_expanded.1)%nat)
      /\ forall x, (x < length seed7)%nat ->
                   same_tokens (deref seed7 x) (deref single_expanded.1 x)).
Proof.
  apply (clone_unless_single cfg_single Demo.never_done 1 seed7 [0%nat] [0%nat]
           [[(-1)%float]] single_expanded.1 single_expanded.2).
  - intros r Hr. apply list_elem_of_singleton in Hr as ->. simpl. lia.
  - apply NoDup_singleton.
  - repeat constructor.
  - apply demo_sampler_bounded.
  - vm_compute. reflexivity.
Defined.

(** X15: a token whose sampled logit is [-inf] is never added. The last
    token of every candidate is a token the sampler proposed for some alive
    beam, with a logit that is not [-inf]. *)
Theorem invalid_never_added {Cache : Type} (cfg : Config) (fns : Callbacks Cache)
    (n : nat) (h : Store) (beams : list ref) (indices : list nat) (logits : Tensor float)
    (h' : Store) (bc : list (list ref)) (idx : nat) (c : ref) :
  (forall r, r ∈ beams -> (r < length h)%nat) ->
  NoDup beams ->
  Forall (fun idx => (idx < n)%nat) indices ->
  sampler_bounded fns ->
  expand cfg fns n h beams indices logits = Ok (h', bc) ->
  c ∈ bc !!! idx ->
  let sampled := sample_fn fns (apply_logit_fns fns logits (map (deref h) beams))
                           (beam_width cfg) in
  exists i j ids lgs t x,
    sampled.1 !! i = Some ids /\ ids !! j = Some t
    /\ sampled.2 !! i = Some lgs /\ lgs !! j = Some x
    /\ Py.is_neginf x = false
    /\ last (token_ids (deref h' c)) = Some t.
Proof.
  intros Hvalid Hnd Hidx Hsb Hrun Hc sampled.
  pose proof (expand_spec cfg fns n h beams indices logits (h', bc) Hvalid Hnd Hidx Hsb Hrun)
    as (_ & _ & E3 & _).
  cbn [fst snd] in E3. fold sampled in E3.
  destruct (E3 idx c Hc) as [_ (i & r & t & p & _ & _ & _ & Hcell & Hprop & _)].
  destruct Hprop as (ids & mask & tokens & Hids & Hmask & Hmasked & Ht).
  destruct (masked_elem ids mask tokens t Hmasked Ht) as (j & Hj & Hm).
  rewrite list_lookup_fmap in Hmask.
  destruct (sampled.2 !! i) as [lgs|] eqn:Hlgs; [|discriminate].
  injection Hmask as <-. rewrite list_lookup_fmap in Hm.
  destruct (lgs !! j) as [x|] eqn:Hx; [|discriminate].
  injection Hm as Hm. apply negb_true_iff in Hm.
  exists i, j, ids, lgs, t, x. split_and!; try done.
  rewrite Hcell. simpl. apply last_snoc.
Qed.

Lemma invalid_never_added_witness :
  exists i j ids lgs t x,
    (sample_fn masking
       (apply_logit_fns masking [[(-1)%float; (-2)%float]] (map (deref seed7) [0%nat]))
       (beam_width cfg_wide)).1 !! i = Some ids
    /\ ids !! j = Some t
    /\ (sample_fn masking
          (apply_logit_fns masking [[(-1)%float; (-2)%float]]
             (map (deref seed7) [0%nat]))
          (beam_width cfg_wide)).2 !! i = Some lgs
    /\ lgs !! j = Some x
    /\ Py.is_neginf x = false
    /\ last (token_ids (deref masking_expanded.1 1%nat)) = Some t.
Proof.
  apply (invalid_never_added cfg_wide masking 1 seed7 [0%nat] [0%nat]
           [[(-1)%float; (-2)%float]] masking_expanded.1 masking_expanded.2 0 1).
  - intros r Hr. apply list_elem_of_singleton in Hr as ->. simpl. lia.
  - apply NoDup_singleton.
  - repeat constructor.
  - intros logits k Hk. unfold masking, second_invalid. simpl.
    apply Forall_forall. intros ids Hin. apply list_elem_of_fmap in Hin as (row & -> & _).
    unfold len. rewrite length_take. simpl. lia.
  - vm_compute. reflexivity.
  - vm_compute. by left.
Defined.

(** ** The other two outcomes of classification *)

(** X16: a beam that is too long and for which [stop_fn] does not hold
    goes to the too-long list of its element with stop reason ["length"],
    and neither to the finished list nor back to the alive list. *)
Theorem too_long_set_aside {Cache : Type} (cfg : Config) (fns : Callbacks Cache)
    (st st' : State) (idx : nat) (r : ref) :
  NoDup (current_beams st !!! idx) ->
  (idx < length (too_long_beams st))%nat ->
  (r < length (store st))%nat ->
  r ∈ current_beams st !!! idx ->
  stop_fn fns (deref (store st) r) = false ->
  too_long cfg (deref (store st) r) = true ->
  filter_element cfg fns st idx = Ok st' ->
  r ∈ too_long_beams st' !!! idx
  /\ stop_reason (deref (store st') r) = Some "length"%string
  /\ (r ∉ finished_beams st !!! idx -> r ∉ finished_beams st' !!! idx)
  /\ r ∉ current_beams st' !!! idx.
Proof.
  intros Hnd Hidx Hr Hin Hstop Hlong Hfilter.
  destruct (classify_spec cfg fns idx st Hnd) as (h' & Hcl & Hlen & Hmark & _).
  pose proof (filter_element_frame cfg fns idx st st' Hfilter) as Hframe.
  rewrite Hcl in Hframe. simpl in Hframe.
  destruct Hframe as (Hstore & Hfin & Htl & Hcur).
  rewrite Hstore, Hfin, Htl. repeat split.
  - apply elem_of_alter_app; [done|]. right.
    apply list_elem_of_filter. split; [|done]. unfold is_long. by rewrite Hstop, Hlong.
  - rewrite Hmark by done. unfold mark. by rewrite Hstop, Hlong.
  - intros Hnot Hin'.
    destruct (decide (idx < length (finished_beams st))%nat) as [Hlt|Hge].
    + apply elem_of_alter_app in Hin'; [|done].
      destruct Hin' as [Hin'|Hin']; [done|].
      apply list_elem_of_filter in Hin' as [Hl _]. unfold is_done in Hl.
      by rewrite Hstop in Hl.
    + rewrite list_lookup_total_alter in Hin'. case_decide; [lia|done].
  - intros Hin'. destruct Hcur as [Hcur|Hcur]; rewrite Hcur in Hin'.
    + destruct (decide (idx < length (current_beams st))%nat) as [Hlt|Hge].
      * rewrite list_lookup_total_insert_eq in Hin' by done.
        apply list_elem_of_filter in Hin' as [Hl _]. unfold is_alive in Hl.
        by rewrite Hstop, Hlong in Hl.
      * rewrite list_insert_ge in Hin' by lia.
        rewrite list_lookup_total_alt, lookup_ge_None_2 in Hin by lia.
        by apply elem_of_nil in Hin.
    + destruct (decide (idx < length (current_beams st))%nat) as [Hlt|Hge].
      * rewrite list_lookup_total_insert_eq in Hin' by done. by apply elem_of_nil in Hin'.
      * rewrite list_insert_ge in Hin' by lia.
        rewrite list_lookup_total_alt, lookup_ge_None_2 in Hin by lia.
        by apply elem_of_nil in Hin.
Qed.

Lemma too_long_set_aside_witness :
  0%nat ∈ too_long_beams st10_long !!! 0%nat
  /\ stop_reason (deref (store st10_long) 0%nat) = Some "length"%string
  /\ (0%nat ∉ finished_beams st10 !!! 0%nat -> 0%nat ∉ finished_beams st10_long !!! 0%nat)
  /\ 0%nat ∉ current_beams st10_long !!! 0%nat.
Proof.
  apply (too_long_set_aside cfg10 Demo.never_done st10 st10_long 0 0).
  - simpl. apply NoDup_singleton.
  - simpl. lia.
  - simpl. lia.
  - simpl. by left.
  - reflexivity.
  - reflexivity.
  - vm_compute. reflexivity.
Defined.

(** X17: a beam that is neither done nor too long is left as it is: the
    object is not written to, the beam enters neither the finished nor the
    too-long list, and it stays alive unless the stop condition clears the
    alive list of its element. *)
Theorem alive_untouched {Cache : Type} (cfg : Config) (fns : Callbacks Cache)
    (st st' : State) (idx : nat) (r : ref) :
  NoDup (current_beams st !!! idx) ->
  (r < length (store st))%nat ->
  r ∈ current_beams st !!! idx ->
  stop_fn fns (deref (store st) r) = false ->
  too_long cfg (deref (store st) r) = false ->
  filter_element cfg fns st idx = Ok st' ->
  deref (store st') r = deref (store st) r
  /\ (r ∉ finished_beams st !!! idx -> r ∉ finished_beams st' !!! idx)
  /\ (r ∉ too_long_beams st !!! idx -> r ∉ too_long_beams st' !!! idx)
  /\ (r ∈ current_beams st' !!! idx \/ current_beams st' !!! idx = []).
Proof.
  intros Hnd Hr Hin Hstop Hlong Hfilter.
  destruct (classify_spec cfg fns idx st Hnd) as (h' & Hcl & Hlen & Hmark & _).
  pose proof (filter_element_frame cfg fns idx st st' Hfilter) as Hframe.
  rewrite Hcl in Hframe. simpl in Hframe.
  destruct Hframe as (Hstore & Hfin & Htl & Hcur).
  assert (Hidx : (idx < length (current_beams st))%nat).
  { destruct (decide (idx < length (current_beams st))%nat) as [Hlt|Hge]; [done|].
    rewrite list_lookup_total_alt, lookup_ge_None_2 in Hin by lia.
    by apply elem_of_nil in Hin. }
  rewrite Hstore, Hfin, Htl. split_and!.
  - rewrite Hmark by done. unfold mark. by rewrite Hstop, Hlong.
  - intros Hnot Hin'.
    destruct (decide (idx < length (finished_beams st))%nat) as [Hlt|Hge].
    + apply elem_of_alter_app in Hin'; [|done].
      destruct Hin' as [Hin'|Hin']; [done|].
      apply list_elem_of_filter in Hin' as [Hl _]. unfold is_done in Hl.
      by rewrite Hstop in Hl.
    + rewrite list_lookup_total_alter in Hin'. case_decide; [lia|done].
  - intros Hnot Hin'.
    destruct (decide (idx < length (too_long_beams st))%nat) as [Hlt|Hge].
    + apply elem_of_alter_app in Hin'; [|done].
      destruct Hin' as [Hin'|Hin']; [done|].
      apply list_elem_of_filter in Hin' as [Hl _]. unfold is_long in Hl.
      by rewrite Hstop, Hlong in Hl.
    + rewrite list_lookup_total_alter in Hin'. case_decide; [lia|done].
  - destruct Hcur as [-> | ->]; rewrite list_lookup_total_insert_eq by done; [left|by right].
    apply list_elem_of_filter. split; [|done]. unfold is_alive. by rewrite Hstop, Hlong.
Qed.

Lemma alive_untouched_witness :
  deref (store two_beams_filtered) 1%nat = deref (store two_beams) 1%nat
  /\ (1%nat ∉ finished_beams two_beams !!! 0%nat ->
      1%nat ∉ finished_beams two_beams_filtered !!! 0%nat)
  /\ (1%nat ∉ too_long_beams two_beams !!! 0%nat ->
      1%nat ∉ too_long_beams two_beams_filtered !!! 0%nat)
  /\ (1%nat ∈ current_beams two_beams_filtered !!! 0%nat
      \/ current_beams two_beams_filtered !!! 0%nat = []).
Proof.
  apply (alive_untouched cfg_wide Demo.done_on_1 two_beams two_beams_filtered 0 1).
  - simpl. apply NoDup_cons. split; [|apply NoDup_singleton].
    intros Hin. apply list_elem_of_singleton in Hin. discriminate.
  - simpl. lia.
  - simpl. right. by left.
  - reflexivity.
  - reflexivity.
  - vm_compute. reflexivity.
Defined.

(** ** The finished and the too-long lists only grow *)

Lemma extended_refl (l : list (list ref)) : extended l l.
Proof. split; [done|]. intros idx. reflexivity. Qed.

Lemma extended_trans (l1 l2 l3 : list (list ref)) :
  extended l1 l2 -> extended l2 l3 -> extended l1 l3.
Proof.
  intros [H1 H2] [H3 H4]. split; [congruence|].
  intros idx. etrans; [apply H2|apply H4].
Qed.

Lemma extended_alter (l : list (list ref)) (idx : nat) (extra : list ref) :
  extended l (alter (fun x => x ++ extra) idx l).
Proof.
  split; [apply length_alter|]. intros j.
  rewrite list_lookup_total_alter. case_decide as Hd; [|done].
  destruct Hd as [-> _]. by apply prefix_app_r.
Qed.

Lemma extended_insert (l : list (list ref)) (idx : nat) (extra : list ref) :
  extended l (<[idx := l !!! idx ++ extra]> l).
Proof.
  split; [apply length_insert|]. intros j.
  rewrite list_lookup_total_insert. case_decide as Hd; [|done].
  destruct Hd as [-> _]. by apply prefix_app_r.
Qed.

Section Grow.

Context {Cache : Type}.
Variable cfg : Config.
Variable fns : Callbacks Cache.
Variable n : nat.

Lemma classify_extended (idx : nat) (st : State) :
  extended (finished_beams st) (finished_beams (classify cfg fns idx st).1)
  /\ extended (too_long_beams st) (too_long_beams (classify cfg fns idx st).1).
Proof.
  unfold classify.
  apply (fold_left_inv
           (fun (_ : nat) (acc : State * list ref) =>
              extended (finished_beams st) (finished_beams acc.1)
              /\ extended (too_long_beams st) (too_long_beams acc.1))
           (classify_beam cfg fns idx) (current_beams st !!! idx) (st, [])).
  - split; apply extended_refl.
  - intros i r [s nb] _ [Hf Ht]. rewrite classify_beam_spec.
    cbn [fst finished_beams too_long_beams] in *.
    split.
    + destruct (is_done fns (store s) r); [|done].
      eapply extended_trans; [exact Hf|apply extended_alter].
    + destruct (is_long cfg fns (store s) r); [|done].
      eapply extended_trans; [exact Ht|apply extended_alter].
Qed.

Lemma filter_element_extended (st st' : State) (idx : nat) :
  filter_element cfg fns st idx = Ok st' ->
  extended (finished_beams st) (finished_beams st')
  /\ extended (too_long_beams st) (too_long_beams st').
Proof.
  intros Hrun. destruct (filter_element_frame cfg fns idx st st' Hrun) as (_ & -> & -> & _).
  apply classify_extended.
Qed.

Lemma filter_beams_extended (st st' : State) (bs : list ref) (ix : list nat) :
  filter_beams cfg fns n st = Ok (st', (bs, ix)) ->
  extended (finished_beams st) (finished_beams st')
  /\ extended (too_long_beams st) (too_long_beams st').
Proof.
  intros Hrun. apply filter_beams_inv in Hrun as (Hrun & _ & _).
  apply (for_each_inv
           (fun (_ : nat) (s : State) =>
              extended (finished_beams st) (finished_beams s)
              /\ extended (too_long_beams st) (too_long_beams s))
           (filter_element cfg fns) (seq 0 n) st st'); [|clear Hrun|done].
  - split; apply extended_refl.
  - intros i idx s s' _ [Hf Ht] Hstep.
    destruct (filter_element_extended s s' idx Hstep) as [Hf' Ht'].
    split; eapply extended_trans; eassumption.
Qed.

Lemma prune_lists (st : State) (bc : list (list ref)) :
  finished_beams (prune cfg fns st bc).1 = finished_beams st
  /\ too_long_beams (prune cfg fns st bc).1 = too_long_beams st.
Proof.
  unfold prune.
  apply (fold_left_inv
           (fun (_ : nat) (acc : State * list ref) =>
              finished_beams acc.1 = finished_beams st
              /\ too_long_beams acc.1 = too_long_beams st)
           (prune_element cfg fns) (enumerate bc) (st, [])); [done|].
  intros i [idx cands] [s calls] _ [Hf Ht]. unfold prune_element.
  destruct (keep_best cfg fns (store s) [] _) as [[h kept] calls1]. done.
Qed.

Lemma get_outputs_extended (st : State) :
  extended (finished_beams st) (finished_beams (get_outputs cfg fns n st).1)
  /\ too_long_beams (get_outputs cfg fns n st).1 = too_long_beams st.
Proof.
  unfold get_outputs.
  apply (fold_left_inv
           (fun (_ : nat) (acc : State * list (list ref)) =>
              extended (finished_beams st) (finished_beams acc.1)
              /\ too_long_beams acc.1 = too_long_beams st)
           (get_outputs_element cfg fns) (seq 0 n) (st, [])).
  - split; [apply extended_refl|done].
  - intros i idx [s outs] _ [Hf Ht]. unfold get_outputs_element. cbn [fst] in *.
    destruct (return_unfinished cfg && _); cbn [fst finished_beams too_long_beams with_finished];
      [|done].
    split; [|done]. eapply extended_trans; [exact Hf|apply extended_insert].
Qed.

Lemma round_extended (lp lp' : Loop Cache) (evs : list (event Cache)) :
  round cfg fns n lp = (evs, Ok lp') ->
  extended (finished_beams (engine lp)) (finished_beams (engine lp'))
  /\ extended (too_long_beams (engine lp)) (too_long_beams (engine lp')).
Proof.
  intros Hround.
  destruct (round_inv cfg fns n lp lp' evs Hround)
    as (inputs & logits & c' & h & bc & st1 & calls & st2 & _ & _ & Hprune & Hfilter & _ & Heng).
  destruct (prune_lists (with_store (engine lp) h) bc) as [Pf Pt].
  rewrite Hprune in Pf, Pt. cbn [fst with_store finished_beams too_long_beams] in Pf, Pt.
  destruct (filter_beams_extended st1 st2 _ _ Hfilter) as [Ff Ft].
  rewrite Pf in Ff. rewrite Pt in Ft.
  rewrite Heng. destruct (yield_intermediate cfg); [|done].
  destruct (get_outputs_extended st2) as [Gf Gt]. rewrite Gt.
  split; [|done]. by eapply extended_trans.
Qed.

End Grow.

(** X18: the finished and the too-long lists only grow. From any test of
    the loop condition to the return, every list of either kind keeps the
    beams it has, in their order, and gets further beams appended. *)
Theorem lists_only_grow {Cache : Type} (cfg : Config) (fns : Callbacks Cache) (n fuel : nat)
    (lp : Loop Cache) (evs : list (event Cache)) (st : State) (outputs : list (list ref)) :
  run_loop cfg fns n fuel lp = (evs, Returned st outputs) ->
  extended (finished_beams (engine lp)) (finished_beams st)
  /\ extended (too_long_beams (engine lp)) (too_long_beams st).
Proof.
  assert (Hend : forall (lp : Loop Cache) st outputs,
            get_outputs cfg fns n (engine lp) = (st, outputs) ->
            extended (finished_beams (engine lp)) (finished_beams st)
            /\ extended (too_long_beams (engine lp)) (too_long_beams st)).
  { intros lp0 st0 outs Hgo.
    destruct (get_outputs_extended cfg fns n (engine lp0)) as [Gf Gt].
    rewrite Hgo in Gf, Gt. cbn [fst] in *. rewrite Gt. split; [done|apply extended_refl]. }
  revert lp evs. induction fuel as [|fuel IH]; intros lp evs; simpl.
  - destruct (beams lp); [|discriminate].
    destruct (get_outputs cfg fns n (engine lp)) as [st1 outs] eqn:Hgo.
    intros [= _ <- <-]. by eapply Hend.
  - destruct (beams lp).
    + destruct (get_outputs cfg fns n (engine lp)) as [st1 outs] eqn:Hgo.
      intros [= _ <- <-]. by eapply Hend.
    + destruct (round cfg fns n lp) as [evs1 [lp'|e]] eqn:Hround; [|discriminate].
      destruct (run_loop cfg fns n fuel lp') as [evs2 o] eqn:Hrest.
      intros [= _ ->].
      destruct (round_extended cfg fns n lp lp' evs1 Hround) as [Rf Rt].
      destruct (IH lp' evs2 Hrest) as [If It].
      split; eapply extended_trans; eassumption.
Qed.

Lemma lists_only_grow_witness :
  extended (finished_beams (engine demo_lp1)) (finished_beams demo_final)
  /\ extended (too_long_beams (engine demo_lp1)) (too_long_beams demo_final).
Proof.
  apply (lists_only_grow cfg_wide Demo.done_on_1 1 3 demo_lp1
           (skipn 3 demo_run.1) demo_final demo_outputs).
  vm_compute. reflexivity.
Defined.

(** ** A hook that rejects everything *)




(** ** Yielding does not change the search *)



Section Yield.

Context {Cache : Type}.
Variable cfg : Config.
Variable fns : Callbacks Cache.
Variable n : nat.

Hypothesis no_backfill : return_unfinished cfg = false.




End Yield.



(** ** The order of the outputs *)

Section Sorted.

Context {A : Type}.
Variable key : A -> float.

Lemma descending_cons (x : A) (l : list A) :
  descending key (x :: l)
  <-> Forall (fun y => Py.ge (key x) (key y) = true) l /\ descending key l.
Proof.
  split.
  - intros Hd. split.
    + apply Forall_forall. intros y Hy. apply list_elem_of_lookup in Hy as [j Hj].
      apply (Hd 0%nat (S j) x y); [lia|done|done].
    + intros i j a b Hij Ha Hb. apply (Hd (S i) (S j) a b); [lia|done|done].
  - intros [Hall Hd] i j a b Hij Ha Hb. destruct j as [|j]; [lia|].
    destruct i as [|i].
    + injection Ha as <-. rewrite Forall_forall in Hall. apply Hall.
      by eapply list_elem_of_lookup_2.
    + apply (Hd i j a b); [lia|done|done].
Qed.

Lemma insert_desc_descending (x : A) (l : list A) :
  PrimFloat.is_nan (key x) = false -> no_nan key l ->
  descending key l -> descending key (Py.insert_desc key x l).
Proof.
  intros Hx Hl. induction l as [|y l IH]; intros Hd; simpl.
  - intros i j a b Hij Ha Hb. destruct i, j; try lia; by destruct j.
  - apply Forall_cons in Hl as [Hy Hl]. apply descending_cons in Hd as [Hall Hd].
    destruct (PrimFloat.ltb (key x) (key y)) eqn:Hlt.
    + apply descending_cons. split; [|by apply IH].
      apply Forall_forall. intros z Hz. rewrite insert_desc_perm in Hz.
      apply elem_of_cons in Hz as [->|Hz]; [by apply ltb_ge|].
      rewrite Forall_forall in Hall. by apply Hall.
    + pose proof (not_ltb_ge _ _ Hx Hy Hlt) as Hge.
      apply descending_cons. split; [|by apply descending_cons].
      constructor; [done|]. eapply Forall_impl; [exact Hall|].
      intros z Hz. by eapply ge_trans.
Qed.

Lemma sorted_desc_descending (l : list A) :
  no_nan key l -> descending key (Py.sorted_desc key l).
Proof.
  induction l as [|x l IH]; intros Hl; simpl.
  - intros i j a b _ Ha. done.
  - apply Forall_cons in Hl as [Hx Hl]. apply insert_desc_descending; [done| |by apply IH].
    unfold no_nan. by rewrite sorted_desc_perm.
Qed.

Lemma slice_to_descending (k : Z) (l : list A) :
  descending key l -> descending key (Py.slice_to k l).
Proof.
  intros Hd i j a b Hij Ha Hb. unfold Py.slice_to in Ha, Hb.
  destruct (0 <=? k); apply lookup_take_Some in Ha as [Ha _];
    apply lookup_take_Some in Hb as [Hb _]; by apply (Hd i j a b).
Qed.

End Sorted.

(** X21: the beams [get_outputs] gives for an element are in decreasing
    order of score: when no score of the element's finished beams (the
    back-filled too-long ones included) is NaN, every beam of the output
    has a score [>=] that of every beam behind it. *)
Theorem outputs_descending {Cache : Type} (cfg : Config) (fns : Callbacks Cache) (n : nat)
    (st : State) (idx : nat) (out : list ref) :
  length (finished_beams st) = n ->
  no_nan (score fns (store st)) (backfilled cfg fns st idx) ->
  (get_outputs cfg fns n st).2 !! idx = Some out ->
  descending (score fns (store st)) out.
Proof.
  intros Hlen Hnan Hout.
  destruct (get_outputs cfg fns n st) as [st' outputs] eqn:Hrun.
  destruct (get_outputs_rows cfg fns n st st' outputs Hlen Hrun) as [Hn Hrows].
  cbn [snd] in Hout.
  assert (Hidx : (idx < n)%nat) by (rewrite <- Hn; by eapply lookup_lt_Some).
  destruct (Hrows idx Hidx) as [_ Hrow]. rewrite Hrow in Hout. injection Hout as <-.
  apply slice_to_descending. by apply sorted_desc_descending.
Qed.

Lemma outputs_descending_witness :
  descending (score Demo.done_on_1 (store two_finished)) [0%nat; 1%nat].
Proof.
  apply (outputs_descending cfg_wide Demo.done_on_1 1 two_finished 0 [0%nat; 1%nat]).
  - reflexivity.
  - repeat constructor.
  - vm_compute. reflexivity.
Defined.

(** ** What [filter_beams] returns *)

Lemma flatten_sorted (n : nat) (st : State) :
  forall i j a b, (i < j)%nat -> (flatten n st).2 !! i = Some a ->
                  (flatten n st).2 !! j = Some b -> (a <= b)%nat.
Proof.
  induction n as [|n IH]; intros i j a b Hij Ha Hb; [done|].
  rewrite flatten_S in Ha, Hb. cbn [snd] in Ha, Hb.
  apply lookup_app_Some in Hb as [Hb|[Hge Hb]].
  - assert (Hi : (i < length (flatten n st).2)%nat)
      by (apply lookup_lt_Some in Hb; lia).
    rewrite lookup_app_l in Ha by done. by apply (IH i j).
  - apply lookup_replicate in Hb as [-> _].
    apply lookup_app_Some in Ha as [Ha|[_ Ha]].
    + apply list_elem_of_lookup_2, flatten_indices in Ha as [Hlt _]. lia.
    + apply lookup_replicate in Ha as [-> _]. done.
Qed.

(** X22: [filter_beams] returns the alive beams of all batch elements in
    the order of the elements, and with each beam the index of its
    element: the two lists match position by position, the indices never
    decrease, and every alive beam is returned. *)
Theorem alive_in_element_order {Cache : Type} (cfg : Config) (fns : Callbacks Cache)
    (n : nat) (st st' : State) (beams : list ref) (indices : list nat) :
  filter_beams cfg fns n st = Ok (st', (beams, indices)) ->
  Forall2 (fun r idx => (idx < n)%nat /\ r ∈ current_beams st' !!! idx) beams indices
  /\ (forall i j a b, (i < j)%nat -> indices !! i = Some a -> indices !! j = Some b ->
                      (a <= b)%nat)
  /\ (forall idx r, (idx < n)%nat -> r ∈ current_beams st' !!! idx -> r ∈ beams).
Proof.
  intros Hrun. apply filter_beams_inv in Hrun as (_ & -> & ->). split_and!.
  - apply flatten_Forall2.
  - apply flatten_sorted.
  - intros idx r Hidx Hr. apply flatten_elem_of. eauto.
Qed.

Lemma alive_in_element_order_witness :
  Forall2 (fun r idx => (idx < 1)%nat /\ r ∈ current_beams two_beams_filtered !!! idx)
          [1%nat] [0%nat]
  /\ (forall i j a b, (i < j)%nat -> [0%nat] !! i = Some a -> [0%nat] !! j = Some b ->
                      (a <= b)%nat)
  /\ (forall idx r, (idx < 1)%nat -> r ∈ current_beams two_beams_filtered !!! idx ->
                    r ∈ [1%nat]).
Proof.
  apply (alive_in_element_order cfg_wide Demo.done_on_1 1 two_beams two_beams_filtered
           [1%nat] [0%nat]).
  vm_compute. reflexivity.
Defined.

(** ** A search of width one works in place *)

Section InPlace.

Context {Cache : Type}.
Variable cfg : Config.
Variable fns : Callbacks Cache.
Variable n : nat.

Lemma keep_best_length (candidates : list ref) :
  forall (h : Store) (kept : list ref),
  length (keep_best cfg fns h kept candidates).1.1 = length h.
Proof.
  induction candidates as [|c cands IH]; intros h kept; simpl; [done|].
  destruct (update_fn fns (deref h c)) as [b|].
  - destruct (beam_width cfg <=? _).
    + simpl. apply length_assign.
    + specialize (IH (assign h c b) (kept ++ [c])).
      destruct (keep_best cfg fns (assign h c b) (kept ++ [c]) cands) as [[h' kept'] calls].
      simpl in *. by rewrite IH, length_assign.
  - specialize (IH h kept).
    destruct (keep_best cfg fns h kept cands) as [[h' kept'] calls]. done.
Qed.

Lemma prune_length (st : State) (bc : list (list ref)) :
  length (store (prune cfg fns st bc).1) = length (store st).
Proof.
  unfold prune.
  apply (fold_left_inv
           (fun (_ : nat) (acc : State * list ref) => length (store acc.1) = length (store st))
           (prune_element cfg fns) (enumerate bc) (st, [])); [done|].
  intros i [idx cands] [s calls] _ Hs. unfold prune_element.
  pose proof (keep_best_length (Py.sorted_desc (score fns (store s)) cands) (store s) [])
    as Hlen.
  destruct (keep_best cfg fns (store s) [] _) as [[h kept] calls1]. simpl in *. congruence.
Qed.

Lemma classify_length (idx : nat) (st : State) :
  length (store (classify cfg fns idx st).1) = length (store st).
Proof.
  unfold classify.
  apply (fold_left_inv
           (fun (_ : nat) (acc : State * list ref) => length (store acc.1) = length (store st))
           (classify_beam cfg fns idx) (current_beams st !!! idx) (st, [])); [done|].
  intros i r [s nb] _ Hs. rewrite classify_beam_spec. cbn [fst store] in *.
  destruct (is_alive cfg fns (store s) r); [done|]. by rewrite length_assign.
Qed.

Lemma filter_beams_length (st st' : State) (bs : list ref) (ix : list nat) :
  filter_beams cfg fns n st = Ok (st', (bs, ix)) -> length (store st') = length (store st).
Proof.
  intros Hrun. apply filter_beams_inv in Hrun as (Hrun & _ & _).
  apply (for_each_inv (fun (_ : nat) (s : State) => length (store s) = length (store st))
           (filter_element cfg fns) (seq 0 n) st st'); [done| |done].
  intros i idx s s' _ Hs Hstep.
  destruct (filter_element_frame cfg fns idx s s' Hstep) as (-> & _).
  by rewrite classify_length.
Qed.

Lemma round_length (lp lp' : Loop Cache) (evs : list (event Cache)) :
  beam_width cfg = 1 ->
  round cfg fns n lp = (evs, Ok lp') ->
  length (store (engine lp')) = length (store (engine lp)).
Proof.
  intros Hw Hround.
  destruct (round_inv cfg fns n lp lp' evs Hround)
    as (inputs & logits & c' & h & bc & st1 & calls & st2 & _ & Hexp & Hprune & Hfilter & _ & Heng).
  apply (expand_single cfg fns n _ _ _ _ (h, bc) Hw) in Hexp. cbn [fst] in Hexp.
  pose proof (prune_length (with_store (engine lp) h) bc) as Hp.
  rewrite Hprune in Hp. cbn [fst with_store store] in Hp.
  apply filter_beams_length in Hfilter.
  assert (Hgo : store (get_outputs cfg fns n st2).1 = store st2).
  { destruct (get_outputs cfg fns n st2) as [st3 outs] eqn:Hgo. cbn [fst].
    by destruct (get_outputs_spec cfg fns n st2 st3 outs Hgo) as (-> & _). }
  rewrite Heng. destruct (yield_intermediate cfg); [rewrite Hgo|]; congruence.
Qed.

End InPlace.

(** X23: with [beam_width == 1] the loop makes no [Beam] object: the
    store holds as many objects when the run returns as at any test of the
    loop condition before. *)
Theorem single_beam_in_place {Cache : Type} (cfg : Config) (fns : Callbacks Cache)
    (n fuel : nat) (lp : Loop Cache) (evs : list (event Cache)) (st : State)
    (outputs : list (list ref)) :
  beam_width cfg = 1 ->
  run_loop cfg fns n fuel lp = (evs, Returned st outputs) ->
  length (store st) = length (store (engine lp)).
Proof.
  intros Hw.
  assert (Hend : forall (lp : Loop Cache) st outputs,
            get_outputs cfg fns n (engine lp) = (st, outputs) ->
            length (store st) = length (store (engine lp))).
  { intros lp0 st0 outs Hgo.
    by destruct (get_outputs_spec cfg fns n _ _ _ Hgo) as (-> & _). }
  revert lp evs. induction fuel as [|fuel IH]; intros lp evs; simpl.
  - destruct (beams lp); [|discriminate].
    destruct (get_outputs cfg fns n (engine lp)) as [st1 outs] eqn:Hgo.
    intros [= _ <- <-]. by eapply Hend.
  - destruct (beams lp).
    + destruct (get_outputs cfg fns n (engine lp)) as [st1 outs] eqn:Hgo.
      intros [= _ <- <-]. by eapply Hend.
    + destruct (round cfg fns n lp) as [evs1 [lp'|e]] eqn:Hround; [|discriminate].
      destruct (run_loop cfg fns n fuel lp') as [evs2 o] eqn:Hrest.
      intros [= _ ->].
      rewrite (IH lp' evs2 Hrest). by eapply round_length.
Qed.

Lemma single_beam_in_place_witness :
  length (store single_final) = length (store (engine single_lp0)).
Proof.
  apply (single_beam_in_place cfg_single Demo.never_done 1 4 single_lp0
           (run_loop cfg_single Demo.never_done 1 4 single_lp0).1 single_final
           [[]]).
  - reflexivity.
  - vm_compute. reflexivity.
Defined.

(** ** A round without a valid token *)

(** X24: when the sampler gives every token it proposes the logit [-inf],
    a round makes no candidate, and the loop ends with it: no beam is
    alive afterwards. *)
Theorem no_valid_token_ends_run {Cache : Type} (cfg : Config) (fns : Callbacks Cache)
    (n : nat) (lp lp' : Loop Cache) (evs : list (event Cache)) :
  sampler_bounded fns ->
  update_keeps fns ->
  all_invalid fns ->
  wf cfg n lp ->
  round cfg fns n lp = (evs, Ok lp') ->
  beams lp' = [] /\ Forall (fun l => l = []) (current_beams (engine lp')).
Proof.
  intros Hsb Huk Hinv Hwf Hround.
  destruct (round_spec cfg fns n Hsb Huk lp lp' evs Hwf Hround) as (Hwf' & _).
  destruct (round_inv cfg fns n lp lp' evs Hround)
    as (inputs & logits & c' & h & bc & st1 & calls & st2 & _ & Hexp & Hprune & Hfilter & _ & Heng).
  destruct Hwf as (W1 & W2 & W3 & W4 & W5 & W6 & W7 & W8 & W9).
  assert (Hix : Forall (fun idx => (idx < n)%nat) (indices lp)).
  { rewrite W5. apply Forall_forall. intros idx Hin. by apply flatten_indices in Hin as [? _]. }
  pose proof (expand_spec cfg fns n _ _ _ logits (h, bc) W7 W6 Hix Hsb Hexp)
    as (E1 & E2 & E3 & _ & E5 & _).
  cbn [fst snd] in *.
  assert (Hbc : forall idx, bc !!! idx = []).
  { intros idx. destruct (bc !!! idx) as [|c l] eqn:Hrow; [done|]. exfalso.
    destruct (E3 idx c) as [_ (i & r & t & p & _ & _ & _ & _ & Hprop & _)];
      [rewrite Hrow; by left|].
    destruct Hprop as (ids & mask & tokens & _ & Hmask & Hmasked & Ht).
    destruct (masked_elem ids mask tokens t Hmasked Ht) as (j & _ & Hm).
    rewrite list_lookup_fmap in Hmask.
    destruct (_ !! i) as [lgs|] eqn:Hlgs; [|discriminate].
    injection Hmask as <-. rewrite list_lookup_fmap in Hm.
    destruct (lgs !! j) as [x|] eqn:Hx; [|discriminate].
    injection Hm as Hm. apply negb_true_iff in Hm.
    pose proof (Hinv (apply_logit_fns fns logits (map (deref (store (engine lp))) (beams lp)))
                  (beam_width cfg)) as Hall.
    rewrite Forall_forall in Hall. specialize (Hall lgs (list_elem_of_lookup_2 _ _ _ Hlgs)).
    rewrite Forall_forall in Hall. specialize (Hall x (list_elem_of_lookup_2 _ _ _ Hx)).
    congruence. }
  destruct (prune_spec cfg fns Huk (with_store (engine lp) h) st1 bc calls E5)
    as (_ & _ & _ & _ & Hkept); [simpl; lia|done|].
  assert (Hst1 : forall idx, current_beams st1 !!! idx = []).
  { intros idx. destruct (current_beams st1 !! idx) as [row|] eqn:Hrow.
    - rewrite (list_lookup_total_correct _ _ _ Hrow).
      destruct (Forall2_lookup_l _ _ _ _ _ Hkept Hrow) as (cands & Hc & _ & Hsub).
      apply list_lookup_total_correct in Hc. rewrite Hbc in Hc. subst cands.
      destruct row as [|y row]; [done|]. exfalso.
      specialize (Hsub y ltac:(by left)). by apply elem_of_nil in Hsub.
    - by rewrite list_lookup_total_alt, Hrow. }
  destruct Hwf' as (V1 & _ & _ & V4 & _).
  assert (Hnil : beams lp' = []).
  { destruct (beams lp') as [|r rest] eqn:Hb; [done|]. exfalso.
    apply filter_beams_inv in Hfilter as (Hloop & Hbeams & _).
    assert (Hr : r ∈ (flatten n st2).1) by (rewrite <- Hbeams; by left).
    apply flatten_elem_of in Hr as (idx & Hidx & Hr).
    destruct (filter_loop_spec cfg fns n st1 st2) as (_ & _ & _ & _ & _ & Hsub & _);
      [|done|].
    - intros j. rewrite Hst1. apply NoDup_nil_2.
    - eapply elem_of_sublist in Hr; [|apply Hsub].
      rewrite Hst1 in Hr. by apply elem_of_nil in Hr. }
  split; [done|]. apply no_alive with (n := n); [done|]. by rewrite <- V4.
Qed.

Lemma blocked_sampler_bounded : sampler_bounded blocked.
Proof. intros logits k Hk. by apply first_k_bounded. Qed.

Lemma blocked_update_keeps : update_keeps blocked.
Proof. intros b b' [= <-]. apply keeps_refl. Qed.

Lemma blocked_all_invalid : all_invalid blocked.
Proof.
  intros logits k. apply Forall_forall. intros row Hrow.
  apply list_elem_of_fmap in Hrow as (r & -> & _).
  apply Forall_forall. intros x Hx. by apply list_elem_of_fmap in Hx as (j & -> & _).
Qed.

Lemma blocked_lp0_wf : wf cfg_wide 1 blocked_lp0.
Proof.
  destruct (setup_spec cfg_wide blocked [] [TokenIds [5]] blocked_lp0) as (_ & _ & H & _).
  - apply initial_ok_tokens.
  - vm_compute. reflexivity.
  - exact H.
Qed.

Lemma no_valid_token_ends_run_witness :
  beams blocked_lp1 = [] /\ Forall (fun l => l = []) (current_beams (engine blocked_lp1)).
Proof.
  apply (no_valid_token_ends_run cfg_wide blocked 1 blocked_lp0 blocked_lp1
           [Decode [[5]] [[0]] [[true]] None]
           blocked_sampler_bounded blocked_update_keeps blocked_all_invalid blocked_lp0_wf).
  vm_compute. reflexivity.
Defined.

(** ** A round writes to the alive beams only *)

Section Frame.

Context {Cache : Type}.
Variable cfg : Config.
Variable fns : Callbacks Cache.
Variable n : nat.

Lemma expand_token_frame (single : bool) (lps : Tensor float) (i batch_idx : nat) (r : ref)
    (s s' : list Beam * list (list ref)) (t : Z) (k : nat) (x : ref) :
  (k <= length s.1)%nat -> (x < k)%nat -> x <> r ->
  expand_token single lps i batch_idx r s t = Ok s' ->
  (k <= length s'.1)%nat /\ deref s'.1 x = deref s.1 x.
Proof.
  intros Hk Hx Hne. unfold expand_token. destruct s as [h bc]. cbn [fst] in *.
  destruct (if single then (h, r) else alloc h (deref h r)) as [h1 c] eqn:Hal.
  destruct (lps !! i) as [row|]; [|discriminate]. cbn [of_option mbind result_bind].
  destruct (Py.index row t) as [p|]; [|discriminate]. cbn [of_option mbind result_bind].
  intros [= <-]. cbn [fst]. rewrite length_assign.
  destruct single.
  - injection Hal as <- <-. split; [done|]. by apply deref_assign_ne.
  - unfold alloc in Hal. injection Hal as <- <-. rewrite length_app. split; [lia|].
    rewrite deref_assign_ne by lia. apply deref_app_l. lia.
Qed.

Lemma expand_beam_frame (single : bool) (sel : Tensor Z) (valid : Tensor bool)
    (lps : Tensor float) (beams : list ref) (s s' : list Beam * list (list ref))
    (it : nat * nat) (k : nat) (x : ref) :
  (k <= length s.1)%nat -> (x < k)%nat -> x ∉ beams ->
  expand_beam single sel valid lps beams s it = Ok s' ->
  (k <= length s'.1)%nat /\ deref s'.1 x = deref s.1 x.
Proof.
  intros Hk Hx Hnot. unfold expand_beam. destruct it as [i batch_idx].
  destruct s as [h bc]. cbn [fst] in *.
  destruct (beams !! i) as [r|] eqn:Hr; [|discriminate]. cbn [of_option mbind result_bind].
  destruct (sel !! i) as [ids|]; [|discriminate]. cbn [of_option mbind result_bind].
  destruct (valid !! i) as [mask|]; [|discriminate]. cbn [of_option mbind result_bind].
  destruct (Py.masked ids mask) as [tokens|]; [|discriminate].
  cbn [of_option mbind result_bind].
  assert (Hne : x <> r) by (intros ->; apply Hnot; by eapply list_elem_of_lookup_2).
  intros Hrun.
  apply (for_each_inv
           (fun (_ : nat) (s0 : list Beam * list (list ref)) =>
              (k <= length s0.1)%nat /\ deref s0.1 x = deref h x)
           (expand_token single lps i batch_idx r) tokens
           (assign h r (set_cache (deref h r) i), bc) s'); [| |done].
  - cbn [fst]. rewrite length_assign. split; [done|]. by apply deref_assign_ne.
  - intros j t s0 s1 _ [Hk0 Hd0] Hstep.
    destruct (expand_token_frame single lps i batch_idx r s0 s1 t k x Hk0 Hx Hne Hstep)
      as [Hk1 Hd1].
    split; [done|congruence].
Qed.

(** Expansion writes to the alive beams and to the objects it makes. *)
Lemma expand_frame (h : Store) (beams : list ref) (indices : list nat)
    (logits : Tensor float) (s' : list Beam * list (list ref)) (x : ref) :
  (x < length h)%nat -> x ∉ beams ->
  expand cfg fns n h beams indices logits = Ok s' ->
  deref s'.1 x = deref h x.
Proof.
  intros Hx Hnot. unfold expand. cbv zeta.
  destruct (sample_fn fns _ _) as [sel sl].
  intros Hrun.
  apply (for_each_inv
           (fun (_ : nat) (s0 : list Beam * list (list ref)) =>
              (length h <= length s0.1)%nat /\ deref s0.1 x = deref h x)
           (expand_beam (beam_width cfg =? 1) sel
              (map (map (fun y => negb (Py.is_neginf y))) sl)
              (log_softmax fns logits) beams)
           (enumerate indices) (h, replicate n []) s'); [done| |done].
  intros j it s0 s1 _ [Hk0 Hd0] Hstep.
  destruct (expand_beam_frame _ _ _ _ beams s0 s1 it (length h) x Hk0 Hx Hnot Hstep)
    as [Hk1 Hd1].
  split; [done|congruence].
Qed.

Lemma keep_best_frame (candidates : list ref) (x : ref) :
  x ∉ candidates ->
  forall (h : Store) (kept : list ref),
  deref (keep_best cfg fns h kept candidates).1.1 x = deref h x.
Proof.
  induction candidates as [|c cands IH]; intros Hnot h kept; simpl; [done|].
  apply not_elem_of_cons in Hnot as [Hne Hnot].
  destruct (update_fn fns (deref h c)) as [b|].
  - destruct (beam_width cfg <=? _).
    + simpl. by apply deref_assign_ne.
    + specialize (IH Hnot (assign h c b) (kept ++ [c])).
      destruct (keep_best cfg fns (assign h c b) (kept ++ [c]) cands) as [[h' kept'] calls].
      simpl in *. rewrite IH. by apply deref_assign_ne.
  - specialize (IH Hnot h kept).
    destruct (keep_best cfg fns h kept cands) as [[h' kept'] calls]. done.
Qed.

(** Pruning writes to candidates only. *)
Lemma prune_frame (st : State) (bc : list (list ref)) (x : ref) :
  x ∉ concat bc ->
  deref (store (prune cfg fns st bc).1) x = deref (store st) x.
Proof.
  intros Hnot. unfold prune.
  apply (fold_left_inv
           (fun (_ : nat) (acc : State * list ref) => deref (store acc.1) x = deref (store st) x)
           (prune_element cfg fns) (enumerate bc) (st, [])); [done|].
  intros i [idx cands] [s calls] Hit Hs. unfold prune_element.
  unfold enumerate in Hit. rewrite list_lookup_imap in Hit.
  destruct (bc !! i) as [row|] eqn:Hrow; [|discriminate]. injection Hit as <- <-.
  assert (Hx : x ∉ Py.sorted_desc (score fns (store s)) row).
  { rewrite sorted_desc_perm. intros Hin. apply Hnot, elem_of_concat_lookup.
    exists i. by rewrite (list_lookup_total_correct _ _ _ Hrow). }
  pose proof (keep_best_frame _ x Hx (store s) []) as Hkb.
  destruct (keep_best cfg fns (store s) [] _) as [[h kept] calls1]. simpl in *. congruence.
Qed.

Lemma classify_frame (idx : nat) (st : State) (x : ref) :
  x ∉ current_beams st !!! idx ->
  deref (store (classify cfg fns idx st).1) x = deref (store st) x
  /\ current_beams (classify cfg fns idx st).1 = current_beams st
  /\ (forall y, y ∈ (classify cfg fns idx st).2 -> y ∈ current_beams st !!! idx).
Proof.
  intros Hnot. unfold classify.
  apply (fold_left_inv
           (fun (_ : nat) (acc : State * list ref) =>
              deref (store acc.1) x = deref (store st) x
              /\ current_beams acc.1 = current_beams st
              /\ (forall y, y ∈ acc.2 -> y ∈ current_beams st !!! idx))
           (classify_beam cfg fns idx) (current_beams st !!! idx) (st, [])).
  - split_and!; try done. intros y Hy. by apply elem_of_nil in Hy.
  - intros i r [s nb] Hr (H1 & H2 & H3). rewrite classify_beam_spec.
    cbn [fst snd store current_beams] in *.
    assert (Hin : r ∈ current_beams st !!! idx) by (by eapply list_elem_of_lookup_2).
    split_and!; [|done|].
    + rewrite deref_mark_other; [done|]. intros ->. done.
    + intros y Hy. destruct (is_alive cfg fns (store s) r); [|by apply H3].
      apply elem_of_app in Hy as [Hy|Hy]; [by apply H3|].
      by apply list_elem_of_singleton in Hy as ->.
Qed.

(** Classification writes to alive beams only. *)
Lemma filter_beams_frame (st st' : State) (bs : list ref) (ix : list nat) (x : ref) :
  (forall idx, x ∉ current_beams st !!! idx) ->
  filter_beams cfg fns n st = Ok (st', (bs, ix)) ->
  deref (store st') x = deref (store st) x.
Proof.
  intros Hnot Hrun. apply filter_beams_inv in Hrun as (Hrun & _ & _).
  apply (for_each_inv
           (fun (_ : nat) (s : State) =>
              deref (store s) x = deref (store st) x
              /\ forall idx, x ∉ current_beams s !!! idx)
           (filter_element cfg fns) (seq 0 n) st st'); [done| |done].
  intros i j s s' _ [Hd Hn] Hstep.
  destruct (filter_element_frame cfg fns j s s' Hstep) as (Hs & _ & _ & Hcur).
  destruct (classify_frame j s x (Hn j)) as (C1 & C2 & C3).
  split; [congruence|]. intros idx. rewrite C2 in Hcur.
  destruct Hcur as [-> | ->]; rewrite list_lookup_total_insert; case_decide as Hc;
    try apply Hn.
  - destruct Hc as [<- _]. intros Hin. apply C3 in Hin. by apply (Hn j).
  - apply not_elem_of_nil.
Qed.

End Frame.

(** X25: a round writes to the alive beams and to the objects it makes,
    and to nothing else: every other object of the store, a finished or a
    too-long beam among them, is after the round as it was before. *)
Theorem round_writes_alive_only {Cache : Type} (cfg : Config) (fns : Callbacks Cache)
    (n : nat) (lp lp' : Loop Cache) (evs : list (event Cache)) (x : ref) :
  sampler_bounded fns ->
  update_keeps fns ->
  wf cfg n lp ->
  round cfg fns n lp = (evs, Ok lp') ->
  (x < length (store (engine lp)))%nat ->
  x ∉ beams lp ->
  deref (store (engine lp')) x = deref (store (engine lp)) x.
Proof.
  intros Hsb Huk Hwf Hround Hx Hnot.
  destruct (round_inv cfg fns n lp lp' evs Hround)
    as (inputs & logits & c' & h & bc & st1 & calls & st2 & _ & Hexp & Hprune & Hfilter & _ & Heng).
  destruct Hwf as (W1 & W2 & W3 & W4 & W5 & W6 & W7 & W8 & W9).
  assert (Hix : Forall (fun idx => (idx < n)%nat) (indices lp)).
  { rewrite W5. apply Forall_forall. intros idx Hin. by apply flatten_indices in Hin as [? _]. }
  pose proof (expand_spec cfg fns n _ _ _ logits (h, bc) W7 W6 Hix Hsb Hexp)
    as (E1 & E2 & E3 & _ & E5 & _).
  cbn [fst snd] in *.
  assert (Hcand : forall idx, x ∉ bc !!! idx).
  { intros idx Hin.
    destruct (E3 idx x Hin) as [_ (i & r & t & p & _ & Hr & _ & _ & _ & _ & Hwho)].
    destruct (beam_width cfg =? 1).
    - subst x. apply Hnot. by eapply list_elem_of_lookup_2.
    - lia. }
  pose proof (expand_frame cfg fns n _ _ _ _ (h, bc) x Hx Hnot Hexp) as F1. cbn [fst] in F1.
  pose proof (prune_frame cfg fns (with_store (engine lp) h) bc x) as F2.
  rewrite Hprune in F2. cbn [fst with_store store] in F2.
  specialize (F2 ltac:(intros Hin; apply elem_of_concat_lookup in Hin as [idx Hin];
                       by apply (Hcand idx))).
  destruct (prune_spec cfg fns Huk (with_store (engine lp) h) st1 bc calls E5)
    as (_ & _ & _ & _ & Hkept); [simpl; lia|done|].
  assert (Hst1 : forall idx, x ∉ current_beams st1 !!! idx).
  { intros idx Hin. destruct (current_beams st1 !! idx) as [row|] eqn:Hrow.
    - rewrite (list_lookup_total_correct _ _ _ Hrow) in Hin.
      destruct (Forall2_lookup_l _ _ _ _ _ Hkept Hrow) as (cands & Hc & _ & Hsub).
      apply (Hcand idx). rewrite (list_lookup_total_correct _ _ _ Hc). by apply Hsub.
    - rewrite list_lookup_total_alt, Hrow in Hin. by apply elem_of_nil in Hin. }
  pose proof (filter_beams_frame cfg fns n st1 st2 _ _ x Hst1 Hfilter) as F3.
  assert (Hgo : store (get_outputs cfg fns n st2).1 = store st2).
  { destruct (get_outputs cfg fns n st2) as [st3 outs] eqn:Hgo. cbn [fst].
    by destruct (get_outputs_spec cfg fns n st2 st3 outs Hgo) as (-> & _). }
  rewrite Heng. destruct (yield_intermediate cfg); [rewrite Hgo|]; congruence.
Qed.

Lemma demo_lp1_wf : wf cfg_wide 1 demo_lp1.
Proof.
  by destruct (round_spec cfg_wide Demo.done_on_1 1 (demo_sampler_bounded _ _)
                 (demo_update_keeps _ _) demo_lp0 demo_lp1 _ demo_lp0_wf demo_round_1)
    as (H & _).
Qed.

Lemma round_writes_alive_only_witness :
  deref (store (engine demo_lp2)) 2%nat = deref (store (engine demo_lp1)) 2%nat.
Proof.
  apply (round_writes_alive_only cfg_wide Demo.done_on_1 1 demo_lp1 demo_lp2
           (round cfg_wide Demo.done_on_1 1 demo_lp1).1
           2%nat (demo_sampler_bounded _ _) (demo_update_keeps _ _) demo_lp1_wf).
  - vm_compute. reflexivity.
  - vm_compute. lia.
  - vm_compute. intros Hin. apply list_elem_of_singleton in Hin. discriminate.
Defined.
